(** * mssqlcopy: a shallow embedding of the copy pipeline

    The Go packages of the repository are rendered as modules of the same
    name: [mssql] (filter parser, quoting, the batched loader and the part
    of the store the copy task drives), [copy] (schema comparison and the
    writer stage of a copy task), [cli] (the chunking scheduler helper) and
    [monitor] (the progress monitor's event loop).  Go strings are byte
    sequences and are modelled by [string]; Go [int] is modelled by [Z];
    Go maps by [gmap]. *)

From Stdlib Require Import ZArith Ascii String List Lia Bool.
From stdpp Require Import base option list strings pretty gmap fin_maps sorting.
From Equations Require Import Equations.

Local Open Scope Z_scope.
Local Open Scope string_scope.
Local Open Scope list_scope.

(** ** Go's [strings] package, restricted to what the program calls *)

Module strings.

(** [strings.Split(s, sep)] for a one-byte separator: [n] separators give
    [n + 1] pieces, and the empty string gives one empty piece. *)
Fixpoint Split (s : string) (sep : ascii) : list string :=
  match s with
  | EmptyString => [EmptyString]
  | String c s' =>
      if Ascii.eqb c sep then EmptyString :: Split s' sep
      else match Split s' sep with
           | [] => [String c EmptyString]
           | p :: ps => String c p :: ps
           end
  end.

(** Membership of a byte in an ASCII cutset. *)
Fixpoint inCutset (c : ascii) (cutset : string) : bool :=
  match cutset with
  | EmptyString => false
  | String d cutset' => Ascii.eqb c d || inCutset c cutset'
  end.

Fixpoint TrimLeft (s cutset : string) : string :=
  match s with
  | EmptyString => EmptyString
  | String c s' => if inCutset c cutset then TrimLeft s' cutset else s
  end.

Fixpoint TrimRight (s cutset : string) : string :=
  match s with
  | EmptyString => EmptyString
  | String c s' =>
      match TrimRight s' cutset with
      | EmptyString => if inCutset c cutset then EmptyString else String c EmptyString
      | t => String c t
      end
  end.

(** [strings.Trim(s, cutset)]: leading and trailing bytes of the cutset
    removed. *)
Definition Trim (s cutset : string) : string :=
  TrimRight (TrimLeft s cutset) cutset.

Definition upperByte (c : ascii) : ascii :=
  let n := nat_of_ascii c in
  if (Nat.leb 97 n && Nat.leb n 122)%bool then ascii_of_nat (n - 32) else c.

(** [strings.ToUpper] on ASCII text; the program applies it to connector
    tokens and comparison operators only. *)
Fixpoint ToUpper (s : string) : string :=
  match s with
  | EmptyString => EmptyString
  | String c s' => String (upperByte c) (ToUpper s')
  end.

(** [strings.Replace(s, old, new, -1)] for a one-byte [old]. *)
Fixpoint ReplaceAll (s : string) (old : ascii) (new : string) : string :=
  match s with
  | EmptyString => EmptyString
  | String c s' =>
      if Ascii.eqb c old then new +:+ ReplaceAll s' old new
      else String c (ReplaceAll s' old new)
  end.

(** [strings.Join(elems, sep)]. *)
Fixpoint Join (elems : list string) (sep : string) : string :=
  match elems with
  | [] => EmptyString
  | [e] => e
  | e :: rest => e +:+ sep +:+ Join rest sep
  end.

End strings.


(** ** Effects

    Stateful Go code is written in a state monad whose outcomes are either a
    normal return or a run-time panic (a nil dereference, a division by
    zero, a slice bound out of range). *)

Inductive Outcome (S A : Type) : Type :=
| Returns (a : A) (s : S)
| Panics (s : S).
Arguments Returns {S A} a s.
Arguments Panics {S A} s.

Definition M (S A : Type) : Type := S -> Outcome S A.

Definition ret {S A : Type} (a : A) : M S A := fun s => Returns a s.

Definition bind {S A B : Type} (m : M S A) (k : A -> M S B) : M S B :=
  fun s =>
    match m s with
    | Returns a s' => k a s'
    | Panics s' => Panics s'
    end.

Definition panic {S A : Type} : M S A := fun s => Panics s.

Definition get {S : Type} : M S S := fun s => Returns s s.

Definition modify {S : Type} (f : S -> S) : M S unit := fun s => Returns tt (f s).

(** The state an outcome leaves behind. *)
Definition finalState {S A : Type} (o : Outcome S A) : S :=
  match o with
  | Returns _ s => s
  | Panics s => s
  end.

(** Running a computation on a component of a larger state. *)
Definition zoom {S T A : Type} (proj : T -> S) (upd : S -> T -> T) (m : M S A)
  : M T A :=
  fun t =>
    match m (proj t) with
    | Returns a s' => Returns a (upd s' t)
    | Panics s' => Panics (upd s' t)
    end.

Notation "x <- m ;; k" := (bind m (fun x => k))
  (at level 100, m at next level, right associativity).
Notation "m ;;; k" := (bind m (fun _ => k))
  (at level 100, right associativity).

(** Go's [int] on the 64-bit targets the program is built for: two's
    complement wrap-around after each arithmetic step. *)
Definition wrap64 (z : Z) : Z := (z + 2 ^ 63) mod 2 ^ 64 - 2 ^ 63.

(** ** Package [mssql] *)

Module mssql.

(** The double-quote byte. *)
Definition dquote : ascii := ascii_of_nat 34.

(** *** go-mssqldb's [TSQLQuoter] *)

(** [TSQLQuoter.ID]: bracket quoting, closing brackets doubled. *)
Definition quoter_ID (s : string) : string :=
  "[" +:+ strings.ReplaceAll s "]" "]]" +:+ "]".

(** [TSQLQuoter.Value]: single-quote quoting, quotes doubled. *)
Definition quoter_Value (s : string) : string :=
  "'" +:+ strings.ReplaceAll s "'" "''" +:+ "'".

(** *** db.go: table references *)

Record TableRef := { Schema : string; Table : string }.

Definition TableRef_String (t : TableRef) : string :=
  quoter_ID (Schema t) +:+ "." +:+ quoter_ID (Table t).

(** *** db.go: the filter parser *)

Record expression := { column : string; operator : string; value : string }.

Definition expression_String (e : expression) : string :=
  "( " +:+ quoter_ID (column e) +:+ " " +:+ strings.ToUpper (operator e)
       +:+ " " +:+ quoter_Value (value e) +:+ " )".

Record filter := { expressions : list expression; operators : list string }.

(** The zero value [filter{}]. *)
Definition filter_zero : filter := {| expressions := []; operators := [] |}.

(** The loop of [filter.String] once the expressions are exhausted: only
    the second [if] of the body can fire. *)
Fixpoint writeOperators (ops : list string) : string :=
  match ops with
  | [] => EmptyString
  | o :: ops' => " " +:+ o +:+ " " +:+ writeOperators ops'
  end.

(** The loop of [filter.String]: each round writes the next expression,
    if any is left, and then the next connector, if any is left, and the
    loop ends when both indices have reached their counts. *)
Fixpoint stringLoop (es : list expression) (ops : list string) : string :=
  match es with
  | [] => writeOperators ops
  | e :: es' =>
      expression_String e +:+
      match ops with
      | [] => stringLoop es' []
      | o :: ops' => " " +:+ o +:+ " " +:+ stringLoop es' ops'
      end
  end.

Definition filter_String (f : filter) : string :=
  match expressions f with
  | [] => "1=1"
  | _ => stringLoop (expressions f) (operators f)
  end.

(** The [case "AND", "OR", "and", "or"] of [splitExpressions]. *)
Definition isConnectorToken (part : string) : bool :=
  String.eqb part "AND" || String.eqb part "OR"
  || String.eqb part "and" || String.eqb part "or".

(** The [for _, part := range allParts] loop of [splitExpressions],
    threading [parts] and the contents of [partBuilder]. *)
Fixpoint splitLoop (allParts parts : list string) (partBuilder : string)
  : list string * string :=
  match allParts with
  | [] => (parts, partBuilder)
  | part :: rest =>
      if isConnectorToken part
      then splitLoop rest
             (parts ++ [strings.Trim partBuilder " "; strings.ToUpper part])
             EmptyString
      else splitLoop rest parts (partBuilder +:+ part +:+ " ")
  end.

Definition splitExpressions (s : string) : list string :=
  let '(parts, partBuilder) := splitLoop (strings.Split s " ") [] EmptyString in
  if Nat.ltb 0 (String.length partBuilder)
  then parts ++ [strings.Trim partBuilder " "]
  else parts.

(** *** The regular expression [expressionPattern]

    Three groups separated by single spaces: a lazy non-empty run of
    column bytes (brackets, the double quote, letters, digits, underscore,
    space), one or two bytes among the comparison signs, and a greedy
    non-empty run of any bytes but the line feed.  It is matched the way
    Go's regexp package does: leftmost start, and among the matches at
    that start the one a backtracking search finds first. *)

(** The character class of the first group. *)
Definition isColumnByte (c : ascii) : bool :=
  let n := nat_of_ascii c in
  (Nat.eqb n 91 || Nat.eqb n 93 || Nat.eqb n 34
   || (Nat.leb 97 n && Nat.leb n 122)
   || (Nat.leb 65 n && Nat.leb n 90)
   || (Nat.leb 48 n && Nat.leb n 57)
   || Nat.eqb n 95 || Nat.eqb n 32)%bool.

(** The character class of the operator group. *)
Definition isOperatorByte (c : ascii) : bool :=
  (Ascii.eqb c "=" || Ascii.eqb c "<" || Ascii.eqb c ">")%bool.

Definition newline : ascii := ascii_of_nat 10.

(** The greedy [.+]: the longest run of bytes up to the next line feed. *)
Fixpoint dotRun (s : string) : string :=
  match s with
  | EmptyString => EmptyString
  | String c s' => if Ascii.eqb c newline then EmptyString else String c (dotRun s')
  end.

(** [ (.+)] after the operator: a space and a non-empty run. *)
Definition matchValue (s : string) : option string :=
  match s with
  | String " " rest =>
      match dotRun rest with
      | EmptyString => None
      | v => Some v
      end
  | _ => None
  end.

(** [ ([=<>]{1,2}) (.+)]: two operator bytes are tried before one. *)
Definition matchTail (s : string) : option (string * string) :=
  match s with
  | String " " (String o1 rest1) =>
      if isOperatorByte o1 then
        let one := match matchValue rest1 with
                   | Some v => Some (String o1 EmptyString, v)
                   | None => None
                   end in
        match rest1 with
        | String o2 rest2 =>
            if isOperatorByte o2 then
              match matchValue rest2 with
              | Some v => Some (String o1 (String o2 EmptyString), v)
              | None => one
              end
            else one
        | EmptyString => one
        end
      else None
  | _ => None
  end.

(** The lazy first group, started at the head of [s]: [g1] holds the bytes
    taken so far, and the shortest extension that lets the rest of the
    pattern match wins. *)
Fixpoint matchFrom (g1 s : string) : option (string * string * string) :=
  match s with
  | EmptyString => None
  | String c s' =>
      if isColumnByte c then
        let g1' := g1 +:+ String c EmptyString in
        match matchTail s' with
        | Some (op, v) => Some (g1', op, v)
        | None => matchFrom g1' s'
        end
      else None
  end.

(** [expressionPattern.FindStringSubmatch]: the empty slice when nothing
    matches, otherwise the whole match followed by the three groups. *)
Fixpoint FindStringSubmatch (s : string) : list string :=
  match matchFrom EmptyString s with
  | Some (g1, op, v) => [g1 +:+ " " +:+ op +:+ " " +:+ v; g1; op; v]
  | None =>
      match s with
      | EmptyString => []
      | String _ s' => FindStringSubmatch s'
      end
  end.

(** Go's [error], as its message. *)
Definition error := string.

Definition parseError (filterPart : string) (n : nat) : error :=
  "expression (" +:+ String dquote filterPart +:+ String dquote EmptyString
    +:+ ") only has " +:+ pretty n +:+ " parts, while we expect 3 parts".

(** The [for _, filterPart := range expressions] loop of [parseFilter]. *)
Fixpoint parseLoop (parts : list string) (f : filter) : filter + error :=
  match parts with
  | [] => inl f
  | filterPart :: rest =>
      if String.eqb filterPart "AND" || String.eqb filterPart "OR" then
        parseLoop rest {| expressions := expressions f;
                          operators := operators f ++ [filterPart] |}
      else
        let matches := FindStringSubmatch filterPart in
        if Nat.ltb (length matches) 3 then
          inr (parseError filterPart (length matches))
        else
          parseLoop rest
            {| expressions :=
                 expressions f ++
                 [{| column := strings.Trim (nth 1 matches EmptyString)
                                 (String dquote "[]");
                     operator := nth 2 matches EmptyString;
                     value := strings.Trim (nth 3 matches EmptyString) "'" |}];
               operators := operators f |}
  end.

Definition parseFilter (queryFilter : string) : filter + error :=
  if String.eqb queryFilter EmptyString then inl filter_zero
  else parseLoop (splitExpressions queryFilter) filter_zero.


(** *** The store behind [*sql.DB]

    The driver and the server are outside the repository.  They are
    modelled by the state below: the tables' committed rows, the foreign
    keys, the open transactions with the rows their bulk statement has
    buffered, a log of the calls that reached the driver, and a script
    giving the outcome of each upcoming call (an exhausted script means
    success). *)

(** Column values as [interface{}] holds them.  [VPtr v] is a pointer to
    an interface holding [v], the form in which [RowIterator.Next] delivers
    every column (it allocates each with [new]). *)
Inductive Value :=
| VNil
| VInt (z : Z)
| VString (s : string)
| VBytes (b : list Byte.byte)
| VPtr (v : Value).

Definition Row := list Value.

Record ForeingKeyConstraint := {
  fk_Name : string;
  fk_Schema : string;
  fk_Table : string;
  fk_Column : string;
  fk_ReferencedSchema : string;
  fk_ReferencedTable : string;
  fk_ReferencedColumn : string;
  fk_NoCheck : string
}.

Inductive Call :=
| QueryReferencedForeignKeys (t : TableRef)
| ExecDropConstraint (fk : ForeingKeyConstraint)
| ExecTruncate (t : TableRef)
| ExecAddConstraint (fk : ForeingKeyConstraint)
| DbBeginTx
| TxPrepare (tx : nat)
| StmtExecRow (tx : nat) (row : Row)
| StmtExecFlush (tx : nat)
| StmtClose (tx : nat)
| TxCommit (tx : nat)
| TxRollback (tx : nat).

Record DB := {
  script : list (option error);
  calls : list Call;
  tables : gmap string (list Row);
  foreignKeys : list ForeingKeyConstraint;
  nextTx : nat;
  openTxs : list (nat * (string * list Row))
}.

Definition setScript (x : list (option error)) (d : DB) : DB :=
  {| script := x; calls := calls d; tables := tables d;
     foreignKeys := foreignKeys d; nextTx := nextTx d; openTxs := openTxs d |}.
Definition setCalls (x : list Call) (d : DB) : DB :=
  {| script := script d; calls := x; tables := tables d;
     foreignKeys := foreignKeys d; nextTx := nextTx d; openTxs := openTxs d |}.
Definition setTables (x : gmap string (list Row)) (d : DB) : DB :=
  {| script := script d; calls := calls d; tables := x;
     foreignKeys := foreignKeys d; nextTx := nextTx d; openTxs := openTxs d |}.
Definition setForeignKeys (x : list ForeingKeyConstraint) (d : DB) : DB :=
  {| script := script d; calls := calls d; tables := tables d;
     foreignKeys := x; nextTx := nextTx d; openTxs := openTxs d |}.
Definition setNextTx (x : nat) (d : DB) : DB :=
  {| script := script d; calls := calls d; tables := tables d;
     foreignKeys := foreignKeys d; nextTx := x; openTxs := openTxs d |}.
Definition setOpenTxs (x : list (nat * (string * list Row))) (d : DB) : DB :=
  {| script := script d; calls := calls d; tables := tables d;
     foreignKeys := foreignKeys d; nextTx := nextTx d; openTxs := x |}.

(** One call reaching the driver: it is logged and its outcome is read
    off the script. *)
Definition driverCall (c : Call) : M DB (option error) :=
  fun d =>
    let d' := setCalls (calls d ++ [c]) d in
    match script d with
    | [] => Returns None d'
    | o :: rest => Returns o (setScript rest d')
    end.

(** [sql.ErrTxDone]. *)
Definition ErrTxDone : error :=
  "sql: transaction has already been committed or rolled back".

Fixpoint lookupTx (t : nat) (txs : list (nat * (string * list Row)))
  : option (string * list Row) :=
  match txs with
  | [] => None
  | (t', b) :: rest => if Nat.eqb t t' then Some b else lookupTx t rest
  end.

Fixpoint removeTx (t : nat) (txs : list (nat * (string * list Row)))
  : list (nat * (string * list Row)) :=
  match txs with
  | [] => []
  | (t', b) :: rest =>
      if Nat.eqb t t' then removeTx t rest else (t', b) :: removeTx t rest
  end.

Fixpoint bufferRow (t : nat) (row : Row) (txs : list (nat * (string * list Row)))
  : list (nat * (string * list Row)) :=
  match txs with
  | [] => []
  | (t', (tbl, rows)) :: rest =>
      if Nat.eqb t t' then (t', (tbl, rows ++ [row])) :: rest
      else (t', (tbl, rows)) :: bufferRow t row rest
  end.

Definition setTxTable (t : nat) (tbl : string)
    (txs : list (nat * (string * list Row))) : list (nat * (string * list Row)) :=
  map (fun '(t', (tbl', rows)) =>
         if Nat.eqb t t' then (t', (tbl, rows)) else (t', (tbl', rows))) txs.

(** [db.BeginTx]. *)
Definition BeginTx : M DB (nat + error) :=
  err <- driverCall DbBeginTx ;;
  match err with
  | Some e => ret (inr e)
  | None =>
      d <- get ;;
      modify (fun d => setNextTx (S (nextTx d))
                         (setOpenTxs (openTxs d ++ [(nextTx d, (EmptyString, []))]) d)) ;;;
      ret (inl (nextTx d))
  end.

(** A prepared bulk-copy statement: the transaction it lives in. *)
Record Stmt := { stmt_tx : nat }.

(** [tx.Prepare(mssqlDriver.CopyIn(table, ...))]. *)
Definition Tx_Prepare (t : nat) (tbl : string) : M DB (Stmt + error) :=
  d <- get ;;
  match lookupTx t (openTxs d) with
  | None => ret (inr ErrTxDone)
  | Some _ =>
      err <- driverCall (TxPrepare t) ;;
      match err with
      | Some e => ret (inr e)
      | None =>
          modify (fun d => setOpenTxs (setTxTable t tbl (openTxs d)) d) ;;;
          ret (inl {| stmt_tx := t |})
      end
  end.

(** [stmt.ExecContext(ctx, row...)]: the row joins the statement's
    buffer. *)
Definition Stmt_ExecContext (s : Stmt) (row : Row) : M DB (option error) :=
  d <- get ;;
  match lookupTx (stmt_tx s) (openTxs d) with
  | None => ret (Some ErrTxDone)
  | Some _ =>
      err <- driverCall (StmtExecRow (stmt_tx s) row) ;;
      match err with
      | Some e => ret (Some e)
      | None =>
          modify (fun d => setOpenTxs (bufferRow (stmt_tx s) row (openTxs d)) d) ;;;
          ret None
      end
  end.

(** [stmt.Exec()] without arguments: the buffer is sent to the server. *)
Definition Stmt_Exec (s : Stmt) : M DB (option error) :=
  d <- get ;;
  match lookupTx (stmt_tx s) (openTxs d) with
  | None => ret (Some ErrTxDone)
  | Some _ => driverCall (StmtExecFlush (stmt_tx s))
  end.

(** [stmt.Close()]. *)
Definition Stmt_Close (s : Stmt) : M DB (option error) :=
  driverCall (StmtClose (stmt_tx s)).

Definition appendRows (tbl : string) (rows : list Row)
    (ts : gmap string (list Row)) : gmap string (list Row) :=
  <[tbl := default [] (ts !! tbl) ++ rows]> ts.

(** [tx.Commit()]: whatever the driver answers, the transaction is over;
    on success its rows reach the table. *)
Definition Tx_Commit (t : nat) : M DB (option error) :=
  d <- get ;;
  match lookupTx t (openTxs d) with
  | None => ret (Some ErrTxDone)
  | Some (tbl, rows) =>
      err <- driverCall (TxCommit t) ;;
      modify (fun d => setOpenTxs (removeTx t (openTxs d)) d) ;;;
      match err with
      | Some e => ret (Some e)
      | None =>
          modify (fun d => setTables (appendRows tbl rows (tables d)) d) ;;;
          ret None
      end
  end.

(** [tx.Rollback()]. *)
Definition Tx_Rollback (t : nat) : M DB (option error) :=
  d <- get ;;
  match lookupTx t (openTxs d) with
  | None => ret (Some ErrTxDone)
  | Some _ =>
      err <- driverCall (TxRollback t) ;;
      modify (fun d => setOpenTxs (removeTx t (openTxs d)) d) ;;;
      ret err
  end.

(** The unquoted [schema.table] text used by [CopyIn] and [TRUNCATE]. *)
Definition tableName (t : TableRef) : string :=
  Schema t +:+ "." +:+ Table t.

(** *** db.go: truncation and foreign keys *)

Definition EmptyTable (table : TableRef) : M DB (option error) :=
  err <- driverCall (ExecTruncate table) ;;
  match err with
  | Some e => ret (Some e)
  | None =>
      modify (fun d => setTables (<[tableName table := []]> (tables d)) d) ;;;
      ret None
  end.

(** The [WHERE] clause of [GetReferencedForeignKeys]. *)
Definition references (table : TableRef) (fk : ForeingKeyConstraint) : bool :=
  String.eqb (fk_ReferencedTable fk) (Table table)
  && String.eqb (fk_Schema fk) (Schema table).

Definition GetReferencedForeignKeys (table : TableRef)
  : M DB (list ForeingKeyConstraint * option error) :=
  err <- driverCall (QueryReferencedForeignKeys table) ;;
  match err with
  | Some e => ret ([], Some e)
  | None =>
      d <- get ;;
      ret (List.filter (references table) (foreignKeys d), None)
  end.

Definition sameConstraint (a b : ForeingKeyConstraint) : bool :=
  String.eqb (fk_Name a) (fk_Name b)
  && String.eqb (fk_Schema a) (fk_Schema b)
  && String.eqb (fk_Table a) (fk_Table b).

Definition DropForeignKey (foreignKey : ForeingKeyConstraint) : M DB (option error) :=
  err <- driverCall (ExecDropConstraint foreignKey) ;;
  match err with
  | Some e => ret (Some e)
  | None =>
      modify (fun d =>
                setForeignKeys
                  (List.filter (fun fk => negb (sameConstraint foreignKey fk))
                     (foreignKeys d)) d) ;;;
      ret None
  end.

(** The [for _, fk := range foreingKeys] loop of the two dropping
    functions. *)
Fixpoint dropLoop (foreingKeys : list ForeingKeyConstraint) : M DB (option error) :=
  match foreingKeys with
  | [] => ret None
  | fk :: rest =>
      err <- DropForeignKey fk ;;
      match err with
      | Some e => ret (Some e)
      | None => dropLoop rest
      end
  end.

Definition DropReferencedForeignKeys (table : TableRef) : M DB (option error) :=
  r <- GetReferencedForeignKeys table ;;
  match snd r with
  | Some e => ret (Some e)
  | None => dropLoop (fst r)
  end.

Definition AddForeignKey (foreignKey : ForeingKeyConstraint) : M DB (option error) :=
  err <- driverCall (ExecAddConstraint foreignKey) ;;
  match err with
  | Some e => ret (Some e)
  | None =>
      modify (fun d => setForeignKeys (foreignKeys d ++ [foreignKey]) d) ;;;
      ret None
  end.

Fixpoint AddForeignKeys (foreignKeys : list ForeingKeyConstraint) : M DB (option error) :=
  match foreignKeys with
  | [] => ret None
  | fk :: rest =>
      err <- AddForeignKey fk ;;
      match err with
      | Some e => ret (Some e)
      | None => AddForeignKeys rest
      end
  end.

(** *** bulk.go: the batched loader *)

Record BulkInsert := {
  table : TableRef;
  columns : list string;
  commitCount : Z;
  count : Z;
  stmt : option Stmt;
  tx : option nat
}.

Definition NewBulkInsert (table : TableRef) (columns : list string) : BulkInsert :=
  {| table := table; columns := columns; commitCount := 50000;
     count := 0; stmt := None; tx := None |}.

Definition setCount (x : Z) (bi : BulkInsert) : BulkInsert :=
  {| table := table bi; columns := columns bi; commitCount := commitCount bi;
     count := x; stmt := stmt bi; tx := tx bi |}.
Definition setStmtTx (s : option Stmt) (t : option nat) (bi : BulkInsert) : BulkInsert :=
  {| table := table bi; columns := columns bi; commitCount := commitCount bi;
     count := count bi; stmt := s; tx := t |}.

(** [getStmt]: the statement in use, opened in a fresh transaction when
    there is none.  The loader is updated only when both the transaction
    and the statement were obtained. *)
Definition getStmt (bi : BulkInsert) : M DB ((Stmt + error) * BulkInsert) :=
  match stmt bi with
  | Some s => ret (inl s, bi)
  | None =>
      r <- BeginTx ;;
      match r with
      | inr e => ret (inr e, bi)
      | inl t =>
          r <- Tx_Prepare t (tableName (table bi)) ;;
          match r with
          | inr e => ret (inr e, bi)
          | inl s => ret (inl s, setStmtTx (Some s) (Some t) bi)
          end
      end
  end.

(** The type switch at the head of [Insert]: a pointer to an interface
    holding a byte slice becomes the string of those bytes; every other
    value stays as it is. *)
Definition coerce (value : Value) : Value :=
  match value with
  | VPtr (VBytes b) => VString (string_of_list_byte b)
  | _ => value
  end.

Definition Commit (bi : BulkInsert) : M DB (option error * BulkInsert) :=
  match stmt bi with
  | None => ret (None, bi)
  | Some s =>
      err <- Stmt_Exec s ;;
      match err with
      | Some e => ret (Some e, bi)
      | None =>
          err <- Stmt_Close s ;;
          match err with
          | Some e => ret (Some e, bi)
          | None =>
              match tx bi with
              | None => panic
              | Some t =>
                  err <- Tx_Commit t ;;
                  match err with
                  | Some e => ret (Some e, bi)
                  | None => ret (None, setStmtTx None None (setCount 0 bi))
                  end
              end
          end
      end
  end.

Definition Insert (bi : BulkInsert) (row : Row) : M DB (option error * BulkInsert) :=
  let row := map coerce row in
  r <- getStmt bi ;;
  match r with
  | (inr e, bi) => ret (Some e, bi)
  | (inl s, bi) =>
      err <- Stmt_ExecContext s row ;;
      match err with
      | Some e => ret (Some e, bi)
      | None =>
          let bi := setCount (wrap64 (count bi + 1)) bi in
          if Z.eqb (commitCount bi) 0 then panic
          else if Z.eqb (Z.rem (count bi) (commitCount bi)) 0 then Commit bi
          else ret (None, bi)
      end
  end.

Definition Rollback (bi : BulkInsert) : M DB (option error) :=
  match tx bi with
  | None => ret (Some "no active transaction to rollback")
  | Some t => Tx_Rollback t
  end.

(** [MSSQLDB.BulkInsert]. *)
Definition DB_BulkInsert (table : TableRef) (columns : list string)
  : BulkInsert * option error :=
  (NewBulkInsert table columns, None).

(** *** db.go: the cache of schema definitions

    [GetSchemaDefinition] holds the lock of the cache from entry to
    return, so calls do not overlap and are modelled one after the other.
    The part of [MSSQLDB] it touches is the cache itself; the driver is
    modelled by a log of the column queries sent and by the answers to the
    upcoming ones (none left means a result without rows). *)

(** What the driver answers to the column query: an error, or rows of a
    column name and a data type, each of which [Scan] reads or rejects. *)
Inductive ColumnsAnswer :=
| QueryFails (e : error)
| Columns (rows : list (string * string + error)).

Record SchemaDB := {
  schemaDefs : gmap string (gmap string string);
  columnQueries : list TableRef;
  columnAnswers : list ColumnsAnswer
}.

(** The [for rows.Next()] loop filling [schemaMap]. *)
Fixpoint scanColumns (rows : list (string * string + error))
    (schemaMap : gmap string string) : gmap string string + error :=
  match rows with
  | [] => inl schemaMap
  | inr e :: _ => inr e
  | inl (column, dataType) :: rest =>
      scanColumns rest (<[column := dataType]> schemaMap)
  end.

(** [db.db.QueryContext] with the column query for [table]. *)
Definition queryColumns (table : TableRef) : M SchemaDB ColumnsAnswer :=
  fun d =>
    let queries := columnQueries d ++ [table] in
    match columnAnswers d with
    | [] => Returns (Columns [])
              {| schemaDefs := schemaDefs d; columnQueries := queries;
                 columnAnswers := [] |}
    | a :: rest => Returns a
                     {| schemaDefs := schemaDefs d; columnQueries := queries;
                        columnAnswers := rest |}
    end.

(** [GetSchemaDefinition]: the nil map returned with an error reads as the
    empty map. *)
Definition GetSchemaDefinition (table : TableRef)
  : M SchemaDB (gmap string string * option error) :=
  d <- get ;;
  match schemaDefs d !! TableRef_String table with
  | Some schema => ret (schema, None)
  | None =>
      answer <- queryColumns table ;;
      match answer with
      | QueryFails e => ret (∅, Some e)
      | Columns rows =>
          match scanColumns rows ∅ with
          | inr e => ret (∅, Some e)
          | inl schemaMap =>
              modify (fun d =>
                        {| schemaDefs := <[TableRef_String table := schemaMap]>
                                           (schemaDefs d);
                           columnQueries := columnQueries d;
                           columnAnswers := columnAnswers d |}) ;;;
              ret (schemaMap, None)
          end
      end
  end.

End mssql.

(** ** Package [monitor] *)

Module monitor.

Inductive Event :=
| ProgressUpdateEvent (RowsCopied : Z) (Table : mssql.TableRef)
| CopyTaskStartedEvent (Table : mssql.TableRef)
| CopyTaskFinishedEvent (Table : mssql.TableRef)
| CountUpdateEvent (TotalRows : Z) (Table : mssql.TableRef)
| ErrorEvent (Table : mssql.TableRef) (Err : mssql.error)
| OtherEvent.
(** [Event] is [interface{}]: [OtherEvent] stands for a value of any type
    the switch of [Run] has no case for. *)

(** The progress bar belongs to an outside library; it is modelled by its
    description and the calls made on it. *)
Inductive BarCall :=
| BarAdd (n : Z)
| BarChangeMax (n : Z).

Record ProgressBar := { bar_description : string; bar_calls : list BarCall }.

Record ProgressReporter := {
  bar : ProgressBar;
  RowTotal : Z;
  RowsCopied : Z;
  Table : mssql.TableRef;
  done : bool;
  err : option mssql.error
}.

Definition NewProgressReporter (table : mssql.TableRef) : ProgressReporter :=
  {| bar := {| bar_description := mssql.TableRef_String table; bar_calls := [] |};
     RowTotal := 0; RowsCopied := 0; Table := table; done := false; err := None |}.

Definition barCall (c : BarCall) (b : ProgressBar) : ProgressBar :=
  {| bar_description := bar_description b; bar_calls := bar_calls b ++ [c] |}.

Definition Update (p : ProgressReporter) (rowsCopied : Z) : ProgressReporter :=
  {| bar := barCall (BarAdd rowsCopied) (bar p); RowTotal := RowTotal p;
     RowsCopied := wrap64 (RowsCopied p + rowsCopied); Table := Table p;
     done := done p; err := err p |}.

Definition SetTotalRows (p : ProgressReporter) (totalRows : Z) : ProgressReporter :=
  {| bar := barCall (BarChangeMax totalRows) (bar p); RowTotal := totalRows;
     RowsCopied := RowsCopied p; Table := Table p; done := done p; err := err p |}.

Definition SetError (p : ProgressReporter) (e : mssql.error) : ProgressReporter :=
  {| bar := bar p; RowTotal := RowTotal p; RowsCopied := RowsCopied p;
     Table := Table p; done := true; err := Some e |}.

Definition setDone (p : ProgressReporter) : ProgressReporter :=
  {| bar := bar p; RowTotal := RowTotal p; RowsCopied := RowsCopied p;
     Table := Table p; done := true; err := err p |}.

Record LastRender := { managedLines : Z; rowsCopied : gmap string Z }.

(** What is written to [w]: literal text, or the library's rendering of a
    bar in its current state. *)
Inductive Piece :=
| Text (s : string)
| BarString (b : ProgressBar).

Record Monitor := {
  ci : bool;
  monitors : gmap string ProgressReporter;
  tickerStopped : bool;
  lastRender : LastRender;
  sortedTableKeys : list string;
  w : list (list Piece)
}.

Definition NewMonitor (ci : bool) : Monitor :=
  {| ci := ci; monitors := ∅; tickerStopped := false;
     lastRender := {| managedLines := 0; rowsCopied := ∅ |};
     sortedTableKeys := []; w := [] |}.

Definition setMonitors (x : gmap string ProgressReporter) (m : Monitor) : Monitor :=
  {| ci := ci m; monitors := x; tickerStopped := tickerStopped m;
     lastRender := lastRender m; sortedTableKeys := sortedTableKeys m; w := w m |}.
Definition setTickerStopped (x : bool) (m : Monitor) : Monitor :=
  {| ci := ci m; monitors := monitors m; tickerStopped := x;
     lastRender := lastRender m; sortedTableKeys := sortedTableKeys m; w := w m |}.
Definition setLastRender (x : LastRender) (m : Monitor) : Monitor :=
  {| ci := ci m; monitors := monitors m; tickerStopped := tickerStopped m;
     lastRender := x; sortedTableKeys := sortedTableKeys m; w := w m |}.
Definition setSortedTableKeys (x : list string) (m : Monitor) : Monitor :=
  {| ci := ci m; monitors := monitors m; tickerStopped := tickerStopped m;
     lastRender := lastRender m; sortedTableKeys := x; w := w m |}.
Definition w_Write (x : list Piece) (m : Monitor) : Monitor :=
  {| ci := ci m; monitors := monitors m; tickerStopped := tickerStopped m;
     lastRender := lastRender m; sortedTableKeys := sortedTableKeys m;
     w := w m ++ [x] |}.

Definition lf : string := String (ascii_of_nat 10) EmptyString.
Definition esc : string := String (ascii_of_nat 27) EmptyString.

(** [sort.Strings]: ascending byte-wise order. *)
Fixpoint insertSorted (k : string) (l : list string) : list string :=
  match l with
  | [] => [k]
  | x :: rest => if String.leb k x then k :: l else x :: insertSorted k rest
  end.

Definition sort_Strings (l : list string) : list string :=
  fold_right insertSorted [] l.

(** The progress line of the line-oriented mode. *)
Definition copiedLine (key : string) (copied total : Z) : list Piece :=
  [Text (key +:+ " copied " +:+ pretty copied +:+ " of " +:+ pretty total +:+ lf)].

Definition recordCopied (key : string) (n : Z) (m : Monitor) : Monitor :=
  setLastRender {| managedLines := managedLines (lastRender m);
                   rowsCopied := <[key := n]> (rowsCopied (lastRender m)) |} m.

(** The loop of [render] in line-oriented mode.  Reading a field of
    [m.monitors[key]] for a key that is not in the map dereferences nil. *)
Fixpoint renderLines (keys : list string) : M Monitor unit :=
  match keys with
  | [] => ret tt
  | key :: rest =>
      m <- get ;;
      match monitors m !! key with
      | None => panic
      | Some r =>
          if Z.eqb (RowTotal r) 0 then renderLines rest
          else
            match rowsCopied (lastRender m) !! key with
            | None =>
                modify (w_Write (copiedLine key (RowsCopied r) (RowTotal r))) ;;;
                modify (recordCopied key (RowsCopied r)) ;;;
                renderLines rest
            | Some lastCount =>
                if Z.ltb lastCount (RowsCopied r) then
                  modify (w_Write (copiedLine key (RowsCopied r) (RowTotal r))) ;;;
                  modify (recordCopied key (RowsCopied r)) ;;;
                  renderLines rest
                else renderLines rest
            end
      end
  end.

(** The loop of [render] that fills the output builder in interactive
    mode. *)
Fixpoint renderBars (keys : list string) (output : list Piece)
  : M Monitor (list Piece) :=
  match keys with
  | [] => ret output
  | key :: rest =>
      m <- get ;;
      match monitors m !! key with
      | None => panic
      | Some r =>
          match err r with
          | None => renderBars rest (output ++ [BarString (bar r); Text (lf +:+ lf)])
          | Some e =>
              renderBars rest
                (output ++ [Text (mssql.TableRef_String (Table r) +:+ " = FAILED : "
                                    +:+ e +:+ lf +:+ lf)])
          end
      end
  end.

Definition render : M Monitor unit :=
  m <- get ;;
  if ci m then renderLines (sortedTableKeys m)
  else
    modify (fun m =>
              fold_right (fun _ acc => w_Write [Text (esc +:+ "[1F" +:+ esc +:+ "[2K")] acc)
                m (seq 0 (Z.to_nat (managedLines (lastRender m))))) ;;;
    output <- renderBars (sortedTableKeys m)
                [Text ("Copying from " +:+ strings.Join (sortedTableKeys m) ", "
                         +:+ lf +:+ lf)] ;;
    modify (w_Write output) ;;;
    modify (fun m =>
              setLastRender
                {| managedLines := 2 + 2 * Z.of_nat (length (sortedTableKeys m));
                   rowsCopied := rowsCopied (lastRender m) |} m).

(** The [anyRunning] scan over the reporters. *)
Definition anyRunning (ms : gmap string ProgressReporter) : bool :=
  existsb (fun kv => negb (done (snd kv))) (map_to_list ms).

Definition noMonitor (t : mssql.TableRef) : mssql.error :=
  "no monitor found for table " +:+ mssql.TableRef_String t.

Definition monitorExists (t : mssql.TableRef) : mssql.error :=
  "monitor already exists for table " +:+ mssql.TableRef_String t.

(** The tail shared by the task-finished and task-failed cases. *)
Definition finishIfIdle : M Monitor (option (option mssql.error)) :=
  m <- get ;;
  if anyRunning (monitors m) then ret None
  else
    modify (setTickerStopped true) ;;;
    render ;;;
    ret (Some None).

(** The type switch of [Run] on one received event: [None] goes round the
    loop again, [Some r] makes [Run] return [r]. *)
Definition handleEvent (event : Event) : M Monitor (option (option mssql.error)) :=
  m <- get ;;
  match event with
  | ProgressUpdateEvent n t =>
      match monitors m !! mssql.TableRef_String t with
      | None => ret (Some (Some (noMonitor t)))
      | Some r =>
          modify (setMonitors (<[mssql.TableRef_String t := Update r n]> (monitors m))) ;;;
          ret None
      end
  | CopyTaskStartedEvent t =>
      match monitors m !! mssql.TableRef_String t with
      | Some _ => ret (Some (Some (monitorExists t)))
      | None =>
          let ms := <[mssql.TableRef_String t := NewProgressReporter t]> (monitors m) in
          modify (setMonitors ms) ;;;
          modify (setSortedTableKeys (sort_Strings (map fst (map_to_list ms)))) ;;;
          ret None
      end
  | CountUpdateEvent n t =>
      match monitors m !! mssql.TableRef_String t with
      | None => ret (Some (Some (noMonitor t)))
      | Some r =>
          modify (setMonitors (<[mssql.TableRef_String t := SetTotalRows r n]> (monitors m))) ;;;
          ret None
      end
  | CopyTaskFinishedEvent t =>
      match monitors m !! mssql.TableRef_String t with
      | None => ret (Some (Some (noMonitor t)))
      | Some r =>
          modify (setMonitors (<[mssql.TableRef_String t := setDone r]> (monitors m))) ;;;
          finishIfIdle
      end
  | ErrorEvent t e =>
      match monitors m !! mssql.TableRef_String t with
      | None => ret (Some (Some (noMonitor t)))
      | Some r =>
          modify (setMonitors (<[mssql.TableRef_String t := SetError r e]> (monitors m))) ;;;
          finishIfIdle
      end
  | OtherEvent => ret None
  end.

(** What the [select] of one round of [Run] picks. *)
Inductive Select :=
| CtxDone
| Receive (event : Event)
| Tick.

(** [Run] either returns an error value, or is still waiting in its
    [select] when the inputs end. *)
Inductive RunResult :=
| Returned (e : option mssql.error)
| Waiting.

Fixpoint Run (inputs : list Select) : M Monitor RunResult :=
  match inputs with
  | [] => ret Waiting
  | CtxDone :: _ => render ;;; ret (Returned None)
  | Receive event :: rest =>
      r <- handleEvent event ;;
      match r with
      | Some e => ret (Returned e)
      | None => Run rest
      end
  | Tick :: rest => render ;;; Run rest
  end.

End monitor.

(** ** Package [copy] *)

Module copy.

(** The [for column, dataType := range sourceSchema] loop of
    [compareSchemas], over the entries in the order the iteration visits
    them.  Indexing [targetSchema] with an absent column gives the empty
    string. *)
Fixpoint compareLoop (entries : list (string * string))
    (targetSchema : gmap string string) : bool :=
  match entries with
  | [] => true
  | (column, dataType) :: rest =>
      if negb (String.eqb (default EmptyString (targetSchema !! column)) dataType)
      then false
      else compareLoop rest targetSchema
  end.

Definition compareSchemas (sourceSchema targetSchema : gmap string string) : bool :=
  if negb (Nat.eqb (size sourceSchema) (size targetSchema)) then false
  else compareLoop (map_to_list sourceSchema) targetSchema.

Record CopyTask := {
  table : mssql.TableRef;
  queryFilter : string;
  errs : list mssql.error
}.

(** What the writer stage acts on: the target store, the event channel
    (the events sent so far) and the counter of the wait group. *)
Record World := {
  targetDB : mssql.DB;
  eventChan : list monitor.Event;
  wg : Z
}.

Definition setTargetDB (x : mssql.DB) (v : World) : World :=
  {| targetDB := x; eventChan := eventChan v; wg := wg v |}.

Definition onTarget {A : Type} (m : M mssql.DB A) : M World A :=
  zoom targetDB setTargetDB m.

Definition send (e : monitor.Event) : M World unit :=
  modify (fun v => {| targetDB := targetDB v; eventChan := eventChan v ++ [e];
                      wg := wg v |}).

Definition wg_Done (v : World) : World :=
  {| targetDB := targetDB v; eventChan := eventChan v; wg := wg v - 1 |}.

(** [defer f()]: [f] runs when the body returns and when it panics. *)
Definition defer {S A : Type} (f : S -> S) (m : M S A) : M S A :=
  fun s =>
    match m s with
    | Returns a s' => Returns a (f s')
    | Panics s' => Panics (f s')
    end.

(** [_ = append(ct.errs, err); ct.eventChan <- monitor.ErrorEvent{...}]:
    the result of [append] is dropped, so [ct.errs] keeps its length. *)
Definition fail (ct : CopyTask) (msg : string) : M World unit :=
  send (monitor.ErrorEvent (table ct) msg).

(** The [if i == 0] block of the writer: [None] when the stage returns
    from inside it. *)
Definition firstRowSetup (ct : CopyTask)
  : M World (option (list mssql.ForeingKeyConstraint)) :=
  r <- onTarget (mssql.GetReferencedForeignKeys (table ct)) ;;
  match snd r with
  | Some _ =>
      fail ct ("Failed to get foreign keys for table "
                 +:+ mssql.TableRef_String (table ct) +:+ " from the targetDB") ;;;
      ret None
  | None =>
      err <- onTarget (mssql.DropReferencedForeignKeys (table ct)) ;;
      match err with
      | Some _ =>
          fail ct ("Failed to drop foreign keys for table "
                     +:+ mssql.TableRef_String (table ct) +:+ " from the targetDB") ;;;
          ret None
      | None =>
          err <- onTarget (mssql.EmptyTable (table ct)) ;;
          match err with
          | Some _ =>
              fail ct ("Failed to empty target table "
                         +:+ mssql.TableRef_String (table ct)) ;;;
              ret None
          | None => ret (Some (fst r))
          end
      end
  end.

(** The [for row := range dataChan] loop of the writer over the rows the
    channel delivers before it is closed: [None] when the stage returns
    from inside the loop. *)
Fixpoint writerLoop (ct : CopyTask) (rows : list mssql.Row) (i : Z)
    (fks : list mssql.ForeingKeyConstraint) (bulkInsert : mssql.BulkInsert)
  : M World (option (list mssql.ForeingKeyConstraint * mssql.BulkInsert)) :=
  match rows with
  | [] => ret (Some (fks, bulkInsert))
  | row :: rest =>
      r <- (if Z.eqb i 0 then firstRowSetup ct else ret (Some fks)) ;;
      match r with
      | None => ret None
      | Some fks =>
          let i := wrap64 (i + 1) in
          r <- onTarget (mssql.Insert bulkInsert row) ;;
          match fst r with
          | Some e =>
              onTarget (mssql.Rollback (snd r)) ;;;
              fail ct ("Failed to insert row into the target table "
                         +:+ mssql.TableRef_String (table ct) +:+ ", " +:+ e) ;;;
              ret None
          | None =>
              send (monitor.ProgressUpdateEvent 1 (table ct)) ;;;
              writerLoop ct rest i fks (snd r)
          end
      end
  end.

(** The second goroutine of [CopyTask.Run]. *)
Definition writer (ct : CopyTask) (targetColumns : list string)
    (rows : list mssql.Row) : M World unit :=
  defer wg_Done (
    let bulkInsert := fst (mssql.DB_BulkInsert (table ct) targetColumns) in
    r <- writerLoop ct rows 0 [] bulkInsert ;;
    match r with
    | None => ret tt
    | Some (fks, bulkInsert) =>
        r <- onTarget (mssql.Commit bulkInsert) ;;
        match fst r with
        | Some e =>
            fail ct ("Failed to commit the transaction into target table "
                       +:+ mssql.TableRef_String (table ct) +:+ ", " +:+ e)
        | None =>
            if Nat.ltb 0 (length fks) then
              err <- onTarget (mssql.AddForeignKeys fks) ;;
              match err with
              | Some e =>
                  fail ct ("Failed to add foreign keys into target table "
                             +:+ mssql.TableRef_String (table ct) +:+ ", " +:+ e)
              | None => send (monitor.CopyTaskFinishedEvent (table ct))
              end
            else send (monitor.CopyTaskFinishedEvent (table ct))
        end
    end).

End copy.

(** ** Package [cli] *)

Module cli.

(** The [for chunkSize < len(items)] loop of [chunkBy], for a positive
    chunk size. *)
Equations? chunkLoop {T : Type} (chunkSize : Z) (H : 0 < chunkSize)
    (items : list T) (_chunks : list (list T)) : list (list T)
  by wf (length items) lt :=
  chunkLoop chunkSize H items _chunks
    with Z_lt_dec chunkSize (Z.of_nat (length items)) => {
    | left _ =>
        chunkLoop chunkSize H (skipn (Z.to_nat chunkSize) items)
          (_chunks ++ [firstn (Z.to_nat chunkSize) items]);
    | right _ => _chunks ++ [items] }.
Proof. rewrite length_skipn. lia. Qed.

(** [chunkBy]: [None] stands for a panic.  A zero chunk size divides by
    zero in the capacity computation; a negative one either gives [make] a
    negative capacity or makes the first slice expression of the loop go
    out of range. *)
Definition chunkBy {T : Type} (items : list T) (chunkSize : Z)
  : option (list (list T)) :=
  if Z.eqb chunkSize 0 then None
  else if Z.ltb (Z.quot (Z.of_nat (length items)) chunkSize + 1) 0 then None
  else match Z_lt_dec 0 chunkSize with
       | left H => Some (chunkLoop chunkSize H items [])
       | right _ => None
       end.

(** The scheduling loop of [Copy], as the sequence of what it does to the
    tasks: for each chunk, every task of the chunk is started in its own
    goroutine, then every task of the chunk is waited for. *)
Inductive SchedEvent (T : Type) : Type :=
| TaskStarted (task : T)
| TaskWaited (task : T).
Arguments TaskStarted {T} task.
Arguments TaskWaited {T} task.

Definition runChunk {T : Type} (chunk : list T) : list (SchedEvent T) :=
  map TaskStarted chunk ++ map TaskWaited chunk.

Fixpoint scheduleLoop {T : Type} (chunks : list (list T)) : list (SchedEvent T) :=
  match chunks with
  | [] => []
  | chunk :: rest => runChunk chunk ++ scheduleLoop rest
  end.

(** [for _, chunk := range chunkBy(tasks, parrallel) { ... }]. *)
Definition schedule {T : Type} (tasks : list T) (parrallel : Z)
  : option (list (SchedEvent T)) :=
  match chunkBy tasks parrallel with
  | Some chunks => Some (scheduleLoop chunks)
  | None => None
  end.

End cli.

(** * Vocabulary of the statements *)

(** Rendering of a parse result: the text on success, the error
    otherwise. *)
Definition rendered (r : mssql.filter + mssql.error) : string + mssql.error :=
  match r with
  | inl f => inl (mssql.filter_String f)
  | inr e => inr e
  end.

(** The calls an operation started in store [d] added to the driver's log. *)
Definition newCalls {A : Type} (d : mssql.DB) (o : Outcome mssql.DB A) : list mssql.Call :=
  skipn (length (mssql.calls d)) (mssql.calls (finalState o)).

(** A value that is a raw byte sequence, bare or behind pointers. *)
Fixpoint holdsBytes (v : mssql.Value) : bool :=
  match v with
  | mssql.VBytes _ => true
  | mssql.VPtr v' => holdsBytes v'
  | _ => false
  end.

(** The operations a caller can apply to a loader. *)
Inductive LoaderOp :=
| OpInsert (row : mssql.Row)
| OpCommit
| OpRollback.

Definition runOp (op : LoaderOp) (bi : mssql.BulkInsert)
  : M mssql.DB (option mssql.error * mssql.BulkInsert) :=
  match op with
  | OpInsert row => mssql.Insert bi row
  | OpCommit => mssql.Commit bi
  | OpRollback => err <- mssql.Rollback bi ;; ret (err, bi)
  end.

(** A history of operations, whatever each of them answers. *)
Fixpoint runOps (ops : list LoaderOp) (bi : mssql.BulkInsert)
  : M mssql.DB mssql.BulkInsert :=
  match ops with
  | [] => ret bi
  | op :: rest => r <- runOp op bi ;; runOps rest (snd r)
  end.

(** The loader's two handles go together: both nil, or a statement
    prepared in the transaction held. *)
Definition paired (bi : mssql.BulkInsert) : Prop :=
  match mssql.stmt bi, mssql.tx bi with
  | None, None => True
  | Some s, Some t => mssql.stmt_tx s = t
  | _, _ => False
  end.

(** [logs log P m]: whatever the start state, [m] only appends to the call
    log, and every call it appends satisfies [P]. *)
Definition logs {S A : Type} (log : S -> list mssql.Call) (P : mssql.Call -> Prop)
    (m : M S A) : Prop :=
  forall s, exists extra,
    log (finalState (m s)) = log s ++ extra /\ Forall P extra.

(** What [Insert] may hand to the statement for [row]. *)
Definition handsOver (row : mssql.Row) (c : mssql.Call) : Prop :=
  forall t r, c = mssql.StmtExecRow t r -> r = map mssql.coerce row.

Fixpoint noInsert (ops : list LoaderOp) : bool :=
  match ops with
  | [] => true
  | OpInsert _ :: _ => false
  | _ :: rest => noInsert rest
  end.

(** Concrete data for the examples. *)
Definition exampleTable : mssql.TableRef :=
  {| mssql.Schema := "dbo"; mssql.Table := "test" |}.

Definition emptyStore : mssql.DB :=
  {| mssql.script := []; mssql.calls := []; mssql.tables := ∅;
     mssql.foreignKeys := []; mssql.nextTx := 0; mssql.openTxs := [] |}.

Definition noActiveTransaction : mssql.error := "no active transaction to rollback".

(** The table an event is about. *)
Definition eventTable (e : monitor.Event) : option mssql.TableRef :=
  match e with
  | monitor.ProgressUpdateEvent _ t => Some t
  | monitor.CopyTaskStartedEvent t => Some t
  | monitor.CopyTaskFinishedEvent t => Some t
  | monitor.CountUpdateEvent _ t => Some t
  | monitor.ErrorEvent t _ => Some t
  | monitor.OtherEvent => None
  end.

(** Progress-update, row-count-update, task-finished and task-error
    events. *)
Definition needsReporter (e : monitor.Event) : bool :=
  match e with
  | monitor.ProgressUpdateEvent _ _ => true
  | monitor.CountUpdateEvent _ _ => true
  | monitor.CopyTaskFinishedEvent _ => true
  | monitor.ErrorEvent _ _ => true
  | _ => false
  end.

(** The map keys of the tables for which the inputs hold a task-started
    event. *)
Fixpoint startedKeys (inputs : list monitor.Select) : list string :=
  match inputs with
  | [] => []
  | monitor.Receive (monitor.CopyTaskStartedEvent t) :: rest =>
      mssql.TableRef_String t :: startedKeys rest
  | _ :: rest => startedKeys rest
  end.

(** [preserves f m]: [m] leaves the component [f] of the state as it is. *)
Definition preserves {S A X : Type} (f : S -> X) (m : M S A) : Prop :=
  forall s, f (finalState (m s)) = f s.

(** Two schema mappings on which [compareSchemas] answers differently in
    the two directions: the first gives column a the empty type name. *)
Definition schemaA : gmap string string := <["a" := EmptyString]> (<["b" := "int"]> ∅).
Definition schemaB : gmap string string := <["b" := "int"]> (<["c" := "x"]> ∅).

(** A list of chunks of size [k]: all full but possibly the last. *)
Definition chunked {T : Type} (k : nat) (chunks : list (list T)) : Prop :=
  exists init last,
    chunks = init ++ [last]
    /\ Forall (fun c => length c = k) init
    /\ (length last <= k)%nat.

(** The destructive setup of the target table: looking up the foreign keys
    that reference it, dropping one of them, truncating it. *)
Definition isSetupCall (c : mssql.Call) : bool :=
  match c with
  | mssql.QueryReferencedForeignKeys _ => true
  | mssql.ExecDropConstraint _ => true
  | mssql.ExecTruncate _ => true
  | _ => false
  end.

(** [logs2 log P Q m]: [m] appends calls satisfying [P] and, after them,
    calls satisfying [Q]. *)
Definition logs2 {S A : Type} (log : S -> list mssql.Call)
    (P Q : mssql.Call -> Prop) (m : M S A) : Prop :=
  forall s, exists e1 e2,
    log (finalState (m s)) = log s ++ e1 ++ e2 /\ Forall P e1 /\ Forall Q e2.

(** The call log of the target store of a writer. *)
Definition targetCalls (v : copy.World) : list mssql.Call :=
  mssql.calls (copy.targetDB v).

Definition setupCall (c : mssql.Call) : Prop := isSetupCall c = true.
Definition loaderCall (c : mssql.Call) : Prop := isSetupCall c = false.

(** Rows inserted one after the other, stopping at the first failure. *)
Fixpoint insertAll (rows : list mssql.Row) (bi : mssql.BulkInsert)
  : M mssql.DB (option mssql.error * mssql.BulkInsert) :=
  match rows with
  | [] => ret (None, bi)
  | row :: rest =>
      r <- mssql.Insert bi row ;;
      match fst r with
      | Some e => ret (Some e, snd r)
      | None => insertAll rest (snd r)
      end
  end.

(** The loader and the open transactions of its store: there is at most
    one open transaction, and it is the one the loader's handles point
    to.  (The store is the loader's own: every transaction in it was begun
    by the loader.) *)
Definition owns (bi : mssql.BulkInsert) (d : mssql.DB) : Prop :=
  match mssql.stmt bi, mssql.tx bi with
  | None, None => mssql.openTxs d = []
  | Some s, Some t =>
      mssql.stmt_tx s = t
      /\ (mssql.openTxs d = [] \/ exists b, mssql.openTxs d = [(t, b)])
  | _, _ => False
  end.


(** The rows accepted since the last commit sit in the buffer of the one
    open transaction; with none accepted the loader is in its initial
    state and no transaction is open. *)
Definition buffers (bi : mssql.BulkInsert) (d : mssql.DB) (pend : list mssql.Row) : Prop :=
  match pend with
  | [] => mssql.stmt bi = None /\ mssql.tx bi = None /\ mssql.openTxs d = []
  | _ => exists t,
           mssql.stmt bi = Some {| mssql.stmt_tx := t |} /\ mssql.tx bi = Some t
           /\ mssql.openTxs d = [(t, (mssql.tableName (mssql.table bi), pend))]
  end.

(** The committed rows of a table. *)
Definition rowsOf (tbl : mssql.TableRef) (d : mssql.DB) : list mssql.Row :=
  default [] (mssql.tables d !! mssql.tableName tbl).

(** A loader whose commit threshold is [c]. *)
Definition withCommitCount (c : Z) (bi : mssql.BulkInsert) : mssql.BulkInsert :=
  {| mssql.table := mssql.table bi; mssql.columns := mssql.columns bi;
     mssql.commitCount := c; mssql.count := mssql.count bi;
     mssql.stmt := mssql.stmt bi; mssql.tx := mssql.tx bi |}.

(** Atoms and connectors in alternation, starting with an atom. *)
Fixpoint interleave (atoms connectors : list string) : list string :=
  match atoms with
  | [] => []
  | a :: atoms' =>
      a :: match connectors with
           | [] => interleave atoms' []
           | c :: connectors' => c :: interleave atoms' connectors'
           end
  end.

(** The last of the pieces the input splits into on spaces is a connector
    token. *)
Definition endsInConnector (s : string) : bool :=
  match last (strings.Split s " ") with
  | Some t => mssql.isConnectorToken t
  | None => false
  end.

(** A string of [k] spaces. *)
Fixpoint spaces (k : nat) : string :=
  match k with
  | O => EmptyString
  | S k' => String " " (spaces k')
  end.

(** No space in the string. *)
Fixpoint spaceFree (s : string) : bool :=
  match s with
  | EmptyString => true
  | String c s' => negb (Ascii.eqb c " ") && spaceFree s'
  end.

(** What [parseLoop] takes for a connector. *)
Definition isOperatorPart (p : string) : bool :=
  String.eqb p "AND" || String.eqb p "OR".

(** The shape of the parts [splitExpressions] produces before the last
    one: expression candidates, none of them a connector, each followed by
    a connector. *)
Inductive alternating : list string -> Prop :=
| alternating_nil : alternating []
| alternating_cons c k rest :
    isOperatorPart c = false -> isOperatorPart k = true ->
    alternating rest -> alternating (c :: k :: rest).

(** The contents of [partBuilder] between rounds of [splitExpressions]: it
    is empty or ends in a space, and none of its pieces is a connector
    token. *)
Definition builderOK (b : string) : Prop :=
  (b = EmptyString \/ exists b0, b = b0 +:+ " ")
  /\ Forall (fun t => mssql.isConnectorToken t = false) (strings.Split b " ").

(** One or two bytes among the comparison signs. *)
Definition validOperator (op : string) : bool :=
  match op with
  | String a EmptyString => mssql.isOperatorByte a
  | String a (String b EmptyString) => mssql.isOperatorByte a && mssql.isOperatorByte b
  | _ => false
  end.

(** The string does not begin with a closing bracket. *)
Definition noBracketHead (x : string) : Prop :=
  match x with
  | EmptyString => True
  | String c _ => c <> "]"%char
  end.

(** Tasks started and not yet waited for, after a sequence of scheduler
    steps. *)
Fixpoint inFlight {T : Type} (trace : list (cli.SchedEvent T)) : Z :=
  match trace with
  | [] => 0
  | cli.TaskStarted _ :: rest => inFlight rest + 1
  | cli.TaskWaited _ :: rest => inFlight rest - 1
  end.

(** The tasks started, and the tasks waited for, in the order of the
    trace. *)
Fixpoint startedTasks {T : Type} (trace : list (cli.SchedEvent T)) : list T :=
  match trace with
  | [] => []
  | cli.TaskStarted t :: rest => t :: startedTasks rest
  | cli.TaskWaited _ :: rest => startedTasks rest
  end.

Fixpoint waitedTasks {T : Type} (trace : list (cli.SchedEvent T)) : list T :=
  match trace with
  | [] => []
  | cli.TaskStarted _ :: rest => waitedTasks rest
  | cli.TaskWaited t :: rest => t :: waitedTasks rest
  end.

(** [returns m]: [m] returns from every state; it never panics. *)
Definition returns {S A : Type} (m : M S A) : Prop :=
  forall s, exists a s', m s = Returns a s'.

(** The progress event the writer sends for each row inserted. *)
Definition rowCopied (ct : copy.CopyTask) : monitor.Event :=
  monitor.ProgressUpdateEvent 1 (copy.table ct).

(** Task-finished and task-error events of a copy task. *)
Definition terminalEvent (ct : copy.CopyTask) (e : monitor.Event) : Prop :=
  e = monitor.CopyTaskFinishedEvent (copy.table ct)
  \/ exists msg, e = monitor.ErrorEvent (copy.table ct) msg.

(** The re-creation of a foreign key. *)
Definition isAddCall (c : mssql.Call) : bool :=
  match c with
  | mssql.ExecAddConstraint _ => true
  | _ => false
  end.

Definition notAddCall (c : mssql.Call) : Prop := isAddCall c = false.

(** The keys of the reporters of a monitor, in the order of iteration. *)
Definition tableKeys (m : monitor.Monitor) : list string :=
  map fst (map_to_list (monitor.monitors m)).

(** The rendering order lists every table that has a reporter once, in
    ascending order. *)
Definition tracked (m : monitor.Monitor) : Prop :=
  Permutation (monitor.sortedTableKeys m) (tableKeys m)
  /\ Sorted (fun a b => String.leb a b = true) (monitor.sortedTableKeys m).

(** What [render] leaves alone. *)
Definition shape (m : monitor.Monitor)
  : bool * gmap string monitor.ProgressReporter * bool * list string :=
  (monitor.ci m, monitor.monitors m, monitor.tickerStopped m,
   monitor.sortedTableKeys m).

(** A table whose progress line is up to date in line-oriented mode. *)
Definition settled (m : monitor.Monitor) (key : string) : Prop :=
  forall r, monitor.monitors m !! key = Some r ->
    monitor.RowTotal r = 0
    \/ exists c, monitor.rowsCopied (monitor.lastRender m) !! key = Some c
                 /\ monitor.RowsCopied r <= c.

(** Every key of the list has a reporter. *)
Definition reported (m : monitor.Monitor) (keys : list string) : Prop :=
  Forall (fun k => is_Some (monitor.monitors m !! k)) keys.

(** Text in which the byte [q] occurs only in pairs. *)
Fixpoint doubled (q : ascii) (s : string) : bool :=
  match s with
  | EmptyString => true
  | String c s' =>
      if Ascii.eqb c q then
        match s' with
        | String c' s'' => Ascii.eqb c' q && doubled q s''
        | EmptyString => false
        end
      else doubled q s'
  end.

(** Schema lookups for a list of tables, one after the other, whatever
    each one returns. *)
Fixpoint lookups (ts : list mssql.TableRef) : M mssql.SchemaDB unit :=
  match ts with
  | [] => ret tt
  | t :: rest => mssql.GetSchemaDefinition t ;;; lookups rest
  end.

(** The cache has an entry for the table. *)
Definition cachedFor (d : mssql.SchemaDB) (t : mssql.TableRef) : Prop :=
  is_Some (mssql.schemaDefs d !! mssql.TableRef_String t).

(** A store with an empty cache whose server describes one column. *)
Definition exampleSchemaDB : mssql.SchemaDB :=
  {| mssql.schemaDefs := ∅; mssql.columnQueries := [];
     mssql.columnAnswers := [mssql.Columns [inl ("id", "int")]] |}.

(** A foreign key of table child that references the example table, and
    a store that holds it next to a key that references another table. *)
Definition exampleKey : mssql.ForeingKeyConstraint :=
  {| mssql.fk_Name := "fk_child_test"; mssql.fk_Schema := "dbo";
     mssql.fk_Table := "child"; mssql.fk_Column := "test_id";
     mssql.fk_ReferencedSchema := "dbo"; mssql.fk_ReferencedTable := "test";
     mssql.fk_ReferencedColumn := "id"; mssql.fk_NoCheck := "0" |}.

Definition otherKey : mssql.ForeingKeyConstraint :=
  {| mssql.fk_Name := "fk_child_owner"; mssql.fk_Schema := "dbo";
     mssql.fk_Table := "child"; mssql.fk_Column := "owner_id";
     mssql.fk_ReferencedSchema := "dbo"; mssql.fk_ReferencedTable := "owner";
     mssql.fk_ReferencedColumn := "id"; mssql.fk_NoCheck := "0" |}.

Definition keyedStore : mssql.DB :=
  mssql.setForeignKeys [exampleKey; otherKey] emptyStore.
(** * Properties *)

(** ** The filter parser on the inputs of the repository's tests *)

Section FilterExamples.
Import mssql.

(** C5: a single comparison parses and renders as one bracketed atom; the
    three-clause input parses and renders its three atoms in order with
    the connectors AND then OR between them, lower-case connectors coming
    out upper-cased; the empty input parses to the empty filter, which
    renders as the tautology. *)
Theorem parseFilter_renders_examples :
  rendered (parseFilter "column = 'value'") = inl "( [column] = 'value' )"
  /\ rendered (parseFilter
                 "column = 'value' AND column2 = 'value2' OR column3 = 'value3'")
     = inl "( [column] = 'value' ) AND ( [column2] = 'value2' ) OR ( [column3] = 'value3' )"
  /\ rendered (parseFilter
                 "column = 'value' and column2 = 'value2' or column3 = 'value3'")
     = inl "( [column] = 'value' ) AND ( [column2] = 'value2' ) OR ( [column3] = 'value3' )"
  /\ parseFilter EmptyString = inl filter_zero
  /\ rendered (parseFilter EmptyString) = inl "1=1".
Proof. repeat split; vm_compute; reflexivity. Qed.

(** The third input of the repository's tests: the right-hand side goes
    through as a quoted literal. *)
Example parseFilter_passes_value_through :
  rendered (parseFilter "column1 = ; DROP TABLE users --")
  = inl "( [column1] = '; DROP TABLE users --' )".
Proof. vm_compute. reflexivity. Qed.

(** A candidate without a comparison is rejected. *)
Example parseFilter_rejects_bare_word :
  exists e, parseFilter "column" = inr e.
Proof. eexists. vm_compute. reflexivity. Qed.

End FilterExamples.

(** ** Call logs through the monad *)

Section Logs.
Context {S : Type} (log : S -> list mssql.Call) (P : mssql.Call -> Prop).

Lemma logs_ret {A} (a : A) : logs log P (ret a).
Proof. intros s. exists []. simpl. rewrite app_nil_r. auto. Qed.

Lemma logs_panic {A} : logs log P (@panic S A).
Proof. intros s. exists []. simpl. rewrite app_nil_r. auto. Qed.

Lemma logs_get : logs log P (@get S).
Proof. intros s. exists []. simpl. rewrite app_nil_r. auto. Qed.

Lemma logs_modify (f : S -> S) :
  (forall s, log (f s) = log s) -> logs log P (modify f).
Proof. intros H s. exists []. simpl. rewrite H, app_nil_r. auto. Qed.

Lemma logs_bind {A B} (m : M S A) (k : A -> M S B) :
  logs log P m -> (forall a, logs log P (k a)) -> logs log P (bind m k).
Proof.
  intros Hm Hk s. unfold bind.
  destruct (Hm s) as (e1 & E1 & F1).
  destruct (m s) as [a s'|s']; simpl in *.
  - destruct (Hk a s') as (e2 & E2 & F2).
    exists (e1 ++ e2). rewrite E2, E1, app_assoc. split; auto.
    apply Forall_app; auto.
  - exists e1. auto.
Qed.

Lemma logs_weaken {A} (Q : mssql.Call -> Prop) (m : M S A) :
  (forall c, Q c -> P c) -> logs log Q m -> logs log P m.
Proof.
  intros HQ Hm s. destruct (Hm s) as (e & E & F).
  exists e. split; auto. eapply Forall_impl; eauto.
Qed.

End Logs.

Section Logs2.
Context {S : Type} (log : S -> list mssql.Call) (P Q : mssql.Call -> Prop).

Lemma logs2_second {A} (m : M S A) : logs log Q m -> logs2 log P Q m.
Proof.
  intros Hm s. destruct (Hm s) as (e & E & F). exists [], e. simpl. auto.
Qed.

Lemma logs2_bind {A B} (m : M S A) (k : A -> M S B) :
  logs log P m -> (forall a, logs log Q (k a)) -> logs2 log P Q (bind m k).
Proof.
  intros Hm Hk s. unfold bind.
  destruct (Hm s) as (e1 & E1 & F1).
  destruct (m s) as [a s'|s']; simpl in *.
  - destruct (Hk a s') as (e2 & E2 & F2).
    exists e1, e2. rewrite E2, E1, app_assoc. auto.
  - exists e1, []. rewrite app_nil_r. auto.
Qed.

Lemma logs2_then {A B} (m : M S A) (k : A -> M S B) :
  logs2 log P Q m -> (forall a, logs log Q (k a)) -> logs2 log P Q (bind m k).
Proof.
  intros Hm Hk s. unfold bind.
  destruct (Hm s) as (e1 & e2 & E1 & F1 & F2).
  destruct (m s) as [a s'|s']; simpl in *.
  - destruct (Hk a s') as (e3 & E3 & F3).
    exists e1, (e2 ++ e3). rewrite E3, E1, <- !app_assoc.
    split; [reflexivity|]. split; [exact F1|]. apply Forall_app; auto.
  - exists e1, e2. auto.
Qed.

End Logs2.

Lemma logs_driverCall (P : mssql.Call -> Prop) c :
  P c -> logs mssql.calls P (mssql.driverCall c).
Proof.
  intros Hc d. exists [c]. unfold mssql.driverCall.
  destruct (mssql.script d); simpl; auto.
Qed.

Lemma logs_onTarget {A} (P : mssql.Call -> Prop) (m : M mssql.DB A) :
  logs mssql.calls P m ->
  logs targetCalls P (copy.onTarget m).
Proof.
  intros Hm v. destruct (Hm (copy.targetDB v)) as (e & E & F).
  exists e. unfold copy.onTarget, zoom, targetCalls.
  destruct (m (copy.targetDB v)); simpl in *; auto.
Qed.

Lemma newCalls_logs {A} (P : mssql.Call -> Prop) (m : M mssql.DB A) d :
  logs mssql.calls P m -> Forall P (newCalls d (m d)).
Proof.
  intros Hm. destruct (Hm d) as (e & E & F). unfold newCalls.
  rewrite E, drop_app_length. exact F.
Qed.

(** Solves [logs] goals over the store by walking through the code. *)
Ltac logs_db :=
  repeat first
    [ apply logs_ret | apply logs_panic | apply logs_get
    | apply logs_modify; intros []; reflexivity
    | apply logs_driverCall
    | apply logs_bind; [| intros ? ]
    | match goal with
      | |- logs _ _ (match ?x with _ => _ end) => destruct x
      | |- logs _ _ (if ?x then _ else _) => destruct x
      | |- logs _ _ (let _ := _ in _) => cbv zeta
      end ].

(** ** The batched loader *)

Section Loader.
Import mssql.

Ltac run := unfold bind, ret, get, modify, panic in *; simpl in *.

Lemma driverCall_returns c d :
  exists o, driverCall c d
            = Returns o (setScript (tl (script d)) (setCalls (calls d ++ [c]) d)).
Proof.
  unfold driverCall. destruct d as [sc cs ts fks n txs]; simpl.
  destruct sc as [|o rest]; simpl; eauto.
Qed.

Lemma lookupTx_last t b l :
  exists b', lookupTx t (l ++ [(t, b)]) = Some b'.
Proof.
  induction l as [|[t' b0] l IH]; simpl.
  - rewrite Nat.eqb_refl. eauto.
  - destruct (Nat.eqb t t'); eauto.
Qed.

(** [getStmt] never panics and keeps the handles paired. *)
Lemma getStmt_paired bi d :
  paired bi ->
  exists r bi' d', getStmt bi d = Returns (r, bi') d'
                   /\ paired bi' /\ commitCount bi' = commitCount bi
                   /\ count bi' = count bi /\ table bi' = table bi
                   /\ match r with inl s => stmt bi' = Some s | inr _ => bi' = bi end.
Proof.
  intros Hp. unfold getStmt, paired in *.
  destruct (stmt bi) as [s|] eqn:Hs.
  - run. exists (inl s), bi, d. rewrite Hs. repeat split; auto.
  - unfold BeginTx. run.
    destruct (driverCall_returns DbBeginTx d) as [o ->].
    destruct o as [e|]; [exists (inr e), bi; eexists; rewrite Hs; eauto 10|].
    unfold Tx_Prepare. run.
    match goal with |- context [lookupTx ?t (?l ++ [(?t, ?b)])] =>
      destruct (lookupTx_last t b l) as [b' ->] end.
    match goal with |- context [driverCall ?c ?x] =>
      destruct (driverCall_returns c x) as [o ->] end.
    destruct o as [e|]; [exists (inr e), bi; eexists; rewrite Hs; eauto 10|].
    eexists (inl _), _, _. split; [reflexivity|]. simpl. repeat split; auto.
Qed.

Lemma Commit_logs P bi :
  (forall t, P (StmtExecFlush t)) -> (forall t, P (StmtClose t)) ->
  (forall t, P (TxCommit t)) -> logs calls P (Commit bi).
Proof.
  intros. unfold Commit, Stmt_Exec, Stmt_Close, Tx_Commit. logs_db; auto.
Qed.

Lemma getStmt_logs P bi :
  P DbBeginTx -> (forall t, P (TxPrepare t)) -> logs calls P (getStmt bi).
Proof.
  intros. unfold getStmt, BeginTx, Tx_Prepare. logs_db; auto.
Qed.

Lemma Insert_logs_handsOver bi row : logs calls (handsOver row) (Insert bi row).
Proof.
  unfold Insert, Stmt_ExecContext. cbv zeta.
  apply logs_bind; [apply getStmt_logs; intros; discriminate|].
  intros [[s|e] bi']; logs_db.
  - intros t r E. injection E as <- <-. reflexivity.
  - apply Commit_logs; intros; discriminate.
Qed.

Lemma Stmt_ExecContext_returns s row d :
  exists o d', Stmt_ExecContext s row d = Returns o d'.
Proof.
  unfold Stmt_ExecContext. run. destruct (lookupTx _ _); eauto.
  destruct (driverCall_returns (StmtExecRow (stmt_tx s) row) d) as [[e|] ->]; eauto.
Qed.

Lemma Stmt_Exec_returns s d : exists o d', Stmt_Exec s d = Returns o d'.
Proof.
  unfold Stmt_Exec. run. destruct (lookupTx _ _); eauto.
  destruct (driverCall_returns (StmtExecFlush (stmt_tx s)) d) as [o ->]; eauto.
Qed.

Lemma Stmt_Close_returns s d : exists o d', Stmt_Close s d = Returns o d'.
Proof.
  unfold Stmt_Close.
  destruct (driverCall_returns (StmtClose (stmt_tx s)) d) as [o ->]; eauto.
Qed.

Lemma Tx_Commit_returns t d : exists o d', Tx_Commit t d = Returns o d'.
Proof.
  unfold Tx_Commit. run. destruct (lookupTx _ _) as [[tbl rows]|]; eauto.
  destruct (driverCall_returns (TxCommit t) d) as [[e|] ->]; eauto.
Qed.

Lemma Tx_Rollback_returns t d : exists o d', Tx_Rollback t d = Returns o d'.
Proof.
  unfold Tx_Rollback. run. destruct (lookupTx _ _); eauto.
  destruct (driverCall_returns (TxRollback t) d) as [o ->]; eauto.
Qed.

(** [Commit] on paired handles never panics; when it succeeds both
    handles are nil and the counter is zero or untouched. *)
Lemma Commit_paired bi d :
  paired bi ->
  exists r bi' d', Commit bi d = Returns (r, bi') d'
                   /\ paired bi' /\ commitCount bi' = commitCount bi
                   /\ table bi' = table bi
                   /\ (r = None -> stmt bi' = None /\ tx bi' = None).
Proof.
  intros Hp. unfold Commit, paired in *.
  destruct (stmt bi) as [s|] eqn:Hs, (tx bi) as [t|] eqn:Ht; try contradiction.
  - run.
    destruct (Stmt_Exec_returns s d) as ([e|] & d1 & ->).
    { exists (Some e), bi, d1. rewrite Hs, Ht. repeat split; auto; discriminate. }
    destruct (Stmt_Close_returns s d1) as ([e|] & d2 & ->).
    { exists (Some e), bi, d2. rewrite Hs, Ht. repeat split; auto; discriminate. }
    destruct (Tx_Commit_returns t d2) as ([e|] & d3 & ->).
    { exists (Some e), bi, d3. rewrite Hs, Ht. repeat split; auto; discriminate. }
    eexists None, _, d3. split; [reflexivity|]. simpl. repeat split; auto.
  - run. exists None, bi, d. rewrite Hs, Ht. repeat split; auto.
Qed.

Lemma Insert_paired bi row d :
  paired bi -> commitCount bi <> 0 ->
  exists r bi' d', Insert bi row d = Returns (r, bi') d'
                   /\ paired bi' /\ commitCount bi' = commitCount bi
                   /\ table bi' = table bi.
Proof.
  intros Hp Hc. unfold Insert. cbv zeta. unfold bind at 1.
  destruct (getStmt_paired bi d Hp) as (r & bi1 & d1 & -> & Hp1 & Hc1 & Hn1 & Ht1 & Hr).
  destruct r as [s|e].
  2:{ subst bi1. exists (Some e), bi, d1. auto. }
  unfold bind at 1.
  destruct (Stmt_ExecContext_returns s (map coerce row) d1) as ([e|] & d2 & ->).
  { exists (Some e), bi1, d2. unfold ret. repeat split; auto. }
  set (bi2 := setCount (wrap64 (count bi1 + 1)) bi1).
  change (commitCount bi2) with (commitCount bi1). rewrite Hc1.
  destruct (Z.eqb_spec (commitCount bi) 0) as [|_]; [contradiction|].
  assert (Hp2 : paired bi2) by exact Hp1.
  destruct (Z.eqb _ 0).
  - destruct (Commit_paired bi2 d2 Hp2) as (r & bi3 & d3 & -> & Hp3 & Hc3 & Ht3 & _).
    exists r, bi3, d3. repeat split; auto; simpl in *; congruence.
  - exists None, bi2, d2. unfold ret. repeat split; auto.
Qed.

Lemma Rollback_returns bi d : exists o d', Rollback bi d = Returns o d'.
Proof.
  unfold Rollback. destruct (tx bi) as [t|].
  - apply Tx_Rollback_returns.
  - unfold ret. eauto.
Qed.

(** No history of operations on a fresh loader panics, and the handles
    stay paired throughout. *)
Lemma runOps_paired ops : forall bi d,
  paired bi -> commitCount bi <> 0 ->
  exists bi' d', runOps ops bi d = Returns bi' d'
                 /\ paired bi' /\ commitCount bi' = commitCount bi.
Proof.
  induction ops as [|op ops IH]; intros bi d Hp Hc; simpl.
  - exists bi, d. auto.
  - unfold bind at 1.
    assert (exists r bi1 d1, runOp op bi d = Returns (r, bi1) d1
                             /\ paired bi1 /\ commitCount bi1 = commitCount bi)
      as (r & bi1 & d1 & -> & Hp1 & Hc1).
    { destruct op as [row| |]; simpl.
      - destruct (Insert_paired bi row d Hp Hc) as (r & bi1 & d1 & E & ? & ? & ?); eauto 10.
      - destruct (Commit_paired bi d Hp) as (r & bi1 & d1 & E & ? & ? & ?); eauto 10.
      - unfold bind. destruct (Rollback_returns bi d) as (o & d1 & ->).
        unfold ret. eauto 10. }
    simpl. destruct (IH bi1 d1 Hp1) as (bi' & d' & E & ? & ?); [congruence|].
    exists bi', d'. repeat split; auto; congruence.
Qed.

Lemma runOps_noInsert ops : forall bi d,
  noInsert ops = true -> stmt bi = None -> tx bi = None ->
  runOps ops bi d = Returns bi d.
Proof.
  induction ops as [|op ops IH]; intros bi d Hn Hs Ht; simpl; [reflexivity|].
  destruct op as [row| |]; simpl in Hn; [discriminate| |].
  - simpl. unfold bind, Commit. rewrite Hs. simpl. auto.
  - simpl. unfold bind, Rollback. rewrite Ht. simpl. auto.
Qed.

(** C9: [Rollback] on a loader without an open transaction returns the
    error "no active transaction to rollback" and leaves the store as it
    is; it does not panic.  This is the case for a loader on which no
    [Insert] was called since it was built, and for a loader on which no
    [Insert] was called since a [Commit] that succeeded, whatever was
    called on it before. *)
Theorem Rollback_without_transaction :
  (forall tbl cols ops d bi' d',
      noInsert ops = true ->
      runOps ops (NewBulkInsert tbl cols) d = Returns bi' d' ->
      Rollback bi' d' = Returns (Some noActiveTransaction) d')
  /\ (forall tbl cols ops1 ops2 d bi1 d1 bi2 d2 bi3 d3,
         runOps ops1 (NewBulkInsert tbl cols) d = Returns bi1 d1 ->
         Commit bi1 d1 = Returns (None, bi2) d2 ->
         noInsert ops2 = true ->
         runOps ops2 bi2 d2 = Returns bi3 d3 ->
         Rollback bi3 d3 = Returns (Some noActiveTransaction) d3).
Proof.
  split.
  - intros tbl cols ops d bi' d' Hn E.
    rewrite runOps_noInsert in E by auto. injection E as <- <-. reflexivity.
  - intros tbl cols ops1 ops2 d bi1 d1 bi2 d2 bi3 d3 E1 EC Hn E2.
    destruct (runOps_paired ops1 (NewBulkInsert tbl cols) d) as (b & d0 & E & Hp & _);
      [exact I | discriminate |].
    rewrite E in E1. injection E1 as -> ->.
    destruct (Commit_paired bi1 d1 Hp) as (r & b' & d'' & E' & _ & _ & _ & Hnil).
    rewrite E' in EC. injection EC as -> -> ->.
    destruct (Hnil eq_refl) as [Hs Ht].
    rewrite runOps_noInsert in E2 by auto. injection E2 as <- <-.
    unfold Rollback. rewrite Ht. reflexivity.
Qed.

Lemma Rollback_without_transaction_witness :
  runOps [OpInsert [VInt 1]] (NewBulkInsert exampleTable ["a"]) emptyStore
  = Returns (setCount 1 (setStmtTx (Some {| stmt_tx := 0 |}) (Some 0%nat)
                           (NewBulkInsert exampleTable ["a"])))
      (finalState (runOps [OpInsert [VInt 1]] (NewBulkInsert exampleTable ["a"]) emptyStore))
  /\ Rollback (NewBulkInsert exampleTable ["a"])
       (finalState (Commit (setCount 1 (setStmtTx (Some {| stmt_tx := 0 |}) (Some 0%nat)
                           (NewBulkInsert exampleTable ["a"])))
          (finalState (runOps [OpInsert [VInt 1]] (NewBulkInsert exampleTable ["a"]) emptyStore))))
     = Returns (Some noActiveTransaction)
        (finalState (Commit (setCount 1 (setStmtTx (Some {| stmt_tx := 0 |}) (Some 0%nat)
                           (NewBulkInsert exampleTable ["a"])))
          (finalState (runOps [OpInsert [VInt 1]] (NewBulkInsert exampleTable ["a"]) emptyStore)))).
Proof.
  split; [vm_compute; reflexivity|].
  eapply (proj2 Rollback_without_transaction exampleTable ["a"]
            [OpInsert [VInt 1]] [OpCommit; OpRollback] emptyStore).
  - vm_compute. reflexivity.
  - vm_compute. reflexivity.
  - reflexivity.
  - vm_compute. reflexivity.
Defined.

Lemma coerce_lookup (row : Row) i v :
  row !! i = Some v -> map coerce row !! i = Some (coerce v).
Proof.
  revert i. induction row as [|x row IH]; intros [|i] H; simpl in *;
    try discriminate.
  - injection H as ->. reflexivity.
  - apply IH, H.
Qed.

(** C4, as the code has it: the row [Insert] hands to the bulk-load
    statement is the given row with every value that is a pointer to an
    interface holding a byte slice replaced by the string of those bytes;
    every other value, a bare byte slice included, is handed over as it
    is. *)
Theorem Insert_coerces_pointer_wrapped_bytes bi row d t r :
  In (StmtExecRow t r) (newCalls d (Insert bi row d)) ->
  r = map coerce row
  /\ length r = length row
  /\ (forall i b, row !! i = Some (VPtr (VBytes b)) ->
                  r !! i = Some (VString (string_of_list_byte b)))
  /\ (forall i v, row !! i = Some v -> (forall b, v <> VPtr (VBytes b)) ->
                  r !! i = Some v).
Proof.
  intros Hin.
  pose proof (newCalls_logs _ _ d (Insert_logs_handsOver bi row)) as F.
  rewrite Forall_forall in F. apply list_elem_of_In in Hin.
  specialize (F _ Hin t r eq_refl). subst r.
  split; [reflexivity|]. split; [apply length_map|]. split.
  - intros i b Hi. apply (coerce_lookup _ _ _ Hi).
  - intros i v Hi Hv. etransitivity; [exact (coerce_lookup _ _ _ Hi)|]. f_equal.
    destruct v as [| | | |[| | | |]]; try reflexivity.
    exfalso. eapply Hv. reflexivity.
Qed.

Lemma Insert_coerces_pointer_wrapped_bytes_witness :
  In (StmtExecRow 0 [VString "1"; VInt 7; VBytes [Byte.x32]])
     (newCalls emptyStore
        (Insert (NewBulkInsert exampleTable ["a"; "b"; "c"])
           [VPtr (VBytes [Byte.x31]); VInt 7; VBytes [Byte.x32]] emptyStore))
  /\ [VString "1"; VInt 7; VBytes [Byte.x32]]
     = map coerce [VPtr (VBytes [Byte.x31]); VInt 7; VBytes [Byte.x32]].
Proof.
  split.
  - vm_compute. right. right. left. reflexivity.
  - apply (Insert_coerces_pointer_wrapped_bytes
             (NewBulkInsert exampleTable ["a"; "b"; "c"])
             [VPtr (VBytes [Byte.x31]); VInt 7; VBytes [Byte.x32]] emptyStore 0%nat).
    vm_compute. right. right. left. reflexivity.
Defined.

(** C4 as stated fails: a byte slice that sits in the row bare, not
    behind a pointer, reaches the statement as a byte slice. *)
Lemma Insert_keeps_bare_bytes :
  ~ (forall bi row d t r,
        In (StmtExecRow t r) (newCalls d (Insert bi row d)) ->
        forall v, In v r -> holdsBytes v = false).
Proof.
  intros H.
  specialize (H (NewBulkInsert exampleTable ["a"]) [VBytes [Byte.x31]] emptyStore
                0%nat [VBytes [Byte.x31]]).
  assert (holdsBytes (VBytes [Byte.x31]) = false) as E.
  { apply H; [vm_compute; right; right; left; reflexivity | left; reflexivity]. }
  discriminate E.
Qed.

End Loader.

(** ** Frame conditions through the monad *)

Section Preserves.
Context {S X : Type} (f : S -> X).

Lemma preserves_ret {A} (a : A) : preserves f (ret a).
Proof. intros s. reflexivity. Qed.

Lemma preserves_panic {A} : preserves f (@panic S A).
Proof. intros s. reflexivity. Qed.

Lemma preserves_get : preserves f (@get S).
Proof. intros s. reflexivity. Qed.

Lemma preserves_modify (g : S -> S) :
  (forall s, f (g s) = f s) -> preserves f (modify g).
Proof. intros H s. simpl. apply H. Qed.

Lemma preserves_bind {A B} (m : M S A) (k : A -> M S B) :
  preserves f m -> (forall a, preserves f (k a)) -> preserves f (bind m k).
Proof.
  intros Hm Hk s. unfold bind. specialize (Hm s).
  destruct (m s) as [a s'|s']; simpl in *; [|exact Hm].
  rewrite Hk. exact Hm.
Qed.

End Preserves.

(** ** The progress monitor *)

Section Monitor.
Import monitor.

Lemma renderLines_monitors keys : preserves monitors (renderLines keys).
Proof.
  induction keys as [|key keys IH]; simpl; [apply preserves_ret|].
  apply preserves_bind; [apply preserves_get|]. intros m.
  destruct (monitors m !! key) as [r|]; [|apply preserves_panic].
  destruct (Z.eqb (RowTotal r) 0); [exact IH|].
  destruct (rowsCopied (lastRender m) !! key) as [lastCount|].
  - destruct (Z.ltb lastCount (RowsCopied r)); [|exact IH].
    repeat (apply preserves_bind; [apply preserves_modify; intros []; reflexivity|intros _]).
    exact IH.
  - repeat (apply preserves_bind; [apply preserves_modify; intros []; reflexivity|intros _]).
    exact IH.
Qed.

Lemma renderBars_monitors keys : forall output,
  preserves monitors (renderBars keys output).
Proof.
  induction keys as [|key keys IH]; intros output; simpl; [apply preserves_ret|].
  apply preserves_bind; [apply preserves_get|]. intros m.
  destruct (monitors m !! key) as [r|]; [|apply preserves_panic].
  destruct (err r); apply IH.
Qed.

Lemma clearLines_monitors n m :
  monitors (fold_right (fun (_ : nat) acc =>
                          w_Write [Text (esc +:+ "[1F" +:+ esc +:+ "[2K")] acc) m n)
  = monitors m.
Proof. induction n as [|x n IH]; simpl; auto. Qed.

Lemma render_monitors : preserves monitors render.
Proof.
  unfold render. apply preserves_bind; [apply preserves_get|]. intros m.
  destruct (ci m); [apply renderLines_monitors|].
  apply preserves_bind.
  { apply preserves_modify. intros s. apply clearLines_monitors. }
  intros _. apply preserves_bind; [apply renderBars_monitors|]. intros output.
  apply preserves_bind; apply preserves_modify || intros _.
  - intros []; reflexivity.
  - apply preserves_modify. intros []; reflexivity.
Qed.

(** [Run] on inputs put end to end: the second part is reached only while
    the loop is still waiting. *)
Lemma Run_app pre rest : forall m,
  Run (pre ++ rest) m
  = match Run pre m with
    | Returns Waiting m' => Run rest m'
    | o => o
    end.
Proof.
  induction pre as [|i pre IH]; intros m; simpl; [reflexivity|].
  destruct i as [|event|]; unfold bind.
  - destruct (render m); reflexivity.
  - destruct (handleEvent event m) as [[e|] m1|m1]; try reflexivity. apply IH.
  - destruct (render m) as [[] m1|m1]; [apply IH|reflexivity].
Qed.

Lemma finishIfIdle_continues m m1 :
  finishIfIdle m = Returns None m1 -> m1 = m.
Proof.
  unfold finishIfIdle, bind, get. destruct (anyRunning (monitors m)).
  - unfold ret. congruence.
  - unfold modify. destruct (render _); discriminate.
Qed.

Lemma insert_existing (ms : gmap string ProgressReporter) key r r' :
  ms !! key = Some r ->
  (forall k, is_Some (ms !! k) -> is_Some (<[key := r']> ms !! k))
  /\ (forall k, ms !! k = None -> <[key := r']> ms !! k = None).
Proof.
  intros Hk. split; intros k Hs.
  - destruct (decide (key = k)) as [<-|Hne];
      [rewrite lookup_insert_eq; eauto | rewrite lookup_insert_ne; auto].
  - destruct (decide (key = k)) as [<-|Hne];
      [congruence | rewrite lookup_insert_ne; auto].
Qed.

(** One event that lets the loop go on: reporters are only ever added, and
    only by a task-started event, under the key of its table. *)
Lemma handleEvent_continues event m m1 :
  handleEvent event m = Returns None m1 ->
  (forall k, is_Some (monitors m !! k) -> is_Some (monitors m1 !! k))
  /\ (forall k, monitors m !! k = None ->
                ~ In k (startedKeys [Receive event]) -> monitors m1 !! k = None)
  /\ (forall t, event = CopyTaskStartedEvent t ->
                is_Some (monitors m1 !! mssql.TableRef_String t)).
Proof.
  intros H. unfold handleEvent, bind, get in H.
  destruct event as [n t|t|t|n t|t e|];
    try (destruct (monitors m !! mssql.TableRef_String t) as [r|] eqn:Hk;
         [|discriminate H]);
    unfold modify, ret in H; simpl in H.
  - injection H as <-. simpl.
    destruct (insert_existing _ _ _ (Update r n) Hk) as [H1 H2].
    split; [|split]; auto; discriminate.
  - destruct (monitors m !! mssql.TableRef_String t) as [r|] eqn:Hk; [discriminate H|].
    injection H as <-. simpl. split; [|split].
    + intros k Hs. destruct (decide (mssql.TableRef_String t = k)) as [<-|Hne];
        [rewrite lookup_insert_eq; eauto | rewrite lookup_insert_ne; auto].
    + intros k Hn Hin. rewrite lookup_insert_ne; [exact Hn|].
      intros E. apply Hin. left. exact E.
    + intros t' E. injection E as <-. rewrite lookup_insert_eq. eauto.
  - apply finishIfIdle_continues in H. subst m1. simpl.
    destruct (insert_existing _ _ _ (setDone r) Hk) as [H1 H2].
    split; [|split]; auto; discriminate.
  - injection H as <-. simpl.
    destruct (insert_existing _ _ _ (SetTotalRows r n) Hk) as [H1 H2].
    split; [|split]; auto; discriminate.
  - apply finishIfIdle_continues in H. subst m1. simpl.
    destruct (insert_existing _ _ _ (SetError r e) Hk) as [H1 H2].
    split; [|split]; auto; discriminate.
  - injection H as <-. split; [|split]; auto; discriminate.
Qed.

Lemma startedKeys_cons i pre k :
  ~ In k (startedKeys (i :: pre)) ->
  ~ In k (startedKeys [i]) /\ ~ In k (startedKeys pre).
Proof.
  destruct i as [|[n t|t|t|n t|t e|]|]; simpl; tauto.
Qed.

(** While the loop is waiting, a table has a reporter exactly when it had
    one at the start or a task-started event for it was received. *)
Lemma Run_waiting_keys pre : forall m m',
  Run pre m = Returns Waiting m' ->
  (forall k, is_Some (monitors m !! k) -> is_Some (monitors m' !! k))
  /\ (forall k, monitors m !! k = None -> ~ In k (startedKeys pre) ->
                monitors m' !! k = None).
Proof.
  induction pre as [|i pre IH]; intros m m' H; simpl in H.
  - injection H as <-. auto.
  - destruct i as [|event|]; unfold bind in H.
    + destruct (render m); discriminate.
    + destruct (handleEvent event m) as [[e|] m1|m1] eqn:Hh; try discriminate.
      destruct (handleEvent_continues _ _ _ Hh) as (K1 & K2 & _).
      destruct (IH _ _ H) as [I1 I2]. split.
      * auto.
      * intros k Hn Hin. apply startedKeys_cons in Hin as [Ha Hb]. auto.
    + pose proof (render_monitors m) as Hr.
      destruct (render m) as [[] m1|m1]; [|discriminate]. simpl in Hr.
      destruct (IH _ _ H) as [I1 I2]. rewrite Hr in *. split; auto.
Qed.

(** C7: when a progress-update, row-count-update, task-finished or
    task-error event arrives for a table that has no reporter (none at the
    start, and no task-started event for it among the inputs consumed so
    far), [Run] returns the error "no monitor found for table T" naming that
    table, and the monitor is left as it was before the event. *)
Theorem Run_rejects_event_without_reporter pre event t rest m m' :
  needsReporter event = true ->
  eventTable event = Some t ->
  monitors m !! mssql.TableRef_String t = None ->
  ~ In (mssql.TableRef_String t) (startedKeys pre) ->
  Run pre m = Returns Waiting m' ->
  Run (pre ++ Receive event :: rest) m
  = Returns (Returned (Some ("no monitor found for table " +:+ mssql.TableRef_String t))) m'.
Proof.
  intros Hneeds Ht Hnone Hpre Hrun.
  rewrite Run_app, Hrun.
  destruct (Run_waiting_keys _ _ _ Hrun) as [_ Hkeys].
  specialize (Hkeys _ Hnone Hpre).
  cbn [Run]. unfold handleEvent, bind, get.
  destruct event as [n t0|t0|t0|n t0|t0 e|]; try discriminate Hneeds;
    injection Ht as ->; rewrite Hkeys; reflexivity.
Qed.

Lemma Run_rejects_event_without_reporter_witness :
  Run ([Receive (CopyTaskStartedEvent exampleTable); Tick]
         ++ Receive (CountUpdateEvent 3 {| mssql.Schema := "dbo"; mssql.Table := "other" |})
         :: [Receive (CopyTaskFinishedEvent exampleTable)])
    (NewMonitor true)
  = Returns (Returned (Some "no monitor found for table [dbo].[other]"))
      (finalState (Run [Receive (CopyTaskStartedEvent exampleTable); Tick] (NewMonitor true))).
Proof.
  apply (Run_rejects_event_without_reporter
           [Receive (CopyTaskStartedEvent exampleTable); Tick]
           (CountUpdateEvent 3 {| mssql.Schema := "dbo"; mssql.Table := "other" |})
           {| mssql.Schema := "dbo"; mssql.Table := "other" |}).
  - reflexivity.
  - reflexivity.
  - reflexivity.
  - vm_compute. intros [H|[]]. discriminate H.
  - vm_compute. reflexivity.
Defined.

(** C10: a second task-started event for a table that already has a
    reporter makes [Run] return the error "monitor already exists for table
    T" naming that table; the monitor is left as it was before that event,
    so the duplicate is neither merged nor skipped. *)
Theorem Run_rejects_second_start pre1 pre2 rest t m m' :
  Run (pre1 ++ Receive (CopyTaskStartedEvent t) :: pre2) m = Returns Waiting m' ->
  Run ((pre1 ++ Receive (CopyTaskStartedEvent t) :: pre2)
         ++ Receive (CopyTaskStartedEvent t) :: rest) m
  = Returns (Returned (Some ("monitor already exists for table "
                               +:+ mssql.TableRef_String t))) m'.
Proof.
  intros Hrun. rewrite Run_app, Hrun.
  assert (is_Some (monitors m' !! mssql.TableRef_String t)) as [r Hr].
  { rewrite Run_app in Hrun.
    destruct (Run pre1 m) as [[e|] m1|m1] eqn:H1; try discriminate.
    simpl in Hrun. unfold bind in Hrun.
    destruct (handleEvent (CopyTaskStartedEvent t) m1) as [[e|] m2|m2] eqn:H2;
      try discriminate.
    destruct (handleEvent_continues _ _ _ H2) as (_ & _ & K).
    destruct (Run_waiting_keys _ _ _ Hrun) as [I _]. apply I, K. reflexivity. }
  cbn [Run]. unfold handleEvent, bind, get. rewrite Hr. reflexivity.
Qed.

(** The fixture of the repository's monitor test: after task-started
    events for dbo.test and dbo.test2 the keys are kept in byte order, the
    closing bracket sorting after the digit. *)
Example Run_two_started_sorted :
  sortedTableKeys
    (finalState (Run [Receive (CopyTaskStartedEvent exampleTable);
                      Receive (CopyTaskStartedEvent
                                 {| mssql.Schema := "dbo"; mssql.Table := "test2" |})]
                   (NewMonitor false)))
  = ["[dbo].[test2]"; "[dbo].[test]"].
Proof. vm_compute. reflexivity. Qed.

Lemma Run_rejects_second_start_witness :
  Run (([Tick] ++ Receive (CopyTaskStartedEvent exampleTable)
          :: [Receive (ProgressUpdateEvent 1 exampleTable)])
         ++ Receive (CopyTaskStartedEvent exampleTable) :: [CtxDone])
    (NewMonitor false)
  = Returns (Returned (Some "monitor already exists for table [dbo].[test]"))
      (finalState (Run ([Tick] ++ Receive (CopyTaskStartedEvent exampleTable)
                          :: [Receive (ProgressUpdateEvent 1 exampleTable)])
                     (NewMonitor false))).
Proof.
  apply (Run_rejects_second_start [Tick] [Receive (ProgressUpdateEvent 1 exampleTable)]
           [CtxDone] exampleTable (NewMonitor false)).
  vm_compute. reflexivity.
Defined.

End Monitor.

(** ** Schema comparison *)

Section Schemas.
Import copy.

Lemma compareLoop_true entries target :
  compareLoop entries target = true
  <-> Forall (fun kv => default EmptyString (target !! fst kv) = snd kv) entries.
Proof.
  induction entries as [|[c d] entries IH]; simpl.
  - split; auto.
  - destruct (String.eqb_spec (default EmptyString (target !! c)) d) as [E|E]; simpl.
    + rewrite IH. split; [intros F; constructor; auto | intros F; inversion F; auto].
    + split; [discriminate | intros F; inversion F; contradiction].
Qed.

(** The comparison does not depend on the order in which the iteration
    visits the source columns. *)
Lemma compareLoop_Permutation entries entries' target :
  entries ≡ₚ entries' -> compareLoop entries target = compareLoop entries' target.
Proof.
  intros HP. apply eq_true_iff_eq. rewrite !compareLoop_true.
  split; intros F; [rewrite <- HP | rewrite HP]; exact F.
Qed.

(** Mappings with different numbers of columns are never compatible. *)
Lemma compareSchemas_size (A B : gmap string string) :
  size A <> size B -> compareSchemas A B = false.
Proof.
  intros H. unfold compareSchemas.
  destruct (Nat.eqb_spec (size A) (size B)); [contradiction|reflexivity].
Qed.

(** When no source column has the empty type name, the comparison answers
    true exactly on equal mappings. *)
Lemma compareSchemas_true_eq (A B : gmap string string) :
  (forall c, A !! c <> Some EmptyString) ->
  compareSchemas A B = true <-> A = B.
Proof.
  intros HA. unfold compareSchemas. split.
  - destruct (Nat.eqb_spec (size A) (size B)) as [Hs|]; [simpl|discriminate].
    rewrite compareLoop_true, Forall_forall. intros F.
    apply map_subseteq_size_eq; [|lia].
    apply map_subseteq_spec. intros c d Hc.
    specialize (F (c, d)). simpl in F.
    rewrite elem_of_map_to_list in F. specialize (F Hc).
    destruct (B !! c) as [d'|]; simpl in F; [congruence|].
    subst d. exfalso. exact (HA c Hc).
  - intros <-. rewrite Nat.eqb_refl. simpl.
    rewrite compareLoop_true, Forall_forall. intros [c d] Hc. simpl.
    apply elem_of_map_to_list in Hc. rewrite Hc. reflexivity.
Qed.

Lemma compareSchemas_sym_nonempty (A B : gmap string string) :
  (forall c, A !! c <> Some EmptyString) ->
  (forall c, B !! c <> Some EmptyString) ->
  compareSchemas A B = compareSchemas B A.
Proof.
  intros HA HB. apply eq_true_iff_eq.
  rewrite (compareSchemas_true_eq A B HA), (compareSchemas_true_eq B A HB).
  split; congruence.
Qed.


End Schemas.

(** ** The chunking helper of the scheduler *)

Section Chunks.
Import cli.

Lemma chunkLoop_spec {T : Type} (chunkSize : Z) (H : 0 < chunkSize)
    (items : list T) (acc : list (list T)) :
  exists init last,
    chunkLoop chunkSize H items acc = acc ++ init ++ [last]
    /\ concat (init ++ [last]) = items
    /\ Forall (fun c => length c = Z.to_nat chunkSize) init
    /\ (length last <= Z.to_nat chunkSize)%nat.
Proof.
  funelim (chunkLoop chunkSize H items acc).
  - destruct H0 as (init & last & E & Hc & Hf & Hl).
    exists (take (Z.to_nat chunkSize) items :: init), last.
    split; [|split; [|split]].
    + rewrite E, <- app_assoc. reflexivity.
    + simpl. rewrite Hc. apply take_drop.
    + constructor; [|exact Hf]. rewrite length_take. lia.
    + exact Hl.
  - exists [], items. simpl. rewrite app_nil_r.
    split; [reflexivity|]. split; [reflexivity|]. split; [constructor|lia].
Qed.

(** C8: for a positive chunk size [chunkBy] returns, and the chunks it
    returns put end to end give back the list; every chunk but the last has
    exactly [chunkSize] elements and the last has between zero and
    [chunkSize]. *)
Theorem chunkBy_partitions {T : Type} (items : list T) (chunkSize : Z) :
  0 < chunkSize ->
  exists chunks,
    chunkBy items chunkSize = Some chunks
    /\ concat chunks = items
    /\ chunked (Z.to_nat chunkSize) chunks.
Proof.
  intros H. unfold chunkBy.
  destruct (Z.eqb_spec chunkSize 0) as [|_]; [lia|].
  destruct (Z.ltb_spec (Z.of_nat (length items) ÷ chunkSize + 1) 0) as [Hq|_].
  { pose proof (Z.quot_pos (Z.of_nat (length items)) chunkSize). lia. }
  destruct (Z_lt_dec 0 chunkSize) as [H'|]; [|contradiction].
  destruct (chunkLoop_spec chunkSize H' items []) as (init & last & E & Hc & Hf & Hl).
  exists (init ++ [last]). split; [rewrite E; reflexivity|].
  split; [exact Hc|]. exists init, last. auto.
Qed.

Lemma chunkBy_partitions_witness :
  0 < 2
  /\ exists chunks,
       chunkBy [1; 2; 3; 4; 5] 2 = Some chunks
       /\ concat chunks = [1; 2; 3; 4; 5]
       /\ chunked (Z.to_nat 2) chunks.
Proof. split; [lia|]. apply (chunkBy_partitions [1; 2; 3; 4; 5] 2). lia. Defined.

Example chunkBy_five_by_two :
  chunkBy [1; 2; 3; 4; 5] 2 = Some [[1; 2]; [3; 4]; [5]]
  /\ chunkBy [1; 2; 3; 4] 2 = Some [[1; 2]; [3; 4]]
  /\ chunkBy (@nil Z) 2 = Some [[]]
  /\ chunkBy [1] 0 = None.
Proof. repeat split; vm_compute; reflexivity. Qed.

End Chunks.
(** ** The batched loader: transactions and the commit threshold *)

Section LoaderTransactions.
Import mssql.

Lemma bind_Returns {S A B} (m : M S A) (k : A -> M S B) s b s' :
  bind m k s = Returns b s' ->
  exists a s1, m s = Returns a s1 /\ k a s1 = Returns b s'.
Proof. unfold bind. destruct (m s) as [a s1|s1]; [eauto|discriminate]. Qed.

Lemma driverCall_frame c d o d' :
  driverCall c d = Returns o d' ->
  openTxs d' = openTxs d /\ tables d' = tables d /\ nextTx d' = nextTx d.
Proof.
  unfold driverCall. destruct (script d); intros E; injection E as <- <-; auto.
Qed.

Ltac frame H :=
  let Ho := fresh "Ho" in let Ht := fresh "Ht" in let Hn := fresh "Hn" in
  apply driverCall_frame in H; destruct H as (Ho & Ht & Hn).

Lemma BeginTx_success d t d' :
  BeginTx d = Returns (inl t) d' ->
  openTxs d' = openTxs d ++ [(t, (EmptyString, []))] /\ tables d' = tables d.
Proof.
  unfold BeginTx. intros H. apply bind_Returns in H as ([e|] & d1 & H1 & H).
  { discriminate H. }
  frame H1. unfold bind, get, modify, ret in H. injection H as <- <-.
  simpl. rewrite Ho, Hn, Ht. auto.
Qed.

Lemma Tx_Prepare_success t tbl d s d' :
  Tx_Prepare t tbl d = Returns (inl s) d' ->
  s = {| stmt_tx := t |}
  /\ openTxs d' = setTxTable t tbl (openTxs d) /\ tables d' = tables d.
Proof.
  unfold Tx_Prepare, bind at 1, get. intros H.
  destruct (lookupTx t (openTxs d)); [|discriminate H].
  apply bind_Returns in H as ([e|] & d1 & H1 & H); [discriminate H|].
  frame H1. unfold bind, modify, ret in H. injection H as <- <-.
  simpl. rewrite Ho, Ht. auto.
Qed.

Lemma Stmt_ExecContext_success s row d d' :
  Stmt_ExecContext s row d = Returns None d' ->
  lookupTx (stmt_tx s) (openTxs d) <> None
  /\ openTxs d' = bufferRow (stmt_tx s) row (openTxs d) /\ tables d' = tables d.
Proof.
  unfold Stmt_ExecContext, bind at 1, get. intros H.
  destruct (lookupTx (stmt_tx s) (openTxs d)); [|discriminate H].
  apply bind_Returns in H as ([e|] & d1 & H1 & H); [discriminate H|].
  frame H1. unfold bind, modify, ret in H. injection H as <-.
  simpl. rewrite Ho, Ht. auto.
Qed.

Lemma Stmt_Exec_frame s d o d' :
  Stmt_Exec s d = Returns o d' ->
  openTxs d' = openTxs d /\ tables d' = tables d.
Proof.
  unfold Stmt_Exec, bind, get. intros H.
  destruct (lookupTx (stmt_tx s) (openTxs d)).
  - frame H. auto.
  - injection H as <- <-. auto.
Qed.

Lemma Stmt_Close_frame s d o d' :
  Stmt_Close s d = Returns o d' ->
  openTxs d' = openTxs d /\ tables d' = tables d.
Proof. unfold Stmt_Close. intros H. frame H. auto. Qed.

(** [tx.Commit()], whatever it answers. *)
Lemma Tx_Commit_any t d o d' :
  Tx_Commit t d = Returns o d' ->
  match lookupTx t (openTxs d) with
  | None => o = Some ErrTxDone /\ d' = d
  | Some (tbl, rows) =>
      openTxs d' = removeTx t (openTxs d)
      /\ (o = None -> tables d' = appendRows tbl rows (tables d))
  end.
Proof.
  unfold Tx_Commit, bind at 1, get. intros H.
  destruct (lookupTx t (openTxs d)) as [[tbl rows]|].
  - apply bind_Returns in H as (e & d1 & H1 & H). frame H1.
    unfold bind, modify, ret in H.
    destruct e as [e|]; injection H as <- <-; simpl; rewrite Ho, ?Ht;
      split; auto; discriminate.
  - injection H as <- <-. auto.
Qed.

Lemma Tx_Rollback_any t d o d' :
  Tx_Rollback t d = Returns o d' ->
  match lookupTx t (openTxs d) with
  | None => d' = d
  | Some _ => openTxs d' = removeTx t (openTxs d)
  end.
Proof.
  unfold Tx_Rollback, bind at 1, get. intros H.
  destruct (lookupTx t (openTxs d)).
  - apply bind_Returns in H as (e & d1 & H1 & H). frame H1.
    unfold bind, modify, ret in H. injection H as <- <-. simpl. rewrite Ho. auto.
  - injection H as <- <-. auto.
Qed.

Lemma lookupTx_single t b : lookupTx t [(t, b)] = Some b.
Proof. simpl. rewrite Nat.eqb_refl. reflexivity. Qed.

Lemma removeTx_single t b : removeTx t [(t, b)] = [].
Proof. simpl. rewrite Nat.eqb_refl. reflexivity. Qed.

(** [getStmt] when it succeeds under the invariant: the statement is the
    one held, or a fresh one in a fresh transaction that is then the only
    open one. *)
Lemma getStmt_success bi d s bi1 d1 :
  owns bi d ->
  getStmt bi d = Returns (inl s, bi1) d1 ->
  count bi1 = count bi /\ table bi1 = table bi /\ commitCount bi1 = commitCount bi
  /\ tables d1 = tables d
  /\ stmt bi1 = Some s /\ tx bi1 = Some (stmt_tx s)
  /\ ((stmt bi = None
       /\ openTxs d1 = [(stmt_tx s, (tableName (table bi), []))])
      \/ (stmt bi = Some s /\ openTxs d1 = openTxs d)).
Proof.
  unfold owns, getStmt. intros Ho H.
  destruct (stmt bi) as [s0|] eqn:Hs, (tx bi) as [t0|] eqn:Ht; try contradiction.
  - injection H as <- <- <-. destruct Ho as [<- _]. rewrite Hs, Ht. auto 10.
  - apply bind_Returns in H as ([t|e] & d2 & H1 & H); [|discriminate H].
    apply BeginTx_success in H1 as [Ho1 Ht1].
    apply bind_Returns in H as ([s1|e] & d3 & H2 & H); [|discriminate H].
    apply Tx_Prepare_success in H2 as (-> & Ho2 & Ht2).
    injection H as <- <- <-. simpl.
    rewrite Ho2, Ho1, Ho, Ht2, Ht1. simpl. rewrite Nat.eqb_refl. auto 10.
Qed.

(** [Commit], whatever it answers, keeps the invariant on the handles. *)
Lemma Commit_owns bi d r bi' d' :
  owns bi d ->
  Commit bi d = Returns (r, bi') d' ->
  owns bi' d'
  /\ commitCount bi' = commitCount bi /\ table bi' = table bi
  /\ (count bi' = count bi \/ count bi' = 0).
Proof.
  unfold owns, Commit. intros Ho H.
  destruct (stmt bi) as [s|] eqn:Hs, (tx bi) as [t|] eqn:Ht; try contradiction.
  2:{ injection H as <- <- <-. rewrite Hs, Ht. auto. }
  destruct Ho as [Est Ho].
  apply bind_Returns in H as ([e|] & d1 & H1 & H);
    apply Stmt_Exec_frame in H1 as [Ho1 _].
  { injection H as <- <- <-. rewrite Hs, Ht, Ho1. auto. }
  apply bind_Returns in H as ([e|] & d2 & H2 & H);
    apply Stmt_Close_frame in H2 as [Ho2 _].
  { injection H as <- <- <-. rewrite Hs, Ht, Ho2, Ho1. auto. }
  apply bind_Returns in H as (o & d3 & H3 & H).
  apply Tx_Commit_any in H3. rewrite Ho2, Ho1 in H3.
  assert (openTxs d3 = []) as Hd3.
  { destruct Ho as [Ho|[b Ho]]; rewrite Ho in H3.
    - simpl in H3. destruct H3 as [_ ->]. rewrite Ho2, Ho1. exact Ho.
    - rewrite lookupTx_single, removeTx_single in H3. destruct b. tauto. }
  destruct o as [e|]; injection H as <- <- <-; simpl; rewrite ?Hs, ?Ht; auto.
Qed.

(** [Commit] when it succeeds: nothing to do, or the only open transaction
    is closed and its rows reach the table. *)
Lemma Commit_success bi d bi' d' :
  owns bi d ->
  Commit bi d = Returns (None, bi') d' ->
  (stmt bi = None /\ bi' = bi /\ d' = d)
  \/ (exists t tbl rows,
         stmt bi = Some {| stmt_tx := t |}
         /\ openTxs d = [(t, (tbl, rows))]
         /\ openTxs d' = []
         /\ tables d' = appendRows tbl rows (tables d)
         /\ bi' = setStmtTx None None (setCount 0 bi)).
Proof.
  unfold owns, Commit. intros Ho H.
  destruct (stmt bi) as [[ts]|] eqn:Hs, (tx bi) as [t|] eqn:Ht; try contradiction.
  2:{ injection H as <- <-. auto. }
  destruct Ho as [Est Ho]. simpl in Est. subst ts. right.
  apply bind_Returns in H as ([e|] & d1 & H1 & H); [discriminate H|].
  assert (lookupTx t (openTxs d) <> None) as Hopen.
  { unfold Stmt_Exec, bind, get in H1. simpl in H1.
    destruct (lookupTx t (openTxs d)); [discriminate|].
    unfold ret in H1. discriminate H1. }
  apply Stmt_Exec_frame in H1 as [Ho1 Ht1].
  apply bind_Returns in H as ([e|] & d2 & H2 & H); [discriminate H|].
  apply Stmt_Close_frame in H2 as [Ho2 Ht2].
  apply bind_Returns in H as ([e|] & d3 & H3 & H); [discriminate H|].
  apply Tx_Commit_any in H3. rewrite Ho2, Ho1 in H3.
  destruct Ho as [Ho|[[tbl rows] Ho]]; rewrite Ho in *; [contradiction Hopen; reflexivity|].
  rewrite lookupTx_single, removeTx_single in H3. destruct H3 as [Hd3 Htab].
  injection H as <- <-. exists t, tbl, rows.
  rewrite (Htab eq_refl), Ht2, Ht1. auto 10.
Qed.

(** [Insert] when it succeeds under the invariant: the coerced row joins
    the buffer of the one open transaction (opened now if there was none);
    when the counter reaches a multiple of the threshold the transaction is
    committed with its whole buffer and the loader is back to its initial
    state, counter at zero. *)
Lemma Insert_success bi row d bi' d' :
  owns bi d -> commitCount bi <> 0 ->
  Insert bi row d = Returns (None, bi') d' ->
  table bi' = table bi /\ commitCount bi' = commitCount bi
  /\ exists t tbl old,
      ((stmt bi = None /\ openTxs d = [] /\ tbl = tableName (table bi) /\ old = [])
       \/ (stmt bi = Some {| stmt_tx := t |} /\ openTxs d = [(t, (tbl, old))]))
      /\ if Z.eqb (Z.rem (wrap64 (count bi + 1)) (commitCount bi)) 0
         then count bi' = 0 /\ stmt bi' = None /\ tx bi' = None
              /\ openTxs d' = []
              /\ tables d' = appendRows tbl (old ++ [map coerce row]) (tables d)
         else count bi' = wrap64 (count bi + 1)
              /\ stmt bi' = Some {| stmt_tx := t |} /\ tx bi' = Some t
              /\ openTxs d' = [(t, (tbl, old ++ [map coerce row]))]
              /\ tables d' = tables d.
Proof.
  intros Ho Hc H. unfold Insert in H. cbv zeta in H.
  apply bind_Returns in H as ([[[t]|e] bi1] & d1 & H1 & H); [|discriminate H].
  pose proof Ho as Ho'. unfold owns in Ho'.
  apply (getStmt_success _ _ _ _ _ Ho) in H1
    as (Hn1 & Htb1 & Hc1 & Ht1 & Hs1 & Hx1 & Hcase). simpl in Hx1.
  apply bind_Returns in H as ([e|] & d2 & H2 & H); [discriminate H|].
  apply Stmt_ExecContext_success in H2 as (Hopen & Ho2 & Ht2). simpl in Hopen, Ho2.
  assert (exists tbl old,
             ((stmt bi = None /\ openTxs d = [] /\ tbl = tableName (table bi) /\ old = [])
              \/ (stmt bi = Some {| stmt_tx := t |} /\ openTxs d = [(t, (tbl, old))]))
             /\ openTxs d2 = [(t, (tbl, old ++ [map coerce row]))])
    as (tbl & old & Hshape & Hd2).
  { destruct Hcase as [[Hs Hd1]|[Hs Hd1]].
    - exists (tableName (table bi)), []. rewrite Hs in Ho'.
      destruct (tx bi); [contradiction|]. split; [left; auto|].
      rewrite Ho2, Hd1. simpl. rewrite Nat.eqb_refl. reflexivity.
    - rewrite Hs in Ho'. destruct (tx bi) as [t0|]; [|contradiction].
      destruct Ho' as [_ [Hd|[[tbl old] Hd]]]; rewrite Hd1, Hd in Hopen.
      + contradiction Hopen. reflexivity.
      + exists tbl, old. split.
        * right. split; [exact Hs|]. rewrite Hd. f_equal. f_equal.
          simpl in Hopen. destruct (Nat.eqb_spec t t0); congruence.
        * rewrite Ho2, Hd1, Hd. simpl in *.
          destruct (Nat.eqb_spec t t0) as [->|]; [reflexivity|congruence]. }
  set (bi2 := setCount (wrap64 (count bi1 + 1)) bi1) in *.
  change (commitCount bi2) with (commitCount bi1) in H.
  change (count bi2) with (wrap64 (count bi1 + 1)) in H.
  rewrite Hc1, Hn1 in H.
  destruct (Z.eqb_spec (commitCount bi) 0) as [|_]; [contradiction|].
  destruct (Z.eqb (Z.rem (wrap64 (count bi + 1)) (commitCount bi)) 0).
  - assert (owns bi2 d2) as Ho3.
    { unfold owns. change (stmt bi2) with (stmt bi1). change (tx bi2) with (tx bi1).
      rewrite Hs1, Hx1. simpl. eauto. }
    destruct (Commit_owns _ _ _ _ _ Ho3 H) as (_ & Hc3 & Htb3 & _).
    apply (Commit_success _ _ _ _ Ho3) in H
      as [(Hs & _)|(t' & tbl' & rows' & _ & Hd2' & Hd' & Htab & ->)].
    { change (stmt bi2) with (stmt bi1) in Hs. congruence. }
    rewrite Hd2 in Hd2'. injection Hd2' as <- <- <-.
    split; [simpl in *; congruence|]. split; [simpl in *; congruence|].
    exists t, tbl, old. split; [exact Hshape|]. simpl.
    rewrite Htab, Ht2, Ht1. auto.
  - injection H as <- <-. split; [exact Htb1|]. split; [exact Hc1|].
    exists t, tbl, old. split; [exact Hshape|].
    change (count bi2) with (wrap64 (count bi1 + 1)).
    change (stmt bi2) with (stmt bi1). change (tx bi2) with (tx bi1).
    rewrite Hn1, Ht2, Ht1. auto.
Qed.

Lemma wrap64_small z : - 2 ^ 63 <= z < 2 ^ 63 -> wrap64 z = z.
Proof.
  intros Hz. unfold wrap64. rewrite Z.mod_small; [lia|].
  change (2 ^ 64) with (2 * 2 ^ 63). lia.
Qed.

Lemma threshold_test n c :
  0 <= n < c -> c < 2 ^ 63 ->
  Z.eqb (Z.rem (wrap64 (n + 1)) c) 0 = Z.eqb (n + 1) c.
Proof.
  intros Hn Hc. rewrite wrap64_small by lia.
  rewrite Z.rem_mod_nonneg by lia.
  destruct (Z.eqb_spec (n + 1) c) as [->|Hne].
  - rewrite Z.mod_same by lia. reflexivity.
  - rewrite Z.mod_small by lia. apply Z.eqb_neq. lia.
Qed.

Lemma buffers_owns bi d pend : buffers bi d pend -> owns bi d.
Proof.
  unfold buffers, owns. destruct pend as [|r pend].
  - intros (-> & -> & H). exact H.
  - intros (t & -> & -> & H). simpl. eauto.
Qed.

Lemma rowsOf_appendRows tbl rows d d' :
  tables d' = appendRows (tableName tbl) rows (tables d) ->
  rowsOf tbl d' = rowsOf tbl d ++ rows.
Proof.
  unfold rowsOf, appendRows. intros ->. rewrite lookup_insert_eq. reflexivity.
Qed.

Lemma buffers_nonempty bi d pend :
  pend <> [] ->
  (exists t, stmt bi = Some {| stmt_tx := t |} /\ tx bi = Some t
             /\ openTxs d = [(t, (tableName (table bi), pend))]) ->
  buffers bi d pend.
Proof. destruct pend; [contradiction|auto]. Qed.

(** One accepted row, in terms of the buffer. *)
Lemma Insert_buffers bi row d pend bi' d' :
  0 < commitCount bi < 2 ^ 63 ->
  count bi = Z.of_nat (length pend) -> Z.of_nat (length pend) < commitCount bi ->
  buffers bi d pend ->
  Insert bi row d = Returns (None, bi') d' ->
  table bi' = table bi /\ commitCount bi' = commitCount bi
  /\ if Z.eqb (Z.of_nat (length pend) + 1) (commitCount bi)
     then count bi' = 0 /\ buffers bi' d' []
          /\ rowsOf (table bi) d' = rowsOf (table bi) d ++ pend ++ [map coerce row]
     else count bi' = Z.of_nat (length pend) + 1
          /\ buffers bi' d' (pend ++ [map coerce row])
          /\ rowsOf (table bi) d' = rowsOf (table bi) d.
Proof.
  intros Hc Hn Hlt Hb H.
  apply (Insert_success _ _ _ _ _ (buffers_owns _ _ _ Hb)) in H
    as (Htb & Hcc & t & tbl & old & Hshape & Hres); [|lia].
  split; [exact Htb|]. split; [exact Hcc|].
  assert (tbl = tableName (table bi) /\ old = pend) as [-> ->].
  { unfold buffers in Hb. destruct pend as [|r pend].
    - destruct Hb as (Hs & _ & Hd).
      destruct Hshape as [(_ & _ & -> & ->)|(Hs' & _)]; [auto|congruence].
    - destruct Hb as (t0 & Hs & _ & Hd).
      destruct Hshape as [(Hs' & _)|(_ & Hd')]; [congruence|].
      rewrite Hd in Hd'. injection Hd' as <- <- <-. auto. }
  rewrite Hn, threshold_test in Hres by lia.
  destruct (Z.eqb (Z.of_nat (length pend) + 1) (commitCount bi)).
  - destruct Hres as (Hn' & Hs' & Hx' & Hd' & Htab).
    split; [exact Hn'|]. split; [unfold buffers; auto|].
    apply rowsOf_appendRows, Htab.
  - destruct Hres as (Hn' & Hs' & Hx' & Hd' & Htab).
    rewrite wrap64_small in Hn' by lia.
    split; [exact Hn'|]. split.
    + apply buffers_nonempty; [destruct pend; discriminate|].
      exists t. rewrite Htb. auto.
    + unfold rowsOf. rewrite Htab. reflexivity.
Qed.

(** A run of accepted rows: the rows split into a committed part, whose
    length is a multiple of the threshold, and the buffered rest. *)
Lemma insertAll_buffers rows : forall bi d pend bi' d',
  0 < commitCount bi < 2 ^ 63 ->
  count bi = Z.of_nat (length pend) -> Z.of_nat (length pend) < commitCount bi ->
  buffers bi d pend ->
  insertAll rows bi d = Returns (None, bi') d' ->
  exists com pend' k,
    pend ++ map (map coerce) rows = com ++ pend'
    /\ Z.of_nat (length com) = k * commitCount bi /\ 0 <= k
    /\ Z.of_nat (length pend') < commitCount bi
    /\ count bi' = Z.of_nat (length pend')
    /\ buffers bi' d' pend'
    /\ rowsOf (table bi) d' = rowsOf (table bi) d ++ com.
Proof.
  induction rows as [|row rows IH]; intros bi d pend bi' d' Hc Hn Hlt Hb H;
    simpl in H.
  - injection H as <- <-. exists [], pend, 0. simpl.
    rewrite !app_nil_r. repeat split; auto; lia.
  - apply bind_Returns in H as ([[e|] bi1] & d1 & H1 & H); [discriminate H|].
    simpl in H.
    apply (Insert_buffers _ _ _ _ _ _ Hc Hn Hlt Hb) in H1 as (Htb & Hcc & Hres).
    destruct (Z.eqb_spec (Z.of_nat (length pend) + 1) (commitCount bi)) as [Heq|Hne].
    + destruct Hres as (Hn1 & Hb1 & Hrows).
      destruct (IH bi1 d1 [] bi' d') as (com & pend' & k & E & Hk & Hk0 & Hlt' & Hn' & Hb' & Hr');
        auto; try (simpl; lia).
      exists (pend ++ map coerce row :: com), pend', (k + 1).
      rewrite Hcc, Htb in *. simpl in E.
      change (map (map coerce) (row :: rows))
        with (map coerce row :: map (map coerce) rows).
      rewrite E. repeat split; auto.
      * rewrite <- app_assoc. reflexivity.
      * rewrite length_app. simpl. lia.
      * lia.
      * rewrite Hr', Hrows, <- !app_assoc. reflexivity.
    + destruct Hres as (Hn1 & Hb1 & Hrows).
      destruct (IH bi1 d1 (pend ++ [map coerce row]) bi' d')
        as (com & pend' & k & E & Hk & Hk0 & Hlt' & Hn' & Hb' & Hr');
        auto; try (rewrite ?length_app; simpl; lia).
      exists com, pend', k. rewrite Hcc, Htb in *.
      change (map (map coerce) (row :: rows))
        with (map coerce row :: map (map coerce) rows).
      repeat split; auto.
      * rewrite <- E, <- app_assoc. reflexivity.
      * rewrite Hr', Hrows. reflexivity.
Qed.









(** The threshold at work on a loader whose threshold is set to two: the
    second and the fourth row each end a transaction, the fifth row waits
    in an open one. *)
Example commits_with_threshold_two :
  let o := insertAll [[VInt 1]; [VInt 2]; [VInt 3]; [VInt 4]; [VInt 5]]
             (withCommitCount 2 (NewBulkInsert exampleTable ["a"])) emptyStore in
  rowsOf exampleTable (finalState o) = [[VInt 1]; [VInt 2]; [VInt 3]; [VInt 4]]
  /\ openTxs (finalState o) = [(2%nat, ("dbo.test", [[VInt 5]]))]
  /\ List.filter (fun c => match c with TxCommit _ => true | _ => false end)
       (calls (finalState o)) = [TxCommit 0; TxCommit 1].
Proof. vm_compute. repeat split; reflexivity. Qed.

(** Outside the runs of successful inserts: when the statement cannot be
    prepared, [Insert] fails and the transaction just begun stays open
    although the loader holds no handle to it. *)
Example Insert_prepare_failure_leaves_transaction :
  let o := Insert (NewBulkInsert exampleTable ["a"]) [VInt 1]
             (setScript [None; Some "prepare failed"] emptyStore) in
  o = Returns (Some "prepare failed", NewBulkInsert exampleTable ["a"]) (finalState o)
  /\ openTxs (finalState o) = [(0%nat, (EmptyString, []))].
Proof. vm_compute. split; reflexivity. Qed.

End LoaderTransactions.

(** ** The writer stage of a copy task *)

Section Writer.
Import mssql copy.

Lemma dropLoop_logs fks : logs calls setupCall (dropLoop fks).
Proof.
  induction fks as [|fk fks IH]; simpl; [apply logs_ret|].
  unfold DropForeignKey. logs_db; try reflexivity. exact IH.
Qed.

Lemma AddForeignKeys_logs fks : logs calls loaderCall (AddForeignKeys fks).
Proof.
  induction fks as [|fk fks IH]; simpl; [apply logs_ret|].
  unfold AddForeignKey. logs_db; try reflexivity. exact IH.
Qed.

Lemma Insert_logs_loader bi row : logs calls loaderCall (Insert bi row).
Proof.
  unfold Insert, Stmt_ExecContext. cbv zeta.
  apply logs_bind; [apply getStmt_logs; intros; reflexivity|].
  intros [[s|e] bi']; logs_db; try reflexivity.
  apply Commit_logs; intros; reflexivity.
Qed.

Lemma Rollback_logs bi : logs calls loaderCall (Rollback bi).
Proof. unfold Rollback, Tx_Rollback. logs_db; reflexivity. Qed.

Lemma send_logs P e : logs targetCalls P (send e).
Proof. apply logs_modify. intros []; reflexivity. Qed.

Lemma firstRowSetup_logs ct : logs targetCalls setupCall (firstRowSetup ct).
Proof.
  unfold firstRowSetup, fail.
  apply logs_bind.
  { apply logs_onTarget. unfold GetReferencedForeignKeys. logs_db; reflexivity. }
  intros [fks [e|]]; simpl.
  { apply logs_bind; [apply send_logs|intros _; apply logs_ret]. }
  apply logs_bind.
  { apply logs_onTarget. unfold DropReferencedForeignKeys, GetReferencedForeignKeys.
    apply logs_bind; [logs_db; reflexivity|].
    intros [fks' [e|]]; simpl; [apply logs_ret|apply dropLoop_logs]. }
  intros [e|].
  { apply logs_bind; [apply send_logs|intros _; apply logs_ret]. }
  apply logs_bind.
  { apply logs_onTarget. unfold EmptyTable. logs_db; reflexivity. }
  intros [e|]; [|apply logs_ret].
  apply logs_bind; [apply send_logs|intros _; apply logs_ret].
Qed.

Lemma wrap64_succ k : wrap64 (wrap64 k + 1) = wrap64 (k + 1).
Proof.
  unfold wrap64. f_equal.
  replace ((k + 2 ^ 63) mod 2 ^ 64 - 2 ^ 63 + 1 + 2 ^ 63)
    with ((k + 2 ^ 63) mod 2 ^ 64 + 1) by lia.
  rewrite Zplus_mod_idemp_l. f_equal. lia.
Qed.

Lemma wrap64_nonzero k : 0 < k < 2 ^ 64 -> wrap64 k <> 0.
Proof.
  unfold wrap64. change (2 ^ 64) with 18446744073709551616.
  change (2 ^ 63) with 9223372036854775808. intros Hk E.
  pose proof (Z.mod_pos_bound (k + 9223372036854775808) 18446744073709551616 ltac:(lia)).
  pose proof (Z.div_mod (k + 9223372036854775808) 18446744073709551616 ltac:(lia)).
  nia.
Qed.

(** Rows after the first: the counter [i] is not zero again before it has
    gone round the whole range of [int], so nothing of the setup is run. *)
Lemma writerLoop_later ct rows : forall k fks bi,
  0 < k -> k + Z.of_nat (length rows) <= 2 ^ 64 ->
  logs targetCalls loaderCall (writerLoop ct rows (wrap64 k) fks bi).
Proof.
  induction rows as [|row rows IH]; intros k fks bi Hk Hlen; simpl writerLoop.
  - apply logs_ret.
  - simpl length in Hlen.
    destruct (Z.eqb_spec (wrap64 k) 0) as [E|_].
    { exfalso. apply (wrap64_nonzero k); [lia|exact E]. }
    apply logs_bind; [apply logs_ret|]. intros [fks'|]; [|apply logs_ret].
    apply logs_bind; [apply logs_onTarget, Insert_logs_loader|].
    intros [[e|] bi']; simpl.
    + apply logs_bind; [apply logs_onTarget, Rollback_logs|]. intros _.
      apply logs_bind; [apply send_logs|intros _; apply logs_ret].
    + apply logs_bind; [apply send_logs|]. intros _.
      rewrite wrap64_succ. apply IH; lia.
Qed.

Lemma writerLoop_first ct rows fks bi :
  Z.of_nat (length rows) <= 2 ^ 64 ->
  logs2 targetCalls setupCall loaderCall (writerLoop ct rows 0 fks bi).
Proof.
  intros Hlen. destruct rows as [|row rows]; simpl writerLoop.
  - apply logs2_second, logs_ret.
  - simpl length in Hlen. change (Z.eqb 0 0) with true. cbv iota.
    apply logs2_bind; [apply firstRowSetup_logs|].
    intros [fks'|]; [|apply logs_ret].
    apply logs_bind; [apply logs_onTarget, Insert_logs_loader|].
    intros [[e|] bi']; simpl.
    + apply logs_bind; [apply logs_onTarget, Rollback_logs|]. intros _.
      apply logs_bind; [apply send_logs|intros _; apply logs_ret].
    + apply logs_bind; [apply send_logs|]. intros _.
      change (wrap64 (0 + 1)) with (wrap64 1). apply writerLoop_later; lia.
Qed.

Lemma defer_logs2 {A} P Q (m : M World A) :
  logs2 targetCalls P Q m -> logs2 targetCalls P Q (defer wg_Done m).
Proof.
  intros Hm v. destruct (Hm v) as (e1 & e2 & E & F1 & F2).
  exists e1, e2. unfold defer. destruct (m v); simpl in *; auto.
Qed.

Lemma writer_logs2 ct cols rows :
  Z.of_nat (length rows) <= 2 ^ 64 ->
  logs2 targetCalls setupCall loaderCall (writer ct cols rows).
Proof.
  intros Hlen. unfold writer. apply defer_logs2. cbv zeta.
  apply logs2_then; [apply writerLoop_first, Hlen|].
  intros [[fks bi]|]; [|apply logs_ret].
  apply logs_bind.
  { apply logs_onTarget, Commit_logs; intros; reflexivity. }
  intros [[e|] bi']; simpl; unfold fail; [apply send_logs|].
  destruct (Nat.ltb 0 (length fks)); [|apply send_logs].
  apply logs_bind; [apply logs_onTarget, AddForeignKeys_logs|].
  intros [e|]; apply send_logs.
Qed.

(** C1: on a source that yields no row the writer makes no call on the
    target store at all, so no foreign-key lookup, no foreign-key drop and
    no truncation: the store, its rows and foreign keys included, is what
    it was, and the only effects are the task-finished event and the
    release of the wait group.  On any sequence of rows, the calls of the
    setup (lookup, drop, truncate) all come before every other call on the
    store, the first insert included: they are made on receipt of the first
    row and never again. *)
Theorem writer_setup_only_on_first_row :
  (forall ct cols v,
      writer ct cols [] v
      = Returns tt {| targetDB := targetDB v;
                      eventChan := eventChan v
                                     ++ [monitor.CopyTaskFinishedEvent (table ct)];
                      wg := wg v - 1 |})
  /\ (forall ct cols rows v,
         Z.of_nat (length rows) <= 2 ^ 64 ->
         exists setup rest,
           targetCalls (finalState (writer ct cols rows v))
           = targetCalls v ++ setup ++ rest
           /\ Forall (fun c => isSetupCall c = true) setup
           /\ Forall (fun c => isSetupCall c = false) rest
           /\ (rows = [] -> setup = [] /\ rest = [])).
Proof.
  assert (forall ct cols v,
      writer ct cols [] v
      = Returns tt {| targetDB := targetDB v;
                      eventChan := eventChan v
                                     ++ [monitor.CopyTaskFinishedEvent (table ct)];
                      wg := wg v - 1 |}) as Hempty.
  { intros ct cols [[sc cs ts fks n txs] ev g]. reflexivity. }
  split; [exact Hempty|].
  intros ct cols rows v Hlen. destruct rows as [|row rows].
  - exists [], []. rewrite Hempty. simpl. unfold targetCalls. simpl.
    rewrite app_nil_r. auto.
  - destruct (writer_logs2 ct cols (row :: rows) Hlen v) as (e1 & e2 & E & F1 & F2).
    exists e1, e2. repeat split; auto; discriminate.
Qed.

Lemma writer_setup_only_on_first_row_witness :
  Z.of_nat (length [[VInt 1]; [VInt 2]]) <= 2 ^ 64
  /\ exists setup rest,
       targetCalls (finalState
                      (writer {| table := exampleTable; queryFilter := EmptyString;
                                 errs := [] |} ["a"] [[VInt 1]; [VInt 2]]
                         {| targetDB := emptyStore; eventChan := []; wg := 2 |}))
       = targetCalls {| targetDB := emptyStore; eventChan := []; wg := 2 |}
           ++ setup ++ rest
       /\ Forall (fun c => isSetupCall c = true) setup
       /\ Forall (fun c => isSetupCall c = false) rest
       /\ ([[VInt 1]; [VInt 2]] = [] -> setup = [] /\ rest = []).
Proof.
  split; [vm_compute; discriminate|].
  apply (proj2 writer_setup_only_on_first_row). vm_compute. discriminate.
Defined.

End Writer.

(** ** The filter parser on arbitrary input *)

Section FilterShape.
Import strings mssql.
Local Arguments String.append : simpl nomatch.
Local Arguments expression_String : simpl never.

Lemma str_app_nil_r s : s +:+ EmptyString = s.
Proof. induction s as [|c s IH]; simpl; [reflexivity|]. rewrite IH. reflexivity. Qed.

Lemma str_app_assoc a b c : (a +:+ b) +:+ c = a +:+ (b +:+ c).
Proof. induction a as [|x a IH]; simpl; [reflexivity|]. rewrite IH. reflexivity. Qed.

Lemma Split_nonempty s sep : Split s sep <> [].
Proof.
  destruct s as [|c s]; simpl; [discriminate|].
  destruct (Ascii.eqb c sep); [discriminate|].
  destruct (Split s sep); discriminate.
Qed.

(** Splitting at a separator splits the pieces. *)
Lemma Split_app_sep a b :
  Split (a +:+ String " " b) " " = Split a " " ++ Split b " ".
Proof.
  induction a as [|c a IH]; simpl; [reflexivity|].
  destruct (Ascii.eqb c " "); rewrite IH; [reflexivity|].
  destruct (Split a " ") as [|p ps] eqn:E; [|reflexivity].
  exfalso. exact (Split_nonempty _ _ E).
Qed.

Lemma Split_spaceFree t : spaceFree t = true -> Split t " " = [t].
Proof.
  induction t as [|c t IH]; simpl; [reflexivity|].
  destruct (Ascii.eqb c " "); simpl; [discriminate|].
  intros H. rewrite (IH H). reflexivity.
Qed.

Lemma Split_pieces_spaceFree s : Forall (fun t => spaceFree t = true) (Split s " ").
Proof.
  induction s as [|c s IH]; simpl; [repeat constructor|].
  destruct (Ascii.eqb c " ") eqn:E; [constructor; [reflexivity|exact IH]|].
  destruct (Split s " ") as [|p ps]; [repeat constructor; simpl; rewrite E; reflexivity|].
  inversion IH; subst. constructor; [simpl; rewrite E; simpl; assumption|assumption].
Qed.

Lemma Split_spaces k : Split (spaces k) " " = replicate (S k) EmptyString.
Proof. induction k as [|k IH]; simpl; [reflexivity|]. rewrite IH. reflexivity. Qed.

Lemma Split_spaces_app k s :
  Split (spaces k +:+ s) " " = replicate k EmptyString ++ Split s " ".
Proof. induction k as [|k IH]; simpl; [reflexivity|]. rewrite IH. reflexivity. Qed.

Lemma Split_app_spaces s k :
  Split (s +:+ spaces k) " " = Split s " " ++ replicate k EmptyString.
Proof.
  destruct k as [|k].
  - change (spaces 0) with EmptyString. rewrite str_app_nil_r.
    symmetry. apply app_nil_r.
  - change (spaces (S k)) with (String " " (spaces k)).
    rewrite Split_app_sep, Split_spaces. reflexivity.
Qed.

Lemma TrimLeft_spaces s : exists k, s = spaces k +:+ TrimLeft s " ".
Proof.
  induction s as [|c s [k IH]]; [exists 0%nat; reflexivity|]. simpl.
  destruct (Ascii.eqb_spec c " ") as [->|Hne]; simpl.
  - exists (S k). simpl. rewrite <- IH. reflexivity.
  - exists 0%nat. reflexivity.
Qed.

Lemma TrimRight_spaces s : exists k, s = TrimRight s " " +:+ spaces k.
Proof.
  induction s as [|c s [k IH]]; [exists 0%nat; reflexivity|]. simpl.
  destruct (TrimRight s " ") as [|c' t] eqn:E.
  - simpl in IH. destruct (Ascii.eqb_spec c " ") as [->|Hne]; simpl.
    + exists (S k). simpl. rewrite <- IH. reflexivity.
    + exists k. simpl. rewrite <- IH. reflexivity.
  - exists k. simpl. simpl in IH. rewrite <- IH. reflexivity.
Qed.

(** Every piece of the trimmed string is a piece of the string. *)
Lemma Split_Trim s :
  exists k1 k2,
    Split s " " = replicate k1 EmptyString ++ Split (Trim s " ") " "
                    ++ replicate k2 EmptyString.
Proof.
  unfold Trim. destruct (TrimLeft_spaces s) as [k1 E1].
  destruct (TrimRight_spaces (TrimLeft s " ")) as [k2 E2].
  exists k1, k2. rewrite E1 at 1. rewrite Split_spaces_app. f_equal.
  rewrite E2 at 1. apply Split_app_spaces.
Qed.

Lemma builderOK_empty : builderOK EmptyString.
Proof. split; [left; reflexivity|]. repeat constructor. Qed.

Lemma builderOK_step b part :
  builderOK b -> spaceFree part = true -> isConnectorToken part = false ->
  builderOK (b +:+ part +:+ " ").
Proof.
  intros [Hshape Hf] Hsf Hnc. split.
  - right. exists (b +:+ part). rewrite str_app_assoc. reflexivity.
  - assert (Split (part +:+ " ") " " = [part; EmptyString]) as Hp.
    { change " " with (String " " EmptyString) at 1.
      rewrite Split_app_sep, (Split_spaceFree _ Hsf). reflexivity. }
    destruct Hshape as [->|[b0 ->]].
    + simpl. rewrite Hp. repeat constructor. exact Hnc.
    + change " " with (String " " EmptyString) in Hf at 1.
      rewrite Split_app_sep in Hf. apply Forall_app in Hf as [Hf0 _].
      rewrite str_app_assoc.
      change (" " +:+ part +:+ " ") with (String " " (part +:+ " ")).
      rewrite Split_app_sep, Hp. apply Forall_app. split; [exact Hf0|].
      repeat constructor. exact Hnc.
Qed.

(** The trimmed builder is never taken for a connector by [parseFilter]. *)
Lemma builderOK_Trim b : builderOK b -> isOperatorPart (Trim b " ") = false.
Proof.
  intros [_ Hf]. destruct (Split_Trim b) as (k1 & k2 & E).
  rewrite E in Hf. apply Forall_app in Hf as [_ Hf].
  apply Forall_app in Hf as [Hf _].
  destruct (isOperatorPart (Trim b " ")) eqn:Hop; [|reflexivity].
  unfold isOperatorPart in Hop. apply orb_true_iff in Hop.
  destruct Hop as [Hop|Hop]; apply String.eqb_eq in Hop; rewrite Hop in Hf;
    inversion Hf as [|? ? Hx]; discriminate Hx.
Qed.

Lemma alternating_snoc parts c k :
  alternating parts -> isOperatorPart c = false -> isOperatorPart k = true ->
  alternating (parts ++ [c; k]).
Proof.
  induction 1 as [|c' k' rest Hc' Hk' _ IH]; intros Hc Hk; simpl.
  - constructor; [assumption|assumption|constructor].
  - constructor; auto.
Qed.

Lemma ToUpper_connector part :
  isConnectorToken part = true -> isOperatorPart (ToUpper part) = true.
Proof.
  unfold isConnectorToken. rewrite !orb_true_iff.
  intros [[[H|H]|H]|H]; apply String.eqb_eq in H; subst part; reflexivity.
Qed.

Lemma last_cons_cons {A} (x y : A) l : last (x :: y :: l) = last (y :: l).
Proof. reflexivity. Qed.

(** The loop of [splitExpressions]: the parts stay in alternation, the
    builder stays well formed, and the builder ends empty exactly when the
    last piece was a connector. *)
Lemma splitLoop_shape toks : forall parts b,
  Forall (fun t => spaceFree t = true) toks ->
  alternating parts -> builderOK b ->
  alternating (fst (splitLoop toks parts b))
  /\ builderOK (snd (splitLoop toks parts b))
  /\ Nat.eqb (String.length (snd (splitLoop toks parts b))) 0
     = match last toks with
       | Some t => isConnectorToken t
       | None => Nat.eqb (String.length b) 0
       end.
Proof.
  induction toks as [|part rest IH]; intros parts b Hsf Ha Hb; simpl splitLoop.
  - simpl. auto.
  - inversion Hsf as [|? ? Hpart Hrest]; subst.
    destruct (isConnectorToken part) eqn:Hc.
    + destruct (IH (parts ++ [Trim b " "; ToUpper part]) EmptyString Hrest)
        as (I1 & I2 & I3).
      { apply alternating_snoc; [exact Ha|apply builderOK_Trim, Hb|].
        apply ToUpper_connector, Hc. }
      { apply builderOK_empty. }
      split; [exact I1|]. split; [exact I2|]. rewrite I3.
      destruct rest as [|y rest]; [simpl; rewrite Hc; reflexivity|].
      rewrite last_cons_cons.
      destruct (last (y :: rest)) eqn:E; [reflexivity|].
      apply last_None in E. discriminate E.
    + destruct (IH parts (b +:+ part +:+ " ") Hrest Ha) as (I1 & I2 & I3).
      { apply builderOK_step; assumption. }
      split; [exact I1|]. split; [exact I2|]. rewrite I3.
      destruct rest as [|y rest].
      2:{ rewrite last_cons_cons.
          destruct (last (y :: rest)) eqn:E; [reflexivity|].
          apply last_None in E. discriminate E. }
      change (last [part]) with (Some part).
      change (last (@nil string)) with (@None string). cbv iota. rewrite Hc.
      rewrite <- str_app_assoc.
      generalize (b +:+ part). intros x. induction x; simpl; auto.
Qed.

(** The parts of an input that does not end in a connector: candidates and
    connectors in alternation, then one last candidate. *)
Lemma splitExpressions_shape s :
  endsInConnector s = false ->
  exists parts c,
    splitExpressions s = parts ++ [c]
    /\ alternating parts /\ isOperatorPart c = false.
Proof.
  unfold endsInConnector, splitExpressions. intros Hend.
  destruct (splitLoop_shape (Split s " ") [] EmptyString
              (Split_pieces_spaceFree s) alternating_nil builderOK_empty)
    as (H1 & H2 & H3).
  destruct (splitLoop (Split s " ") [] EmptyString) as [parts b]. simpl in *.
  destruct (last (Split s " ")) as [t|] eqn:Hl.
  - rewrite Hend in H3.
    destruct (String.length b) as [|n]; [discriminate H3|]. simpl.
    exists parts, (Trim b " "). split; [reflexivity|]. split; [exact H1|].
    apply builderOK_Trim, H2.
  - exfalso. apply last_None in Hl. exact (Split_nonempty _ _ Hl).
Qed.

(** One expression candidate through [parseLoop]: it fails, or one
    expression is appended. *)
Lemma parseLoop_candidate c rest f f' :
  isOperatorPart c = false ->
  parseLoop (c :: rest) f = inl f' ->
  exists e, parseLoop rest {| expressions := expressions f ++ [e];
                              operators := operators f |} = inl f'.
Proof.
  intros Hc H. simpl in H. unfold isOperatorPart in Hc. rewrite Hc in H.
  destruct (Nat.ltb (length (FindStringSubmatch c)) 3); [discriminate H|].
  eauto.
Qed.

Lemma parseLoop_connector k rest f :
  isOperatorPart k = true ->
  parseLoop (k :: rest) f
  = parseLoop rest {| expressions := expressions f; operators := operators f ++ [k] |}.
Proof.
  intros Hk. simpl. unfold isOperatorPart in Hk. rewrite Hk. reflexivity.
Qed.

(** Parts in alternation add as many connectors as expressions. *)
Lemma parseLoop_alternating parts : alternating parts ->
  forall tail f f',
    parseLoop (parts ++ tail) f = inl f' ->
    exists fm,
      parseLoop tail fm = inl f'
      /\ (length (expressions fm) + length (operators f)
          = length (expressions f) + length (operators fm))%nat.
Proof.
  induction 1 as [|c k rest Hc Hk _ IH]; intros tail f f' H.
  - exists f. split; [exact H|lia].
  - simpl app in H. apply (parseLoop_candidate _ _ _ _ Hc) in H as [e H].
    rewrite (parseLoop_connector _ _ _ Hk) in H.
    apply IH in H as (fm & Hm & Hlen). exists fm. split; [exact Hm|].
    simpl in Hlen. rewrite !length_app in Hlen. simpl in Hlen. lia.
Qed.

(** With one connector fewer than expressions, [filter.String] writes the
    atoms and the connectors in alternation, single spaces between them. *)
Lemma stringLoop_interleave es : forall ops,
  length es = S (length ops) ->
  stringLoop es ops = Join (interleave (map expression_String es) ops) " ".
Proof.
  induction es as [|e es IH]; intros ops Hlen; [discriminate Hlen|].
  destruct es as [|e2 es].
  - destruct ops; [|discriminate Hlen].
    change (expression_String e +:+ EmptyString = expression_String e).
    apply str_app_nil_r.
  - destruct ops as [|o ops]; [discriminate Hlen|].
    change (stringLoop (e :: e2 :: es) (o :: ops))
      with (expression_String e +:+ " " +:+ o +:+ " " +:+ stringLoop (e2 :: es) ops).
    rewrite IH by (simpl in *; lia). reflexivity.
Qed.

(** ... and therefore ends with its last atom. *)
Lemma stringLoop_ends_with_atom es : forall ops,
  length es = S (length ops) ->
  exists pre e, last es = Some e /\ stringLoop es ops = pre +:+ expression_String e.
Proof.
  induction es as [|e es IH]; intros ops Hlen; [discriminate Hlen|].
  destruct es as [|e2 es].
  - destruct ops; [|discriminate Hlen]. exists EmptyString, e.
    split; [reflexivity|].
    change (expression_String e +:+ EmptyString = EmptyString +:+ expression_String e).
    apply str_app_nil_r.
  - destruct ops as [|o ops]; [discriminate Hlen|].
    destruct (IH ops) as (pre & e' & Hl & E); [simpl in *; lia|].
    exists (expression_String e +:+ " " +:+ o +:+ " " +:+ pre), e'.
    split; [exact Hl|].
    change (stringLoop (e :: e2 :: es) (o :: ops))
      with (expression_String e +:+ " " +:+ o +:+ " " +:+ stringLoop (e2 :: es) ops).
    rewrite E, !str_app_assoc. reflexivity.
Qed.

(** C6, as the code has it: for every non-empty input that does not end
    in a connector token and on which [parseFilter] succeeds, the filter
    has one connector fewer than expressions, its rendering is the atoms
    and the connectors in alternation joined by single spaces, and the
    rendering ends with the last atom, not with a connector. *)
Theorem parseFilter_connectors_between_atoms s f :
  s <> EmptyString ->
  endsInConnector s = false ->
  parseFilter s = inl f ->
  length (expressions f) = S (length (operators f))
  /\ filter_String f
     = Join (interleave (map expression_String (expressions f)) (operators f)) " "
  /\ exists pre e,
       last (expressions f) = Some e
       /\ filter_String f = pre +:+ expression_String e.
Proof.
  intros Hne Hend H. unfold parseFilter in H.
  destruct (String.eqb_spec s EmptyString) as [|_]; [contradiction|].
  destruct (splitExpressions_shape s Hend) as (parts & c & E & Ha & Hc).
  rewrite E in H.
  apply (parseLoop_alternating _ Ha) in H as (fm & H & Hlen).
  apply (parseLoop_candidate _ _ _ _ Hc) in H as [e H].
  simpl in H. injection H as <-. simpl in Hlen.
  assert (length (expressions fm ++ [e]) = S (length (operators fm))) as Hcount.
  { rewrite length_app. simpl. lia. }
  unfold filter_String. simpl expressions. simpl operators.
  destruct (expressions fm ++ [e]) as [|e1 es] eqn:Ees; [discriminate Hcount|].
  split; [exact Hcount|]. split.
  - apply stringLoop_interleave, Hcount.
  - apply stringLoop_ends_with_atom, Hcount.
Qed.

Lemma parseFilter_connectors_between_atoms_witness :
  "a = 1 and b >= 3" <> EmptyString
  /\ rendered (parseFilter "a = 1 and b >= 3") = inl "( [a] = '1' ) AND ( [b] >= '3' )"
  /\ length (expressions {| expressions :=
                              [{| column := "a"; operator := "="; value := "1" |};
                               {| column := "b"; operator := ">="; value := "3" |}];
                            operators := ["AND"] |})
     = S (length (operators {| expressions :=
                              [{| column := "a"; operator := "="; value := "1" |};
                               {| column := "b"; operator := ">="; value := "3" |}];
                            operators := ["AND"] |})).
Proof.
  split; [discriminate|]. split; [vm_compute; reflexivity|].
  refine (proj1 (parseFilter_connectors_between_atoms "a = 1 and b >= 3" _ _ _ _)).
  - discriminate.
  - vm_compute. reflexivity.
  - vm_compute. reflexivity.
Defined.

(** C6 as stated fails: an input that ends in a connector parses, with as
    many connectors as expressions, and renders with the connector at the
    end. *)
Lemma parseFilter_accepts_trailing_connector :
  rendered (parseFilter "a = 1 AND") = inl "( [a] = '1' ) AND "
  /\ ~ (forall s f,
           s <> EmptyString -> parseFilter s = inl f ->
           length (expressions f) = S (length (operators f))
           /\ filter_String f
              = Join (interleave (map expression_String (expressions f))
                        (operators f)) " ").
Proof.
  split; [vm_compute; reflexivity|]. intros H.
  destruct (H "a = 1 AND"
              {| expressions := [{| column := "a"; operator := "="; value := "1" |}];
                 operators := ["AND"] |}) as [Hc _].
  - discriminate.
  - vm_compute. reflexivity.
  - discriminate Hc.
Qed.

End FilterShape.

(** * Further properties of the code *)

(** ** The filter parser *)

Section FilterMore.
Import strings mssql.
Local Arguments String.append : simpl nomatch.
Local Arguments expression_String : simpl never.




Lemma splitExpressions_shape_connector s :
  endsInConnector s = true -> alternating (splitExpressions s).
Proof.
  unfold endsInConnector, splitExpressions. intros Hend.
  destruct (splitLoop_shape (Split s " ") [] EmptyString
              (Split_pieces_spaceFree s) alternating_nil builderOK_empty)
    as (H1 & H2 & H3).
  destruct (splitLoop (Split s " ") [] EmptyString) as [parts b]. simpl in *.
  destruct (last (Split s " ")) as [t|]; [|discriminate Hend].
  rewrite Hend in H3. destruct (String.length b); [exact H1|discriminate H3].
Qed.

(** X2: a filter parsed from a non-empty input has as many connectors as
    expressions, or one fewer; it has as many exactly when the input ends
    in a connector token. *)
Theorem parseFilter_connector_count s f :
  s <> EmptyString ->
  parseFilter s = inl f ->
  (length (operators f) <= length (expressions f) <= S (length (operators f)))%nat
  /\ (length (expressions f) = length (operators f) <-> endsInConnector s = true).
Proof.
  intros Hne H. unfold parseFilter in H.
  destruct (String.eqb_spec s EmptyString) as [|_]; [contradiction|].
  destruct (endsInConnector s) eqn:Hend.
  - pose proof (splitExpressions_shape_connector s Hend) as Ha.
    rewrite <- (app_nil_r (splitExpressions s)) in H.
    apply (parseLoop_alternating _ Ha) in H as (fm & H & Hlen).
    simpl in H. injection H as <-. simpl in Hlen.
    split; [lia|]. split; [reflexivity|lia].
  - destruct (splitExpressions_shape s Hend) as (parts & c & E & Ha & Hc).
    rewrite E in H.
    apply (parseLoop_alternating _ Ha) in H as (fm & H & Hlen).
    apply (parseLoop_candidate _ _ _ _ Hc) in H as [e H].
    simpl in H. injection H as <-. simpl in *. rewrite length_app. simpl.
    split; [lia|]. split; [lia|discriminate].
Qed.

Lemma parseFilter_connector_count_witness :
  "a = 1 AND" <> EmptyString
  /\ parseFilter "a = 1 AND"
     = inl {| expressions := [{| column := "a"; operator := "="; value := "1" |}];
              operators := ["AND"] |}
  /\ endsInConnector "a = 1 AND" = true.
Proof.
  split; [discriminate|]. split; [vm_compute; reflexivity|].
  apply (proj2 (parseFilter_connector_count "a = 1 AND"
                  {| expressions := [{| column := "a"; operator := "="; value := "1" |}];
                     operators := ["AND"] |}
                  ltac:(discriminate) ltac:(vm_compute; reflexivity))).
  reflexivity.
Defined.

Lemma splitLoop_prefix toks : forall parts b,
  exists more, fst (splitLoop toks parts b) = parts ++ more.
Proof.
  induction toks as [|t toks IH]; intros parts b; simpl.
  - exists []. rewrite app_nil_r. reflexivity.
  - destruct (isConnectorToken t).
    + destruct (IH (parts ++ [Trim b " "; ToUpper t]) EmptyString) as [more E].
      rewrite E, <- app_assoc. eauto.
    + apply IH.
Qed.

Lemma connector_spaceFree tok : isConnectorToken tok = true -> spaceFree tok = true.
Proof.
  unfold isConnectorToken. rewrite !orb_true_iff.
  intros [[[H|H]|H]|H]; apply String.eqb_eq in H; subst tok; reflexivity.
Qed.

Lemma splitExpressions_leading_connector tok rest :
  isConnectorToken tok = true ->
  exists more,
    fst (splitLoop (tok :: rest) [] EmptyString) = EmptyString :: ToUpper tok :: more.
Proof.
  intros Hc. simpl. rewrite Hc.
  destruct (splitLoop_prefix rest [Trim EmptyString " "; ToUpper tok] EmptyString)
    as [more E].
  exists more. rewrite E. reflexivity.
Qed.

Lemma parseLoop_empty_candidate rest f :
  parseLoop (EmptyString :: rest) f = inr (parseError EmptyString 0).
Proof. reflexivity. Qed.

(** X3: an input that begins with a connector token is rejected: the
    empty candidate before the connector does not match the pattern, and
    the error names it. *)
Theorem parseFilter_rejects_leading_connector tok s :
  isConnectorToken tok = true ->
  parseFilter tok = inr (parseError EmptyString 0)
  /\ parseFilter (tok +:+ " " +:+ s) = inr (parseError EmptyString 0).
Proof.
  intros Hc. pose proof (connector_spaceFree _ Hc) as Hsf.
  assert (forall x rest, Split x " " = tok :: rest -> x <> EmptyString ->
                         parseFilter x = inr (parseError EmptyString 0)) as Hgen.
  { intros x rest Hx Hne. unfold parseFilter.
    destruct (String.eqb_spec x EmptyString) as [|_]; [contradiction|].
    unfold splitExpressions. rewrite Hx.
    destruct (splitExpressions_leading_connector tok rest Hc) as [more E].
    destruct (splitLoop (tok :: rest) [] EmptyString) as [parts b].
    simpl in E. subst parts.
    destruct (Nat.ltb 0 (String.length b)); apply parseLoop_empty_candidate. }
  split.
  - apply (Hgen tok []); [apply Split_spaceFree, Hsf|].
    intros ->. discriminate Hc.
  - apply (Hgen _ (Split s " ")).
    + change (" " +:+ s) with (String " " s).
      rewrite Split_app_sep, (Split_spaceFree _ Hsf). reflexivity.
    + destruct tok; [discriminate Hc|discriminate].
Qed.

Lemma parseFilter_rejects_leading_connector_witness :
  isConnectorToken "or" = true
  /\ parseFilter ("or" +:+ " " +:+ "a = 1") = inr (parseError EmptyString 0).
Proof.
  split; [reflexivity|].
  apply (proj2 (parseFilter_rejects_leading_connector "or" "a = 1" eq_refl)).
Defined.

Lemma matchValue_nonempty s v : matchValue s = Some v -> v <> EmptyString.
Proof.
  unfold matchValue. destruct s as [|c s]; [discriminate|].
  destruct (Ascii.eqb c " ") eqn:E.
  - apply Ascii.eqb_eq in E. subst c.
    destruct (dotRun s); [discriminate|]. intros H. injection H as <-. discriminate.
  - destruct c as [[] [] [] [] [] [] [] []]; try discriminate.
Qed.

Lemma matchTail_operator s op v :
  matchTail s = Some (op, v) -> validOperator op = true /\ v <> EmptyString.
Proof.
  unfold matchTail. destruct s as [|c s]; [discriminate|].
  destruct (Ascii.eqb c " ") eqn:E.
  2:{ destruct c as [[] [] [] [] [] [] [] []]; try discriminate. }
  apply Ascii.eqb_eq in E. subst c.
  destruct s as [|o1 rest1]; [discriminate|].
  destruct (isOperatorByte o1) eqn:H1; [|discriminate].
  assert (forall r, match matchValue rest1 with
                    | Some v0 => Some (String o1 EmptyString, v0)
                    | None => None
                    end = r ->
                    r = Some (op, v) -> validOperator op = true /\ v <> EmptyString)
    as Hone.
  { intros r <- H. destruct (matchValue rest1) as [v0|] eqn:Hv; [|discriminate].
    injection H as <- <-. split; [exact H1|]. exact (matchValue_nonempty _ _ Hv). }
  destruct rest1 as [|o2 rest2]; [apply (Hone _ eq_refl)|].
  destruct (isOperatorByte o2) eqn:H2; [|apply (Hone _ eq_refl)].
  destruct (matchValue rest2) as [v2|] eqn:Hv2; [|apply (Hone _ eq_refl)].
  intros H. injection H as <- <-. split.
  - simpl. rewrite H1, H2. reflexivity.
  - exact (matchValue_nonempty _ _ Hv2).
Qed.

Lemma matchFrom_operator s : forall g g1 op v,
  matchFrom g s = Some (g1, op, v) -> validOperator op = true /\ v <> EmptyString.
Proof.
  induction s as [|c s IH]; intros g g1 op v H; simpl in H; [discriminate|].
  destruct (isColumnByte c); [|discriminate].
  destruct (matchTail s) as [[op' v']|] eqn:Ht.
  - injection H as <- <- <-. exact (matchTail_operator _ _ _ Ht).
  - exact (IH _ _ _ _ H).
Qed.

Lemma FindStringSubmatch_unfold s :
  FindStringSubmatch s
  = match matchFrom EmptyString s with
    | Some (g1, op, v) => [g1 +:+ " " +:+ op +:+ " " +:+ v; g1; op; v]
    | None => match s with
              | EmptyString => []
              | String _ s' => FindStringSubmatch s'
              end
    end.
Proof. destruct s; reflexivity. Qed.

(** A match gives the whole match and three groups, the operator group
    being one or two comparison signs and the value group not empty. *)
Lemma FindStringSubmatch_groups s :
  FindStringSubmatch s = []
  \/ exists w g1 op v,
       FindStringSubmatch s = [w; g1; op; v]
       /\ validOperator op = true /\ v <> EmptyString.
Proof.
  induction s as [|c s IH].
  - left. reflexivity.
  - rewrite FindStringSubmatch_unfold.
    destruct (matchFrom EmptyString (String c s)) as [[[g1 op] v]|] eqn:Hm.
    + right. exists (g1 +:+ " " +:+ op +:+ " " +:+ v), g1, op, v.
      split; [reflexivity|]. exact (matchFrom_operator _ _ _ _ _ Hm).
    + exact IH.
Qed.

Lemma parseLoop_expressions parts : forall f f',
  parseLoop parts f = inl f' ->
  Forall (fun e => validOperator (operator e) = true) (expressions f) ->
  Forall (fun e => validOperator (operator e) = true) (expressions f').
Proof.
  induction parts as [|p parts IH]; intros f f' H Hf; simpl in H.
  - injection H as <-. exact Hf.
  - destruct (String.eqb p "AND" || String.eqb p "OR").
    + apply IH in H; [exact H|exact Hf].
    + destruct (FindStringSubmatch_groups p) as [E|(w & g1 & op & v & E & Hop & _)];
        rewrite E in H; [discriminate H|].
      simpl in H. apply IH in H; [exact H|]. simpl.
      apply Forall_app. split; [exact Hf|]. constructor; [exact Hop|constructor].
Qed.

Lemma ToUpper_operator op : validOperator op = true -> ToUpper op = op.
Proof.
  assert (forall a, isOperatorByte a = true -> upperByte a = a) as Hb.
  { intros a. unfold isOperatorByte. rewrite !orb_true_iff.
    intros [[H|H]|H]; apply Ascii.eqb_eq in H; subst a; reflexivity. }
  destruct op as [|a [|b [|c op]]]; simpl; try discriminate.
  - intros H. rewrite (Hb _ H). reflexivity.
  - intros H. apply andb_true_iff in H as [Ha Hb']. rewrite (Hb _ Ha), (Hb _ Hb').
    reflexivity.
Qed.

(** X4: every expression of a parsed filter has an operator made of one
    or two comparison signs, which upper-casing in the rendering leaves as
    it is. *)
Theorem parseFilter_operators_are_comparisons s f :
  parseFilter s = inl f ->
  Forall (fun e => validOperator (operator e) = true
                   /\ ToUpper (operator e) = operator e) (expressions f).
Proof.
  intros H.
  assert (Forall (fun e => validOperator (operator e) = true) (expressions f)) as Hf.
  { unfold parseFilter in H. destruct (String.eqb s EmptyString).
    - injection H as <-. constructor.
    - apply (parseLoop_expressions _ _ _ H). constructor. }
  eapply Forall_impl; [exact Hf|]. intros e He. split; [exact He|].
  apply ToUpper_operator, He.
Qed.

Lemma parseFilter_operators_are_comparisons_witness :
  parseFilter "n >= 10 and m <> 2"
  = inl {| expressions := [{| column := "n"; operator := ">="; value := "10" |};
                           {| column := "m"; operator := "<>"; value := "2" |}];
           operators := ["AND"] |}
  /\ Forall (fun e => validOperator (operator e) = true
                      /\ ToUpper (operator e) = operator e)
       [{| column := "n"; operator := ">="; value := "10" |};
        {| column := "m"; operator := "<>"; value := "2" |}].
Proof.
  split; [vm_compute; reflexivity|].
  apply (parseFilter_operators_are_comparisons "n >= 10 and m <> 2"
           {| expressions := [{| column := "n"; operator := ">="; value := "10" |};
                              {| column := "m"; operator := "<>"; value := "2" |}];
              operators := ["AND"] |}).
  vm_compute. reflexivity.
Defined.

Lemma ReplaceAll_doubled q s :
  doubled q (ReplaceAll s q (String q (String q EmptyString))) = true.
Proof.
  induction s as [|c s IH]; [reflexivity|]. cbn [ReplaceAll].
  destruct (Ascii.eqb c q) eqn:E.
  - change (String q (String q EmptyString) +:+ ?x) with (String q (String q x)).
    cbn [doubled]. rewrite Ascii.eqb_refl. exact IH.
  - cbn [doubled]. rewrite E. exact IH.
Qed.

(** X23: what a parsed filter renders cannot break out of its quoting.
    Each expression renders as a bracketed name in which closing brackets
    occur only doubled, an operator of one or two comparison signs, and a
    quoted literal in which quotes occur only doubled, whatever bytes the
    input put in the column and the value. *)
Theorem parseFilter_renders_closed_text s f :
  parseFilter s = inl f ->
  Forall (fun e =>
            exists c v,
              expression_String e
              = "( " +:+ ("[" +:+ c +:+ "]") +:+ " " +:+ operator e +:+ " "
                  +:+ ("'" +:+ v +:+ "'") +:+ " )"
              /\ doubled "]" c = true /\ doubled "'" v = true
              /\ validOperator (operator e) = true) (expressions f).
Proof.
  intros H.
  assert (Forall (fun e => validOperator (operator e) = true) (expressions f)) as Hf.
  { unfold parseFilter in H. destruct (String.eqb s EmptyString).
    - injection H as <-. constructor.
    - apply (parseLoop_expressions _ _ _ H). constructor. }
  eapply Forall_impl; [exact Hf|]. intros e He.
  exists (ReplaceAll (column e) "]" "]]"), (ReplaceAll (value e) "'" "''").
  split; [|split; [apply ReplaceAll_doubled|split; [apply ReplaceAll_doubled|exact He]]].
  unfold expression_String, quoter_ID, quoter_Value.
  rewrite (ToUpper_operator _ He). reflexivity.
Qed.

Lemma parseFilter_renders_closed_text_witness :
  Forall (fun e =>
            exists c v,
              expression_String e
              = "( " +:+ ("[" +:+ c +:+ "]") +:+ " " +:+ operator e +:+ " "
                  +:+ ("'" +:+ v +:+ "'") +:+ " )"
              /\ doubled "]" c = true /\ doubled "'" v = true
              /\ validOperator (operator e) = true)
    [{| column := "name"; operator := "="; value := "O'Brien" |}].
Proof.
  apply (parseFilter_renders_closed_text "name = O'Brien"
           {| expressions := [{| column := "name"; operator := "=";
                                 value := "O'Brien" |}];
              operators := [] |}).
  vm_compute. reflexivity.
Defined.

End FilterMore.

(** ** Table references *)

Section TableRefs.
Import strings mssql.
Local Arguments String.append : simpl nomatch.

(** Bracket quoting can be undone: the end of a quoted name is its first
    closing bracket that is not doubled. *)
Lemma quoted_inj a1 : forall a2 x1 x2,
  noBracketHead x1 -> noBracketHead x2 ->
  ReplaceAll a1 "]" "]]" +:+ String "]" x1 = ReplaceAll a2 "]" "]]" +:+ String "]" x2 ->
  a1 = a2 /\ x1 = x2.
Proof.
  induction a1 as [|c a1 IH]; intros a2 x1 x2 H1 H2 E;
    destruct a2 as [|d a2]; simpl in E;
    try destruct (Ascii.eqb_spec c "]") as [->|Hc];
    try destruct (Ascii.eqb_spec d "]") as [->|Hd]; simpl in E;
    try (injection E as E; subst; simpl in *; try congruence; auto; fail).
  - destruct (IH a2 x1 x2 H1 H2) as [-> ->]; [congruence|auto].
  - destruct (IH a2 x1 x2 H1 H2) as [-> ->]; [congruence|].
    split; [congruence|reflexivity].
Qed.

Lemma TableRef_String_inj t1 t2 :
  TableRef_String t1 = TableRef_String t2 -> t1 = t2.
Proof.
  destruct t1 as [a1 b1], t2 as [a2 b2]. unfold TableRef_String, quoter_ID. simpl.
  rewrite !str_app_assoc. simpl. intros E. injection E as E.
  apply quoted_inj in E as [-> E]; [|discriminate|discriminate].
  injection E as E. change "]" with (String "]" EmptyString) in E.
  apply quoted_inj in E as [-> _]; [reflexivity|exact I|exact I].
Qed.

(** X5: the rendering of a table reference, which the monitor and the
    schema cache use as map key, tells table references apart: two
    references with the same rendering have the same schema and the same
    table. *)
Theorem TableRef_String_injective t1 t2 :
  TableRef_String t1 = TableRef_String t2 -> t1 = t2.
Proof.
  destruct t1 as [a1 b1], t2 as [a2 b2]. unfold TableRef_String, quoter_ID. simpl.
  rewrite !str_app_assoc. simpl. intros E. injection E as E.
  apply quoted_inj in E as [-> E]; [|discriminate|discriminate].
  injection E as E. change "]" with (String "]" EmptyString) in E.
  apply quoted_inj in E as [-> _]; [reflexivity|exact I|exact I].
Qed.

Lemma TableRef_String_injective_witness :
  TableRef_String exampleTable = TableRef_String {| Schema := "dbo"; Table := "test" |}
  /\ exampleTable = {| Schema := "dbo"; Table := "test" |}.
Proof.
  split; [reflexivity|].
  apply (TableRef_String_injective exampleTable {| Schema := "dbo"; Table := "test" |}).
  reflexivity.
Defined.

(** Quoting at work, a closing bracket in a name included. *)
Example TableRef_String_fixture :
  TableRef_String {| Schema := "dbo"; Table := "test" |} = "[dbo].[test]"
  /\ TableRef_String {| Schema := "a]"; Table := "b" |} = "[a]]].[b]".
Proof. split; reflexivity. Qed.

End TableRefs.

(** ** The cache of schema definitions *)

Section SchemaCache.
Import mssql.

Lemma GetSchemaDefinition_hit t d sch :
  schemaDefs d !! TableRef_String t = Some sch ->
  GetSchemaDefinition t d = Returns (sch, None) d.
Proof. intros H. unfold GetSchemaDefinition, bind, get. rewrite H. reflexivity. Qed.

(** One lookup, whatever the server answers: it returns, an entry of the
    cache is never replaced, and the only entry it can add is the one of
    its own table. *)
Lemma GetSchemaDefinition_step t d :
  exists r d',
    GetSchemaDefinition t d = Returns r d'
    /\ (forall key sch, schemaDefs d !! key = Some sch ->
                        schemaDefs d' !! key = Some sch)
    /\ (forall key, key <> TableRef_String t -> schemaDefs d !! key = None ->
                    schemaDefs d' !! key = None).
Proof.
  unfold GetSchemaDefinition, bind, get.
  destruct (schemaDefs d !! TableRef_String t) as [sch|] eqn:E.
  { unfold ret. eexists _, _. split; [reflexivity|]. auto. }
  unfold queryColumns.
  destruct (columnAnswers d) as [|[e|rows] rest]; cbn [scanColumns];
    try match goal with |- context [scanColumns ?x ?y] =>
          destruct (scanColumns x y) as [m|e'] end;
    unfold modify, ret; eexists _, _; (split; [reflexivity|]); simpl; auto;
    split; intros key; intros;
      rewrite lookup_insert_ne; auto; congruence.
Qed.

Lemma GetSchemaDefinition_success t d sch d1 :
  GetSchemaDefinition t d = Returns (sch, None) d1 ->
  schemaDefs d1 !! TableRef_String t = Some sch.
Proof.
  unfold GetSchemaDefinition, bind, get.
  destruct (schemaDefs d !! TableRef_String t) as [sch'|] eqn:E.
  { unfold ret. intros H. injection H as <- <-. exact E. }
  unfold queryColumns.
  destruct (columnAnswers d) as [|[e|rows] rest]; cbn [scanColumns];
    try match goal with |- context [scanColumns ?x ?y] =>
          destruct (scanColumns x y) as [m|e'] end;
    unfold modify, ret; intros H; try discriminate H;
    injection H as <- <-; simpl; apply lookup_insert_eq.
Qed.

Lemma lookups_keep ts key sch : forall d,
  schemaDefs d !! key = Some sch ->
  exists d', lookups ts d = Returns tt d' /\ schemaDefs d' !! key = Some sch.
Proof.
  induction ts as [|t ts IH]; intros d H; cbn [lookups].
  - unfold ret. eauto.
  - destruct (GetSchemaDefinition_step t d) as (r & d1 & E & Hk & _).
    unfold bind. rewrite E. apply IH, Hk, H.
Qed.

(** X24: a schema fetched once is fetched for good.  After a successful
    lookup of a table, and after any further lookups of any tables, a
    lookup of that table returns the same schema and leaves the store as
    it is: no query is sent and no answer of the server is consumed. *)
Theorem GetSchemaDefinition_memoizes t ts d sch d1 :
  GetSchemaDefinition t d = Returns (sch, None) d1 ->
  exists d2,
    lookups ts d1 = Returns tt d2
    /\ GetSchemaDefinition t d2 = Returns (sch, None) d2.
Proof.
  intros H. apply GetSchemaDefinition_success in H.
  destruct (lookups_keep ts _ _ d1 H) as (d2 & E & H2).
  exists d2. split; [exact E|]. apply GetSchemaDefinition_hit, H2.
Qed.

Lemma GetSchemaDefinition_memoizes_witness :
  exists d2,
    lookups [{| Schema := "dbo"; Table := "other" |}; exampleTable]
      (finalState (GetSchemaDefinition exampleTable exampleSchemaDB))
    = Returns tt d2
    /\ GetSchemaDefinition exampleTable d2 = Returns ({["id" := "int"]}, None) d2.
Proof.
  apply (GetSchemaDefinition_memoizes exampleTable
           [{| Schema := "dbo"; Table := "other" |}; exampleTable] exampleSchemaDB).
  reflexivity.
Defined.

(** X25: the cache never serves one table for another.  A lookup of a
    different table, whatever it returns, leaves a table that was not
    cached uncached, so the next lookup of that table sends its own
    query. *)
Theorem GetSchemaDefinition_not_shared t t' d r d' :
  t <> t' ->
  schemaDefs d !! TableRef_String t = None ->
  GetSchemaDefinition t' d = Returns r d' ->
  columnQueries (finalState (GetSchemaDefinition t d')) = columnQueries d' ++ [t].
Proof.
  intros Hne Hmiss H.
  destruct (GetSchemaDefinition_step t' d) as (r0 & d0 & E & _ & Hnone).
  rewrite E in H. injection H as <- <-.
  assert (schemaDefs d0 !! TableRef_String t = None) as Hmiss'.
  { apply Hnone; [|exact Hmiss]. intros Ek. apply Hne, TableRef_String_inj, Ek. }
  unfold GetSchemaDefinition, bind, get. rewrite Hmiss'. unfold queryColumns.
  destruct (columnAnswers d0) as [|[e|rows] rest]; cbn [scanColumns];
    try match goal with |- context [scanColumns ?x ?y] =>
          destruct (scanColumns x y) as [m|e'] end; reflexivity.
Qed.

Lemma GetSchemaDefinition_not_shared_witness :
  columnQueries
    (finalState
       (GetSchemaDefinition exampleTable
          (finalState (GetSchemaDefinition {| Schema := "dbo"; Table := "other" |}
                         exampleSchemaDB))))
  = columnQueries
      (finalState (GetSchemaDefinition {| Schema := "dbo"; Table := "other" |}
                     exampleSchemaDB)) ++ [exampleTable].
Proof.
  apply (GetSchemaDefinition_not_shared exampleTable
           {| Schema := "dbo"; Table := "other" |} exampleSchemaDB
           ({["id" := "int"]}, None)).
  - discriminate.
  - reflexivity.
  - reflexivity.
Defined.

End SchemaCache.

(** ** Schema comparison *)

Section SchemasMore.
Import copy.

(** X6: every schema is compatible with itself, empty type names
    included. *)
Theorem compareSchemas_refl (A : gmap string string) : compareSchemas A A = true.
Proof.
  unfold compareSchemas. rewrite Nat.eqb_refl. simpl.
  apply compareLoop_true, Forall_forall. intros [c d] Hc. simpl.
  apply elem_of_map_to_list in Hc. rewrite Hc. reflexivity.
Qed.

(** X7: when no column of the source has the empty type name, the
    schemas are found compatible exactly when the two mappings are equal:
    same columns, same type for each. *)
Theorem compareSchemas_true_iff_equal (A B : gmap string string) :
  (forall c, A !! c <> Some EmptyString) ->
  compareSchemas A B = true <-> A = B.
Proof.
  intros HA. unfold compareSchemas. split.
  - destruct (Nat.eqb_spec (size A) (size B)) as [Hs|]; [simpl|discriminate].
    rewrite compareLoop_true, Forall_forall. intros F.
    apply map_subseteq_size_eq; [|lia].
    apply map_subseteq_spec. intros c d Hc.
    specialize (F (c, d)). simpl in F.
    rewrite elem_of_map_to_list in F. specialize (F Hc).
    destruct (B !! c) as [d'|]; simpl in F; [congruence|].
    subst d. exfalso. exact (HA c Hc).
  - intros <-. rewrite Nat.eqb_refl. simpl.
    rewrite compareLoop_true, Forall_forall. intros [c d] Hc. simpl.
    apply elem_of_map_to_list in Hc. rewrite Hc. reflexivity.
Qed.

Lemma compareSchemas_true_iff_equal_witness :
  (forall c, schemaB !! c <> Some EmptyString)
  /\ (compareSchemas schemaB schemaB = true <-> schemaB = schemaB).
Proof.
  assert (forall c, schemaB !! c <> Some EmptyString) as H.
  { intros c. unfold schemaB.
    destruct (decide (c = "b")) as [->|Hb]; [rewrite lookup_insert_eq; discriminate|].
    rewrite lookup_insert_ne by congruence.
    destruct (decide (c = "c")) as [->|Hc]; [rewrite lookup_insert_eq; discriminate|].
    rewrite lookup_insert_ne by congruence. rewrite lookup_empty. discriminate. }
  split; [exact H|]. apply (compareSchemas_true_iff_equal schemaB schemaB H).
Defined.

(** X8: the answer does not depend on the order in which the iteration
    over the source mapping visits its columns: the loop run over any
    reordering of the entries gives what [compareSchemas] gives. *)
Theorem compareSchemas_order_independent (A B : gmap string string) entries :
  entries ≡ₚ map_to_list A ->
  size A = size B ->
  compareLoop entries B = compareSchemas A B.
Proof.
  intros HP Hs. unfold compareSchemas. rewrite Hs, Nat.eqb_refl. simpl.
  apply compareLoop_Permutation, HP.
Qed.

Lemma compareSchemas_order_independent_witness :
  [("b", "int"); ("a", EmptyString)] ≡ₚ map_to_list schemaA
  /\ size schemaA = size schemaB
  /\ compareLoop [("b", "int"); ("a", EmptyString)] schemaB
     = compareSchemas schemaA schemaB.
Proof.
  assert ([("b", "int"); ("a", EmptyString)] ≡ₚ map_to_list schemaA) as HP.
  { vm_compute. apply perm_swap || reflexivity. }
  split; [exact HP|]. split; [reflexivity|].
  apply (compareSchemas_order_independent schemaA schemaB _ HP). reflexivity.
Defined.

(** X9: a true answer means every source column with a non-empty type is
    a target column of the same type, and the two have the same number of
    columns. *)
Theorem compareSchemas_true_sound (A B : gmap string string) :
  compareSchemas A B = true ->
  size A = size B
  /\ forall c d, A !! c = Some d -> d <> EmptyString -> B !! c = Some d.
Proof.
  unfold compareSchemas.
  destruct (Nat.eqb_spec (size A) (size B)) as [Hs|]; [simpl|discriminate].
  rewrite compareLoop_true, Forall_forall. intros F. split; [exact Hs|].
  intros c d Hc Hd. specialize (F (c, d)). simpl in F.
  rewrite elem_of_map_to_list in F. specialize (F Hc).
  destruct (B !! c) as [d'|]; simpl in F; congruence.
Qed.

Lemma compareSchemas_true_sound_witness :
  compareSchemas schemaA schemaB = true
  /\ size schemaA = size schemaB.
Proof.
  split; [vm_compute; reflexivity|].
  apply (proj1 (compareSchemas_true_sound schemaA schemaB ltac:(vm_compute; reflexivity))).
Defined.

End SchemasMore.

(** ** Chunking and the scheduling loop *)

Section ChunksMore.
Import cli.



Lemma chunkLoop_count {T : Type} (chunkSize : Z) (H : 0 < chunkSize)
    (items : list T) (acc : list (list T)) :
  Z.of_nat (length (chunkLoop chunkSize H items acc))
  = Z.of_nat (length acc)
    + Z.max 1 ((Z.of_nat (length items) + chunkSize - 1) / chunkSize).
Proof.
  funelim (chunkLoop chunkSize H items acc).
  - rewrite H0. rewrite length_app, length_skipn. simpl length.
    replace (Z.of_nat (length items) + chunkSize - 1)
      with (Z.of_nat (length items - Z.to_nat chunkSize) + chunkSize - 1
            + 1 * chunkSize) by lia.
    rewrite Z.div_add by lia.
    assert (0 <= (Z.of_nat (length items - Z.to_nat chunkSize) + chunkSize - 1)
                   / chunkSize) by (apply Z.div_pos; lia).
    assert (1 <= (Z.of_nat (length items - Z.to_nat chunkSize) + chunkSize - 1)
                   / chunkSize).
    { apply Z.div_le_lower_bound; lia. }
    lia.
  - rewrite length_app. simpl length.
    assert ((Z.of_nat (length items) + chunkSize - 1) / chunkSize <= 1).
    { apply Z.lt_succ_r, Z.div_lt_upper_bound; lia. }
    lia.
Qed.

Lemma chunkLoop_nonempty {T : Type} (chunkSize : Z) (H : 0 < chunkSize)
    (items : list T) (acc : list (list T)) :
  items <> [] -> Forall (fun c => c <> []) acc ->
  Forall (fun c => c <> []) (chunkLoop chunkSize H items acc).
Proof.
  funelim (chunkLoop chunkSize H items acc); intros Hne Hacc.
  - apply H0.
    + intros E. apply (f_equal length) in E. rewrite length_skipn in E. simpl in E. lia.
    + apply Forall_app. split; [exact Hacc|]. constructor; [|constructor].
      intros E. apply (f_equal length) in E. rewrite length_take in E. simpl in E. lia.
  - apply Forall_app. split; [exact Hacc|]. constructor; [exact Hne|constructor].
Qed.

(** X11: for a positive chunk size the number of chunks is the list
    length divided by the chunk size, rounded up, and one for the empty
    list; no chunk of a non-empty list is empty. *)
Theorem chunkBy_count {T : Type} (items : list T) (chunkSize : Z) chunks :
  0 < chunkSize ->
  chunkBy items chunkSize = Some chunks ->
  Z.of_nat (length chunks)
  = Z.max 1 ((Z.of_nat (length items) + chunkSize - 1) / chunkSize)
  /\ (items <> [] -> Forall (fun c => c <> []) chunks)
  /\ (items = [] -> chunks = [[]]).
Proof.
  intros H. unfold chunkBy.
  destruct (Z.eqb_spec chunkSize 0) as [|_]; [lia|].
  destruct (Z.ltb _ 0); [discriminate|].
  destruct (Z_lt_dec 0 chunkSize) as [H'|]; [|contradiction].
  intros E. injection E as <-. split; [|split].
  - rewrite chunkLoop_count. simpl. lia.
  - intros Hne. apply chunkLoop_nonempty; [exact Hne|constructor].
  - intros ->. simp chunkLoop.
    destruct (Z_lt_dec chunkSize (Z.of_nat (length (@nil T)))) as [Hl|Hl];
      [simpl in Hl; lia|reflexivity].
Qed.

Lemma chunkBy_count_witness :
  0 < 3
  /\ chunkBy [1; 2; 3; 4; 5; 6; 7] 3 = Some [[1; 2; 3]; [4; 5; 6]; [7]]
  /\ Z.of_nat (length [[1; 2; 3]; [4; 5; 6]; [7]])
     = Z.max 1 ((Z.of_nat (length [1; 2; 3; 4; 5; 6; 7]) + 3 - 1) / 3).
Proof.
  split; [lia|]. split; [vm_compute; reflexivity|].
  apply (proj1 (chunkBy_count [1; 2; 3; 4; 5; 6; 7] 3 _ ltac:(lia)
                  ltac:(vm_compute; reflexivity))).
Defined.

Lemma inFlight_app {T : Type} (a b : list (SchedEvent T)) :
  inFlight (a ++ b) = inFlight a + inFlight b.
Proof.
  induction a as [|[t|t] a IH]; simpl; rewrite ?IH; lia.
Qed.

Lemma startedTasks_app {T : Type} (a b : list (SchedEvent T)) :
  startedTasks (a ++ b) = startedTasks a ++ startedTasks b.
Proof.
  induction a as [|[t|t] a IH]; simpl; rewrite ?IH; reflexivity.
Qed.

Lemma waitedTasks_app {T : Type} (a b : list (SchedEvent T)) :
  waitedTasks (a ++ b) = waitedTasks a ++ waitedTasks b.
Proof.
  induction a as [|[t|t] a IH]; simpl; rewrite ?IH; reflexivity.
Qed.

Lemma started_only {T : Type} (c : list T) :
  inFlight (map TaskStarted c) = Z.of_nat (length c)
  /\ startedTasks (map TaskStarted c) = c
  /\ waitedTasks (map TaskStarted c) = [].
Proof.
  induction c as [|t c (I1 & I2 & I3)]; simpl; [auto|].
  rewrite I1, I2, I3. repeat split; auto; lia.
Qed.

Lemma waited_only {T : Type} (c : list T) :
  inFlight (map TaskWaited c) = - Z.of_nat (length c)
  /\ startedTasks (map TaskWaited c) = []
  /\ waitedTasks (map TaskWaited c) = c.
Proof.
  induction c as [|t c (I1 & I2 & I3)]; simpl; [auto|].
  rewrite I1, I2, I3. repeat split; auto; lia.
Qed.

(** Within one chunk the tasks in flight never exceed the chunk. *)
Lemma runChunk_prefix {T : Type} (c : list T) pre post :
  runChunk c = pre ++ post -> 0 <= inFlight pre <= Z.of_nat (length c).
Proof.
  unfold runChunk. intros E. apply app_eq_app in E as [l [[E1 E2]|[E1 E2]]].
  - apply map_eq_app in E1 as (c1 & c2 & -> & <- & _).
    destruct (started_only c1) as [-> _]. rewrite length_app. lia.
  - subst pre. apply map_eq_app in E2 as (c1 & c2 & -> & <- & _).
    rewrite inFlight_app.
    destruct (started_only (c1 ++ c2)) as [-> _].
    destruct (waited_only c1) as [-> _]. rewrite length_app. lia.
Qed.

Lemma runChunk_whole {T : Type} (c : list T) :
  inFlight (runChunk c) = 0
  /\ startedTasks (runChunk c) = c /\ waitedTasks (runChunk c) = c.
Proof.
  unfold runChunk. rewrite inFlight_app, startedTasks_app, waitedTasks_app.
  destruct (started_only c) as (-> & -> & ->).
  destruct (waited_only c) as (-> & -> & ->).
  rewrite app_nil_r. repeat split; auto; lia.
Qed.

Lemma scheduleLoop_trace {T : Type} (k : nat) (chunks : list (list T)) :
  Forall (fun c => (length c <= k)%nat) chunks ->
  startedTasks (scheduleLoop chunks) = concat chunks
  /\ waitedTasks (scheduleLoop chunks) = concat chunks
  /\ inFlight (scheduleLoop chunks) = 0
  /\ forall pre post,
       scheduleLoop chunks = pre ++ post -> 0 <= inFlight pre <= Z.of_nat k.
Proof.
  induction 1 as [|c chunks Hc _ (I1 & I2 & I3 & I4)]; simpl.
  - repeat split; auto; destruct pre; try discriminate; simpl; lia.
  - rewrite startedTasks_app, waitedTasks_app, inFlight_app, I1, I2, I3.
    destruct (runChunk_whole c) as (W1 & W2 & W3). rewrite W1, W2, W3.
    repeat split; auto.
    + apply app_eq_app in H as [l [[E1 E2]|[E1 E2]]].
      * apply runChunk_prefix in E1. lia.
      * subst pre. rewrite inFlight_app, W1. apply I4 in E2. lia.
    + apply app_eq_app in H as [l [[E1 E2]|[E1 E2]]].
      * apply runChunk_prefix in E1. lia.
      * subst pre. rewrite inFlight_app, W1. apply I4 in E2. lia.
Qed.

(** X12: with a positive degree of parallelism the scheduling loop starts
    every task once and waits for every task once, both in the order of
    the list, and at no point are more tasks started and not yet waited
    for than the degree of parallelism. *)
Theorem schedule_bounds_concurrency {T : Type} (tasks : list T) (parrallel : Z) :
  0 < parrallel ->
  exists trace,
    schedule tasks parrallel = Some trace
    /\ startedTasks trace = tasks
    /\ waitedTasks trace = tasks
    /\ forall pre post, trace = pre ++ post -> 0 <= inFlight pre <= parrallel.
Proof.
  intros H. unfold schedule, chunkBy.
  destruct (Z.eqb_spec parrallel 0) as [|_]; [lia|].
  destruct (Z.ltb_spec (Z.of_nat (length tasks) ÷ parrallel + 1) 0) as [Hq|_].
  { pose proof (Z.quot_pos (Z.of_nat (length tasks)) parrallel). lia. }
  destruct (Z_lt_dec 0 parrallel) as [H'|]; [|contradiction].
  destruct (chunkLoop_spec parrallel H' tasks []) as (init & last & E & Hc & Hf & Hl).
  simpl in E. rewrite E. eexists. split; [reflexivity|].
  destruct (scheduleLoop_trace (Z.to_nat parrallel) (init ++ [last]))
    as (S1 & S2 & _ & S4).
  { apply Forall_app. split.
    - eapply Forall_impl; [exact Hf|]. simpl. intros c ->. lia.
    - constructor; [exact Hl|constructor]. }
  rewrite S1, S2, Hc. split; [reflexivity|]. split; [reflexivity|].
  intros pre post Ep. apply S4 in Ep. lia.
Qed.

Lemma schedule_bounds_concurrency_witness :
  0 < 2
  /\ schedule ["t1"; "t2"; "t3"] 2
     = Some [TaskStarted "t1"; TaskStarted "t2"; TaskWaited "t1"; TaskWaited "t2";
             TaskStarted "t3"; TaskWaited "t3"]
  /\ exists trace,
       schedule ["t1"; "t2"; "t3"] 2 = Some trace
       /\ startedTasks trace = ["t1"; "t2"; "t3"]
       /\ waitedTasks trace = ["t1"; "t2"; "t3"]
       /\ forall pre post, trace = pre ++ post -> 0 <= inFlight pre <= 2.
Proof.
  split; [lia|]. split; [vm_compute; reflexivity|].
  apply (schedule_bounds_concurrency ["t1"; "t2"; "t3"] 2). lia.
Defined.

End ChunksMore.

(** ** The batched loader: commit, rollback and what follows *)

Section LoaderMore.
Import mssql.

Lemma driverCall_tables c : preserves tables (driverCall c).
Proof. intros d. unfold driverCall. destruct (script d); reflexivity. Qed.

Lemma Rollback_tables bi : preserves tables (Rollback bi).
Proof.
  unfold Rollback, Tx_Rollback. destruct (tx bi) as [t|]; [|apply preserves_ret].
  apply preserves_bind; [apply preserves_get|]. intros d.
  destruct (lookupTx t (openTxs d)); [|apply preserves_ret].
  apply preserves_bind; [apply driverCall_tables|]. intros e.
  apply preserves_bind; [|intros _; apply preserves_ret].
  apply preserves_modify. intros []; reflexivity.
Qed.

Lemma insertAll_table rows : forall bi d r bi' d',
  paired bi -> commitCount bi <> 0 ->
  insertAll rows bi d = Returns (r, bi') d' ->
  table bi' = table bi /\ commitCount bi' = commitCount bi.
Proof.
  induction rows as [|row rows IH]; intros bi d r bi' d' Hp Hc H; simpl in H.
  - injection H as <- <- <-. auto.
  - unfold bind in H.
    destruct (Insert_paired bi row d Hp Hc) as (r1 & bi1 & d1 & E & Hp1 & Hc1 & Ht1).
    rewrite E in H. simpl in H. destruct r1 as [e|].
    + injection H as <- <- <-. auto.
    + apply IH in H as [Ht Hcc]; [|exact Hp1|congruence]. split; congruence.
Qed.

(** A run of accepted rows on a fresh loader, as a committed part and a
    buffered rest. *)
Lemma insertAll_fresh tbl cols rows d bi1 d1 :
  openTxs d = [] ->
  insertAll rows (NewBulkInsert tbl cols) d = Returns (None, bi1) d1 ->
  table bi1 = tbl
  /\ exists com pend,
      map (map coerce) rows = com ++ pend
      /\ buffers bi1 d1 pend
      /\ count bi1 = Z.of_nat (length pend)
      /\ rowsOf tbl d1 = rowsOf tbl d ++ com
      /\ (exists k, Z.of_nat (length com) = k * 50000)
      /\ Z.of_nat (length pend) < 50000.
Proof.
  intros Hd H.
  destruct (insertAll_table rows (NewBulkInsert tbl cols) d None bi1 d1) as [Ht _];
    [exact I|discriminate|exact H|].
  split; [exact Ht|].
  destruct (insertAll_buffers rows (NewBulkInsert tbl cols) d [] bi1 d1)
    as (com & pend & k & E & Hk & _ & Hlt & Hn & Hb & Hr);
    simpl; auto; try lia.
  exists com, pend. simpl in Hk, Hlt. repeat split; eauto.
Qed.

(** A run of accepted rows on a fresh loader followed by a successful
    [Commit]. *)
Lemma insertAll_Commit_rows tbl cols rows d bi1 d1 bi2 d2 :
  openTxs d = [] ->
  insertAll rows (NewBulkInsert tbl cols) d = Returns (None, bi1) d1 ->
  Commit bi1 d1 = Returns (None, bi2) d2 ->
  rowsOf tbl d2 = rowsOf tbl d ++ map (map coerce) rows
  /\ openTxs d2 = []
  /\ stmt bi2 = None /\ tx bi2 = None /\ count bi2 = 0
  /\ Commit bi2 d2 = Returns (None, bi2) d2.
Proof.
  intros Hd H HC.
  destruct (insertAll_fresh _ _ _ _ _ _ Hd H)
    as (Ht & com & pend & E & Hb & Hn & Hr & _ & _).
  apply (Commit_success _ _ _ _ (buffers_owns _ _ _ Hb)) in HC
    as [(Hs & -> & ->)|(t & tbl' & rows' & Hs & Hd1 & Hd2 & Htab & ->)].
  - destruct pend as [|p pend].
    + destruct Hb as (_ & Hx & Ho). rewrite E, app_nil_r, Hr.
      repeat split; auto. unfold Commit. rewrite Hs. reflexivity.
    + destruct Hb as (t & Hs' & _). congruence.
  - destruct pend as [|p pend].
    + destruct Hb as (Hs' & _). congruence.
    + destruct Hb as (t' & _ & _ & Ho). rewrite Ho in Hd1.
      injection Hd1 as <- <- <-. rewrite Ht in Htab.
      rewrite (rowsOf_appendRows _ _ _ _ Htab), Hr, E, <- app_assoc.
      repeat split; auto.
Qed.

(** X13: rows inserted on a fresh loader and then committed are all in
    the table, in the order of insertion and after the rows the table had,
    however many threshold commits happened on the way; no transaction is
    left open, the loader is back in its initial state, and one more
    [Commit] does nothing. *)
Theorem inserts_then_Commit_store_every_row tbl cols rows d bi1 d1 bi2 d2 :
  openTxs d = [] ->
  insertAll rows (NewBulkInsert tbl cols) d = Returns (None, bi1) d1 ->
  Commit bi1 d1 = Returns (None, bi2) d2 ->
  rowsOf tbl d2 = rowsOf tbl d ++ map (map coerce) rows
  /\ openTxs d2 = []
  /\ stmt bi2 = None /\ tx bi2 = None /\ count bi2 = 0
  /\ Commit bi2 d2 = Returns (None, bi2) d2.
Proof.
  intros Hd H HC.
  destruct (insertAll_fresh _ _ _ _ _ _ Hd H)
    as (Ht & com & pend & E & Hb & Hn & Hr & _ & _).
  apply (Commit_success _ _ _ _ (buffers_owns _ _ _ Hb)) in HC
    as [(Hs & -> & ->)|(t & tbl' & rows' & Hs & Hd1 & Hd2 & Htab & ->)].
  - destruct pend as [|p pend].
    + destruct Hb as (_ & Hx & Ho). rewrite E, app_nil_r, Hr.
      repeat split; auto. unfold Commit. rewrite Hs. reflexivity.
    + destruct Hb as (t & Hs' & _). congruence.
  - destruct pend as [|p pend].
    + destruct Hb as (Hs' & _). congruence.
    + destruct Hb as (t' & _ & _ & Ho). rewrite Ho in Hd1.
      injection Hd1 as <- <- <-. rewrite Ht in Htab.
      rewrite (rowsOf_appendRows _ _ _ _ Htab), Hr, E, <- app_assoc.
      repeat split; auto.
Qed.

Lemma inserts_then_Commit_store_every_row_witness :
  openTxs emptyStore = []
  /\ rowsOf exampleTable
       (finalState
          (Commit (setCount 2 (setStmtTx (Some {| stmt_tx := 0 |}) (Some 0%nat)
                                 (NewBulkInsert exampleTable ["a"])))
             (finalState (insertAll [[VInt 1]; [VPtr (VBytes [Byte.x32])]]
                            (NewBulkInsert exampleTable ["a"]) emptyStore))))
     = rowsOf exampleTable emptyStore
         ++ map (map coerce) [[VInt 1]; [VPtr (VBytes [Byte.x32])]].
Proof.
  split; [reflexivity|].
  refine (proj1 (inserts_then_Commit_store_every_row exampleTable ["a"]
                   [[VInt 1]; [VPtr (VBytes [Byte.x32])]] emptyStore
                   _ _ (NewBulkInsert exampleTable ["a"]) _ eq_refl _ _)).
  - vm_compute. reflexivity.
  - vm_compute. reflexivity.
Defined.

(** X14: a rollback after a run of accepted rows undoes only the rows
    accepted since the last threshold commit: the batches of 50,000 already
    committed stay in the table, the buffered rows do not reach it, and no
    transaction is left open.  With nothing buffered the rollback is the
    no-active-transaction error and the store is untouched. *)
Theorem Rollback_drops_only_the_buffer tbl cols rows d bi1 d1 r d2 :
  openTxs d = [] ->
  insertAll rows (NewBulkInsert tbl cols) d = Returns (None, bi1) d1 ->
  Rollback bi1 d1 = Returns r d2 ->
  exists com pend k,
    map (map coerce) rows = com ++ pend
    /\ Z.of_nat (length com) = k * 50000
    /\ Z.of_nat (length pend) < 50000
    /\ rowsOf tbl d2 = rowsOf tbl d ++ com
    /\ openTxs d2 = []
    /\ (pend = [] -> r = Some noActiveTransaction /\ d2 = d1).
Proof.
  intros Hd H HR.
  destruct (insertAll_fresh _ _ _ _ _ _ Hd H)
    as (Ht & com & pend & E & Hb & Hn & Hr & [k Hk] & Hlt).
  exists com, pend, k. split; [exact E|]. split; [exact Hk|]. split; [exact Hlt|].
  pose proof (Rollback_tables bi1 d1) as Htab. rewrite HR in Htab. simpl in Htab.
  split; [unfold rowsOf in *; rewrite Htab; exact Hr|].
  unfold Rollback in HR. destruct pend as [|p pend].
  - destruct Hb as (_ & Hx & Ho). rewrite Hx in HR. injection HR as <- <-.
    split; [exact Ho|]. auto.
  - destruct Hb as (t & _ & Hx & Ho). rewrite Hx in HR.
    apply Tx_Rollback_any in HR. rewrite Ho, lookupTx_single, removeTx_single in HR.
    split; [exact HR|]. discriminate.
Qed.

Lemma Rollback_drops_only_the_buffer_witness :
  openTxs emptyStore = []
  /\ exists com pend k,
       map (map coerce) [[VInt 1]; [VInt 2]] = com ++ pend
       /\ Z.of_nat (length com) = k * 50000
       /\ Z.of_nat (length pend) < 50000
       /\ rowsOf exampleTable
            (finalState
               (Rollback (setCount 2 (setStmtTx (Some {| stmt_tx := 0 |}) (Some 0%nat)
                                        (NewBulkInsert exampleTable ["a"])))
                  (finalState (insertAll [[VInt 1]; [VInt 2]]
                                 (NewBulkInsert exampleTable ["a"]) emptyStore))))
          = rowsOf exampleTable emptyStore ++ com
       /\ openTxs
            (finalState
               (Rollback (setCount 2 (setStmtTx (Some {| stmt_tx := 0 |}) (Some 0%nat)
                                        (NewBulkInsert exampleTable ["a"])))
                  (finalState (insertAll [[VInt 1]; [VInt 2]]
                                 (NewBulkInsert exampleTable ["a"]) emptyStore))))
          = []
       /\ (pend = [] ->
           @None error = Some noActiveTransaction
           /\ finalState
                (Rollback (setCount 2 (setStmtTx (Some {| stmt_tx := 0 |}) (Some 0%nat)
                                         (NewBulkInsert exampleTable ["a"])))
                   (finalState (insertAll [[VInt 1]; [VInt 2]]
                                  (NewBulkInsert exampleTable ["a"]) emptyStore)))
              = finalState (insertAll [[VInt 1]; [VInt 2]]
                              (NewBulkInsert exampleTable ["a"]) emptyStore)).
Proof.
  split; [reflexivity|].
  apply (Rollback_drops_only_the_buffer exampleTable ["a"] [[VInt 1]; [VInt 2]]
           emptyStore
           (setCount 2 (setStmtTx (Some {| stmt_tx := 0 |}) (Some 0%nat)
                          (NewBulkInsert exampleTable ["a"])))).
  - reflexivity.
  - vm_compute. reflexivity.
  - vm_compute. reflexivity.
Defined.



End LoaderMore.

(** ** The writer stage: events and the re-creation of foreign keys *)

Section ReturnsLemmas.
Context {S : Type}.

Lemma returns_ret {A} (a : A) : returns (@ret S A a).
Proof. intros s. unfold ret. eauto. Qed.

Lemma returns_get : returns (@get S).
Proof. intros s. unfold get. eauto. Qed.

Lemma returns_modify (f : S -> S) : returns (modify f).
Proof. intros s. unfold modify. eauto. Qed.

Lemma returns_bind {A B} (m : M S A) (k : A -> M S B) :
  returns m -> (forall a, returns (k a)) -> returns (bind m k).
Proof.
  intros Hm Hk s. unfold bind. destruct (Hm s) as (a & s' & ->). apply Hk.
Qed.

End ReturnsLemmas.

Lemma returns_driverCall c : returns (mssql.driverCall c).
Proof.
  intros d. destruct (driverCall_returns c d) as [o E]. rewrite E. eauto.
Qed.

(** Solves [returns] goals over the store by walking through the code. *)
Ltac returns_db :=
  repeat first
    [ apply returns_ret | apply returns_get | apply returns_modify
    | apply returns_driverCall
    | apply returns_bind; [| intros ? ]
    | match goal with
      | |- returns (match ?x with _ => _ end) => destruct x
      | |- returns (if ?x then _ else _) => destruct x
      end ].

Section WriterMore.
Import mssql copy.

Lemma dropLoop_returns fks : returns (dropLoop fks).
Proof.
  induction fks as [|fk fks IH]; simpl; [apply returns_ret|].
  unfold DropForeignKey. returns_db. exact IH.
Qed.

Lemma AddForeignKeys_returns fks : returns (AddForeignKeys fks).
Proof.
  induction fks as [|fk fks IH]; simpl; [apply returns_ret|].
  unfold AddForeignKey. returns_db. exact IH.
Qed.

Lemma GetReferencedForeignKeys_returns t : returns (GetReferencedForeignKeys t).
Proof. unfold GetReferencedForeignKeys. returns_db. Qed.

Lemma DropReferencedForeignKeys_returns t : returns (DropReferencedForeignKeys t).
Proof.
  unfold DropReferencedForeignKeys.
  apply returns_bind; [apply GetReferencedForeignKeys_returns|].
  intros [fks [e|]]; simpl; [apply returns_ret|apply dropLoop_returns].
Qed.

Lemma EmptyTable_returns t : returns (EmptyTable t).
Proof. unfold EmptyTable. returns_db. Qed.

(** A store operation run by the writer touches neither the event channel
    nor the wait group. *)
Lemma onTarget_run {A} (m : M DB A) v a d' :
  m (targetDB v) = Returns a d' ->
  onTarget m v = Returns a {| targetDB := d'; eventChan := eventChan v; wg := wg v |}.
Proof. intros E. unfold onTarget, zoom. rewrite E. reflexivity. Qed.

Lemma onTarget_run' {A} (m : M DB A) d ev g a d' :
  m d = Returns a d' ->
  onTarget m {| targetDB := d; eventChan := ev; wg := g |}
  = Returns a {| targetDB := d'; eventChan := ev; wg := g |}.
Proof. intros E. unfold onTarget, zoom. simpl. rewrite E. reflexivity. Qed.

Lemma bind_run {S A B} (m : M S A) (k : A -> M S B) s a s' :
  m s = Returns a s' -> bind m k s = k a s'.
Proof. intros E. unfold bind. rewrite E. reflexivity. Qed.

Lemma send_run e v :
  send e v = Returns tt {| targetDB := targetDB v; eventChan := eventChan v ++ [e];
                           wg := wg v |}.
Proof. reflexivity. Qed.

(** The setup of the first row returns; it sends nothing when it
    succeeds and one error event when it gives up. *)
Lemma firstRowSetup_events ct v :
  exists r v',
    firstRowSetup ct v = Returns r v' /\ wg v' = wg v
    /\ match r with
       | Some _ => eventChan v' = eventChan v
       | None => exists msg,
                   eventChan v' = eventChan v ++ [monitor.ErrorEvent (table ct) msg]
       end.
Proof.
  unfold firstRowSetup, fail.
  destruct (GetReferencedForeignKeys_returns (table ct) (targetDB v))
    as ([fks e] & d1 & E1).
  rewrite (bind_run _ _ _ _ _ (onTarget_run _ _ _ _ E1)).
  change (snd (fks, e)) with e. change (fst (fks, e)) with fks.
  destruct e as [e|].
  { rewrite (bind_run _ _ _ _ _ (send_run _ _)). unfold ret.
    eexists None, _. split; [reflexivity|]. simpl. eauto. }
  destruct (DropReferencedForeignKeys_returns (table ct) d1) as (e2 & d2 & E2).
  rewrite (bind_run _ _ _ _ _ (onTarget_run' _ _ _ _ _ _ E2)).
  destruct e2 as [e2|].
  { rewrite (bind_run _ _ _ _ _ (send_run _ _)). unfold ret.
    eexists None, _. split; [reflexivity|]. simpl. eauto. }
  destruct (EmptyTable_returns (table ct) d2) as (e3 & d3 & E3).
  rewrite (bind_run _ _ _ _ _ (onTarget_run' _ _ _ _ _ _ E3)).
  destruct e3 as [e3|].
  { rewrite (bind_run _ _ _ _ _ (send_run _ _)). unfold ret.
    eexists None, _. split; [reflexivity|]. simpl. eauto. }
  unfold ret. eexists (Some fks), _. split; [reflexivity|]. simpl. auto.
Qed.

(** The loop of the writer returns: it has sent one progress event per
    row inserted, followed by one error event if it gave up. *)
Lemma writerLoop_events ct rows : forall i fks bi v,
  paired bi -> commitCount bi <> 0 ->
  exists r v' k,
    writerLoop ct rows i fks bi v = Returns r v' /\ wg v' = wg v
    /\ match r with
       | Some (_, bi') =>
           eventChan v' = eventChan v ++ replicate k (rowCopied ct)
           /\ k = length rows /\ paired bi'
       | None =>
           (k < length rows)%nat
           /\ exists msg,
               eventChan v' = eventChan v ++ replicate k (rowCopied ct)
                                ++ [monitor.ErrorEvent (table ct) msg]
       end.
Proof.
  induction rows as [|row rows IH]; intros i fks bi v Hp Hc; cbn [writerLoop].
  - exists (Some (fks, bi)), v, 0%nat. unfold ret. split; [reflexivity|].
    split; [reflexivity|]. simpl. rewrite app_nil_r. auto.
  - assert (exists r v1,
               (if Z.eqb i 0 then firstRowSetup ct else ret (Some fks)) v = Returns r v1
               /\ wg v1 = wg v
               /\ match r with
                  | Some _ => eventChan v1 = eventChan v
                  | None => exists msg,
                      eventChan v1 = eventChan v ++ [monitor.ErrorEvent (table ct) msg]
                  end) as (r0 & v1 & E0 & Hw0 & He0).
    { destruct (Z.eqb i 0); [apply firstRowSetup_events|].
      exists (Some fks), v. unfold ret. auto. }
    rewrite (bind_run _ _ _ _ _ E0). destruct r0 as [fks1|].
    2:{ exists None, v1, 0%nat. unfold ret. split; [reflexivity|].
        split; [exact Hw0|]. split; [simpl; lia|]. exact He0. }
    destruct (Insert_paired bi row (targetDB v1) Hp Hc)
      as (r1 & bi1 & d1 & E1 & Hp1 & Hc1 & _).
    rewrite (bind_run _ _ _ _ _ (onTarget_run _ _ _ _ E1)).
    change (fst (r1, bi1)) with r1. change (snd (r1, bi1)) with bi1.
    destruct r1 as [e|].
    + destruct (Rollback_returns bi1 d1) as (o & d2 & E2).
      rewrite (bind_run _ _ _ _ _ (onTarget_run' _ _ _ _ _ _ E2)).
      unfold fail. rewrite (bind_run _ _ _ _ _ (send_run _ _)). unfold ret.
      eexists None, _, 0%nat. split; [reflexivity|]. simpl.
      split; [exact Hw0|]. split; [lia|]. rewrite He0. eauto.
    + rewrite (bind_run _ _ _ _ _ (send_run _ _)).
      match goal with |- context [writerLoop ct rows ?i' fks1 bi1 ?v2] =>
        destruct (IH i' fks1 bi1 v2 Hp1) as (r & v' & k & E & Hw & Hr) end.
      { congruence. }
      exists r, v', (S k). split; [exact E|]. simpl in Hw, Hr.
      split; [congruence|]. rewrite He0 in Hr.
      destruct r as [[fks' bi']|].
      * destruct Hr as (Hev & Hk & Hp'). split; [|split; [simpl; lia|exact Hp']].
        rewrite Hev, <- app_assoc. reflexivity.
      * destruct Hr as (Hk & msg & Hev). split; [simpl; lia|].
        exists msg. rewrite Hev, <- app_assoc. reflexivity.
Qed.

Lemma Insert_logs_notAdd bi row : logs calls notAddCall (Insert bi row).
Proof.
  unfold Insert, Stmt_ExecContext. cbv zeta.
  apply logs_bind; [apply getStmt_logs; intros; reflexivity|].
  intros [[s|e] bi']; logs_db; try reflexivity.
  apply Commit_logs; intros; reflexivity.
Qed.

(** Nothing in the loop of the writer re-creates a foreign key. *)
Lemma writerLoop_notAdd ct rows : forall i fks bi,
  logs targetCalls notAddCall (writerLoop ct rows i fks bi).
Proof.
  induction rows as [|row rows IH]; intros i fks bi; simpl writerLoop.
  - apply logs_ret.
  - apply logs_bind.
    { destruct (Z.eqb i 0); [|apply logs_ret].
      apply (logs_weaken _ _ setupCall); [|apply firstRowSetup_logs].
      intros []; unfold setupCall, notAddCall; simpl; congruence. }
    intros [fks'|]; [|apply logs_ret].
    apply logs_bind.
    { apply logs_onTarget, Insert_logs_notAdd. }
    intros [[e|] bi']; simpl.
    + apply logs_bind.
      { apply logs_onTarget. unfold Rollback, Tx_Rollback. logs_db; reflexivity. }
      intros _. apply logs_bind; [apply send_logs|intros _; apply logs_ret].
    + apply logs_bind; [apply send_logs|]. intros _. apply IH.
Qed.

(** What a run of the writer amounts to: its result, its events and its
    calls on the target store. *)
Lemma writer_outcome ct cols rows v :
  exists v' k term extra,
    writer ct cols rows v = Returns tt v'
    /\ wg v' = wg v - 1
    /\ eventChan v' = eventChan v ++ replicate k (rowCopied ct) ++ [term]
    /\ (k <= length rows)%nat
    /\ terminalEvent ct term
    /\ (term = monitor.CopyTaskFinishedEvent (table ct) -> k = length rows)
    /\ targetCalls v' = targetCalls v ++ extra
    /\ (forall fk, In (ExecAddConstraint fk) extra -> k = length rows).
Proof.
  unfold writer, defer. cbv zeta.
  destruct (writerLoop_events ct rows 0 []
              (fst (DB_BulkInsert (table ct) cols)) v)
    as (r & v1 & k & E & Hw & Hr); [exact I|discriminate|].
  destruct (writerLoop_notAdd ct rows 0 []
              (fst (DB_BulkInsert (table ct) cols)) v) as (x1 & Hx1 & F1).
  rewrite E in Hx1. simpl in Hx1. unfold targetCalls in Hx1.
  rewrite (bind_run _ _ _ _ _ E). destruct r as [[fks bi]|].
  - destruct Hr as (Hev & Hk & Hp).
    destruct (Commit_paired bi (targetDB v1) Hp) as (rc & bi2 & d2 & EC & _).
    destruct (Commit_logs (fun _ => True) bi (fun _ => I) (fun _ => I) (fun _ => I)
                (targetDB v1)) as (x2 & Hx2 & _).
    rewrite EC in Hx2. simpl in Hx2.
    rewrite (bind_run _ _ _ _ _ (onTarget_run _ _ _ _ EC)).
    change (fst (rc, bi2)) with rc. destruct rc as [e|].
    + unfold fail. rewrite send_run. eexists _, k, _, (x1 ++ x2).
      split; [reflexivity|]. unfold targetCalls. simpl.
      rewrite Hev, <- app_assoc, Hx2, Hx1, <- app_assoc.
      split; [lia|]. split; [reflexivity|]. split; [lia|].
      split; [right; eauto|]. split; [discriminate|]. auto.
    + destruct (Nat.ltb 0 (length fks)).
      * destruct (AddForeignKeys_returns fks d2) as (ea & d3 & EA).
        destruct (AddForeignKeys_logs fks d2) as (x3 & Hx3 & _).
        rewrite EA in Hx3. simpl in Hx3.
        rewrite (bind_run _ _ _ _ _ (onTarget_run' _ _ _ _ _ _ EA)).
        destruct ea as [e|]; unfold fail; rewrite send_run;
          eexists _, k, _, (x1 ++ x2 ++ x3);
          (split; [reflexivity|]); unfold targetCalls; simpl;
          rewrite Hev, <- app_assoc, Hx3, Hx2, Hx1, <- !app_assoc;
          (split; [lia|]); (split; [reflexivity|]); (split; [lia|]).
        -- split; [right; eauto|]. split; [discriminate|]. auto.
        -- split; [left; reflexivity|]. auto.
      * rewrite send_run. eexists _, k, _, (x1 ++ x2).
        split; [reflexivity|]. unfold targetCalls. simpl.
        rewrite Hev, <- app_assoc, Hx2, Hx1, <- app_assoc.
        split; [lia|]. split; [reflexivity|]. split; [lia|].
        split; [left; reflexivity|]. auto.
  - destruct Hr as (Hk & msg & Hev). unfold ret.
    eexists _, k, _, x1. split; [reflexivity|]. unfold targetCalls. simpl.
    rewrite Hev, Hx1. split; [lia|]. split; [reflexivity|]. split; [lia|].
    split; [right; eauto|]. split; [discriminate|]. split; [reflexivity|].
    intros fk Hin. apply list_elem_of_In in Hin. rewrite Forall_forall in F1.
    apply F1 in Hin. discriminate Hin.
Qed.


(** X17: the writer re-creates foreign keys only after every row was
    inserted: when it stops early, on a failed setup or a failed insert,
    the keys the setup dropped are not put back. *)
Theorem writer_restores_keys_only_after_all_rows ct cols rows v :
  exists v' k term extra,
    writer ct cols rows v = Returns tt v'
    /\ eventChan v' = eventChan v ++ replicate k (rowCopied ct) ++ [term]
    /\ targetCalls v' = targetCalls v ++ extra
    /\ (forall fk, In (ExecAddConstraint fk) extra -> k = length rows).
Proof.
  destruct (writer_outcome ct cols rows v)
    as (v' & k & term & extra & H1 & _ & H3 & _ & _ & _ & H7 & H8).
  exists v', k, term, extra. auto.
Qed.

Lemma onTarget_Returns {A} (m : M DB A) v a v' :
  onTarget m v = Returns a v' ->
  exists d', m (targetDB v) = Returns a d'
             /\ v' = {| targetDB := d'; eventChan := eventChan v; wg := wg v |}.
Proof.
  unfold onTarget, zoom. destruct (m (targetDB v)) as [a' d'|d']; [|discriminate].
  intros E. injection E as <- <-. eauto.
Qed.

Lemma AddForeignKeys_frame fks : forall d r d',
  AddForeignKeys fks d = Returns r d' ->
  tables d' = tables d /\ openTxs d' = openTxs d.
Proof.
  induction fks as [|fk fks IH]; intros d r d' H; simpl in H.
  - injection H as <- <-. auto.
  - apply bind_Returns in H as (e & d1 & H1 & H). unfold AddForeignKey in H1.
    apply bind_Returns in H1 as (e0 & d0 & H0 & H1).
    apply driverCall_frame in H0 as (Ho & Ht & _).
    destruct e0 as [e0|].
    + injection H1 as <- <-. injection H as <- <-. auto.
    + unfold bind, modify, ret in H1. injection H1 as <- <-.
      apply IH in H as [Ht' Ho']. simpl in *. split; congruence.
Qed.

Lemma dropLoop_frame fks : forall d r d',
  dropLoop fks d = Returns r d' ->
  tables d' = tables d /\ openTxs d' = openTxs d.
Proof.
  induction fks as [|fk fks IH]; intros d r d' H; simpl in H.
  - injection H as <- <-. auto.
  - apply bind_Returns in H as (e & d1 & H1 & H). unfold DropForeignKey in H1.
    apply bind_Returns in H1 as (e0 & d0 & H0 & H1).
    apply driverCall_frame in H0 as (Ho & Ht & _).
    destruct e0 as [e0|].
    + injection H1 as <- <-. injection H as <- <-. auto.
    + unfold bind, modify, ret in H1. injection H1 as <- <-.
      apply IH in H as [Ht' Ho']. simpl in *. split; congruence.
Qed.

Lemma GetReferencedForeignKeys_frame t d r d' :
  GetReferencedForeignKeys t d = Returns r d' ->
  tables d' = tables d /\ openTxs d' = openTxs d.
Proof.
  unfold GetReferencedForeignKeys. intros H.
  apply bind_Returns in H as (e & d1 & H1 & H).
  apply driverCall_frame in H1 as (Ho & Ht & _).
  destruct e; unfold bind, get, ret in H; injection H as <- <-; auto.
Qed.

(** A setup that succeeds leaves the table of the task empty and opens no
    transaction. *)
Lemma firstRowSetup_success ct v fks v' :
  firstRowSetup ct v = Returns (Some fks) v' ->
  rowsOf (table ct) (targetDB v') = []
  /\ openTxs (targetDB v') = openTxs (targetDB v)
  /\ eventChan v' = eventChan v /\ wg v' = wg v.
Proof.
  unfold firstRowSetup, fail. intros H.
  apply bind_Returns in H as ([fks1 e1] & v1 & H1 & H).
  apply onTarget_Returns in H1 as (d1 & H1 & ->).
  apply GetReferencedForeignKeys_frame in H1 as (Ht1 & Ho1).
  simpl in H. destruct e1 as [e1|]; [discriminate H|].
  apply bind_Returns in H as (e2 & v2 & H2 & H).
  apply onTarget_Returns in H2 as (d2 & H2 & ->). simpl in H2.
  unfold DropReferencedForeignKeys in H2.
  apply bind_Returns in H2 as ([fks2 e2'] & d2' & H2a & H2).
  apply GetReferencedForeignKeys_frame in H2a as (Ht2a & Ho2a).
  simpl in H2.
  assert (tables d2 = tables d2' /\ openTxs d2 = openTxs d2') as [Ht2 Ho2].
  { destruct e2' as [e2'|]; [injection H2 as <- <-; auto|].
    apply dropLoop_frame in H2. exact H2. }
  destruct e2 as [e2|]; [discriminate H|].
  apply bind_Returns in H as (e3 & v3 & H3 & H).
  apply onTarget_Returns in H3 as (d3 & H3 & ->). simpl in H3.
  unfold EmptyTable in H3.
  apply bind_Returns in H3 as (e3' & d3' & H3a & H3).
  apply driverCall_frame in H3a as (Ho3 & Ht3 & _).
  destruct e3' as [e3'|].
  { injection H3 as <- <-. discriminate H. }
  unfold bind, modify, ret in H3. injection H3 as <- <-.
  unfold ret in H. injection H as <- <-. simpl.
  split; [unfold rowsOf; simpl; rewrite lookup_insert_eq; reflexivity|].
  split; [congruence|]. auto.
Qed.

(** After the first row the loop of the writer is a run of [Insert]s. *)
Lemma writerLoop_later_insertAll ct rows : forall k fks bi v fks' bi' v',
  0 < k -> k + Z.of_nat (length rows) <= 2 ^ 64 ->
  writerLoop ct rows (wrap64 k) fks bi v = Returns (Some (fks', bi')) v' ->
  fks' = fks
  /\ insertAll rows bi (targetDB v) = Returns (None, bi') (targetDB v').
Proof.
  induction rows as [|row rows IH]; intros k fks bi v fks' bi' v' Hk Hlen H;
    cbn [writerLoop] in H.
  - injection H as <- <- <-. auto.
  - simpl length in Hlen.
    destruct (Z.eqb_spec (wrap64 k) 0) as [E|_].
    { exfalso. apply (wrap64_nonzero k); [lia|exact E]. }
    rewrite (bind_run _ _ _ _ _ (eq_refl : ret (Some fks) v = Returns (Some fks) v)) in H.
    apply bind_Returns in H as ([r1 bi1] & v1 & H1 & H).
    apply onTarget_Returns in H1 as (d1 & H1 & ->).
    change (fst (r1, bi1)) with r1 in H. change (snd (r1, bi1)) with bi1 in H.
    destruct r1 as [e|].
    + apply bind_Returns in H as (? & ? & _ & H).
      apply bind_Returns in H as (? & ? & _ & H). discriminate H.
    + rewrite (bind_run _ _ _ _ _ (send_run _ _)) in H.
      rewrite wrap64_succ in H. apply IH in H as [-> H]; [|lia|lia].
      split; [reflexivity|]. simpl in H. cbn [insertAll].
      rewrite (bind_run _ _ _ _ _ H1). exact H.
Qed.

(** X18: a task-finished event means the copy is complete: when the last
    event of the writer is task-finished, the target table holds exactly
    the rows received, in order and with pointer-wrapped byte values
    unwrapped, whatever it held before, and no transaction is left open.
    (The store is the writer's own, and the source delivers at most 2^64
    rows.) *)
Theorem writer_finished_means_copied ct cols rows v v' :
  rows <> [] -> Z.of_nat (length rows) <= 2 ^ 64 ->
  openTxs (targetDB v) = [] ->
  writer ct cols rows v = Returns tt v' ->
  last (eventChan v') = Some (monitor.CopyTaskFinishedEvent (table ct)) ->
  rowsOf (table ct) (targetDB v') = map (map coerce) rows
  /\ openTxs (targetDB v') = [].
Proof.
  intros Hne Hlen Hopen H Hlast. unfold writer, defer in H. cbv zeta in H.
  match type of H with match ?b with _ => _ end = _ =>
    destruct b as [[] s|s] eqn:EB end; [|discriminate H].
  injection H as <-. simpl in Hlast |- *.
  apply bind_Returns in EB as (r & v1 & EL & EK).
  destruct r as [[fks bi]|].
  2:{ unfold ret in EK. injection EK as <-.
      destruct (writerLoop_events ct rows 0 []
                  (fst (DB_BulkInsert (table ct) cols)) v)
        as (r & v1' & k & E & _ & Hr); [exact I|discriminate|].
      rewrite EL in E. injection E as <- <-.
      destruct Hr as (_ & msg & Hev). rewrite Hev, !app_assoc, last_snoc in Hlast.
      discriminate Hlast. }
  (* the loop *)
  destruct rows as [|row rows]; [contradiction|]. cbn [writerLoop] in EL.
  change (Z.eqb 0 0) with true in EL. cbv iota in EL.
  apply bind_Returns in EL as ([fks1|] & va & ES & EL); [|discriminate EL].
  apply firstRowSetup_success in ES as (Hrows & Hopen' & _).
  apply bind_Returns in EL as ([r1 bi1] & vb & H1 & EL).
  apply onTarget_Returns in H1 as (d1 & H1 & ->).
  change (fst (r1, bi1)) with r1 in EL. change (snd (r1, bi1)) with bi1 in EL.
  destruct r1 as [e|].
  { apply bind_Returns in EL as (? & ? & _ & EL).
    apply bind_Returns in EL as (? & ? & _ & EL). discriminate EL. }
  rewrite (bind_run _ _ _ _ _ (send_run _ _)) in EL.
  change (wrap64 (0 + 1)) with (wrap64 1) in EL.
  apply writerLoop_later_insertAll in EL as [-> EL]; [|lia|simpl length in Hlen; lia].
  simpl in EL.
  assert (insertAll (row :: rows) (NewBulkInsert (table ct) cols) (targetDB va)
          = Returns (None, bi) (targetDB v1)) as EI.
  { cbn [insertAll]. rewrite (bind_run _ _ _ _ _ H1). exact EL. }
  (* the commit *)
  apply bind_Returns in EK as ([rc bi2] & v2 & EC & EK).
  apply onTarget_Returns in EC as (d2 & EC & ->).
  change (fst (rc, bi2)) with rc in EK. destruct rc as [e|].
  { unfold fail in EK. rewrite send_run in EK. injection EK as <-.
    simpl in Hlast. rewrite last_snoc in Hlast. discriminate Hlast. }
  destruct (insertAll_Commit_rows _ _ _ _ _ _ _ _
              ltac:(rewrite Hopen'; exact Hopen) EI EC) as (HR & HO & _).
  rewrite Hrows in HR. simpl in HR.
  destruct (Nat.ltb 0 (length fks1)).
  - apply bind_Returns in EK as (ea & v3 & EA & EK).
    apply onTarget_Returns in EA as (d3 & EA & ->). simpl in EA.
    apply AddForeignKeys_frame in EA as (Ht & Ho).
    destruct ea as [e|]; unfold fail in EK; rewrite send_run in EK;
      injection EK as <-; simpl in *.
    + rewrite last_snoc in Hlast. discriminate Hlast.
    + unfold rowsOf in *. rewrite Ht, Ho. auto.
  - rewrite send_run in EK. injection EK as <-. simpl. auto.
Qed.

Lemma writer_finished_means_copied_witness :
  rowsOf exampleTable
    (targetDB
       (finalState
          (writer {| table := exampleTable; queryFilter := EmptyString; errs := [] |}
             ["a"] [[VInt 1]; [VPtr (VBytes [Byte.x32])]]
             {| targetDB := emptyStore; eventChan := []; wg := 1 |})))
  = map (map coerce) [[VInt 1]; [VPtr (VBytes [Byte.x32])]].
Proof.
  refine (proj1 (writer_finished_means_copied
                   {| table := exampleTable; queryFilter := EmptyString; errs := [] |}
                   ["a"] [[VInt 1]; [VPtr (VBytes [Byte.x32])]]
                   {| targetDB := emptyStore; eventChan := []; wg := 1 |}
                   _ _ _ _ _ _)).
  - discriminate.
  - simpl. lia.
  - reflexivity.
  - vm_compute. reflexivity.
  - vm_compute. reflexivity.
Defined.

End WriterMore.

(** ** The monitor: rendering order, termination and progress counts *)

Section MonitorMore.
Import monitor.

Lemma renderLines_shape keys : preserves shape (renderLines keys).
Proof.
  induction keys as [|key keys IH]; simpl; [apply preserves_ret|].
  apply preserves_bind; [apply preserves_get|]. intros m.
  destruct (monitors m !! key) as [r|]; [|apply preserves_panic].
  destruct (Z.eqb (RowTotal r) 0); [exact IH|].
  destruct (rowsCopied (lastRender m) !! key) as [lastCount|].
  - destruct (Z.ltb lastCount (RowsCopied r)); [|exact IH].
    repeat (apply preserves_bind; [apply preserves_modify; intros []; reflexivity|intros _]).
    exact IH.
  - repeat (apply preserves_bind; [apply preserves_modify; intros []; reflexivity|intros _]).
    exact IH.
Qed.

Lemma renderBars_shape keys : forall output,
  preserves shape (renderBars keys output).
Proof.
  induction keys as [|key keys IH]; intros output; simpl; [apply preserves_ret|].
  apply preserves_bind; [apply preserves_get|]. intros m.
  destruct (monitors m !! key) as [r|]; [|apply preserves_panic].
  destruct (err r); apply IH.
Qed.

Lemma clearLines_shape n m :
  shape (fold_right (fun (_ : nat) acc =>
                       w_Write [Text (esc +:+ "[1F" +:+ esc +:+ "[2K")] acc) m n)
  = shape m.
Proof. induction n as [|x n IH]; simpl; auto. Qed.

Lemma render_shape : preserves shape render.
Proof.
  unfold render. apply preserves_bind; [apply preserves_get|]. intros m.
  destruct (ci m); [apply renderLines_shape|].
  apply preserves_bind.
  { apply preserves_modify. intros s. apply clearLines_shape. }
  intros _. apply preserves_bind; [apply renderBars_shape|]. intros output.
  apply preserves_bind; apply preserves_modify || intros _.
  - intros []; reflexivity.
  - apply preserves_modify. intros []; reflexivity.
Qed.

Lemma shape_fields m m' :
  shape m' = shape m ->
  ci m' = ci m /\ monitors m' = monitors m /\ tickerStopped m' = tickerStopped m
  /\ sortedTableKeys m' = sortedTableKeys m.
Proof. unfold shape. intros E. injection E as -> -> -> ->. auto. Qed.

Lemma reported_shape m m' keys :
  monitors m' = monitors m -> reported m keys -> reported m' keys.
Proof. unfold reported. intros ->. auto. Qed.

Lemma renderLines_returns keys : forall m,
  reported m keys -> exists m', renderLines keys m = Returns tt m'.
Proof.
  induction keys as [|key keys IH]; intros m H; cbn [renderLines].
  - eexists. reflexivity.
  - inversion H as [|? ? [r Hr] Hrest]; subst.
    unfold bind at 1. unfold get. rewrite Hr.
    destruct (Z.eqb (RowTotal r) 0); [apply IH, Hrest|].
    destruct (rowsCopied (lastRender m) !! key) as [lastCount|];
      [destruct (Z.ltb lastCount (RowsCopied r)); [|apply IH, Hrest]|];
      unfold bind, modify; apply IH; exact Hrest.
Qed.

Lemma renderBars_returns keys : forall output m,
  reported m keys -> exists out m', renderBars keys output m = Returns out m'.
Proof.
  induction keys as [|key keys IH]; intros output m H; cbn [renderBars].
  - eexists _, _. reflexivity.
  - inversion H as [|? ? [r Hr] Hrest]; subst.
    unfold bind at 1. unfold get. rewrite Hr.
    destruct (err r); apply IH, Hrest.
Qed.

Lemma render_returns m :
  reported m (sortedTableKeys m) -> exists m', render m = Returns tt m'.
Proof.
  intros H. unfold render. unfold bind at 1. unfold get.
  destruct (ci m); [apply renderLines_returns, H|].
  unfold bind at 1. unfold modify at 1.
  match goal with |- context [bind (renderBars _ ?o) _ ?m1] =>
    destruct (renderBars_returns (sortedTableKeys m) o m1) as (out & m2 & E) end.
  { eapply reported_shape; [|exact H]. apply clearLines_monitors. }
  unfold bind at 1. rewrite E. unfold bind, modify. eexists. reflexivity.
Qed.

Lemma tracked_reported m : tracked m -> reported m (sortedTableKeys m).
Proof.
  intros [Hp _]. unfold reported. apply Forall_forall. intros k Hk.
  rewrite Hp in Hk. unfold tableKeys in Hk.
  apply list_elem_of_In, in_map_iff in Hk as ([k' r] & <- & Hin).
  apply list_elem_of_In, elem_of_map_to_list in Hin. simpl. eauto.
Qed.

Lemma tracked_shape m m' :
  monitors m' = monitors m -> sortedTableKeys m' = sortedTableKeys m ->
  tracked m -> tracked m'.
Proof. unfold tracked, tableKeys. intros -> ->. auto. Qed.

Lemma insertSorted_Permutation k l : Permutation (insertSorted k l) (k :: l).
Proof.
  induction l as [|x l IH]; simpl; [reflexivity|].
  destruct (String.leb k x); [reflexivity|].
  rewrite IH. apply perm_swap.
Qed.

Lemma sort_Strings_Permutation l : Permutation (sort_Strings l) l.
Proof.
  induction l as [|x l IH]; simpl; [reflexivity|].
  rewrite insertSorted_Permutation, IH. reflexivity.
Qed.

Lemma insertSorted_Sorted k l :
  Sorted (fun a b => String.leb a b = true) l ->
  Sorted (fun a b => String.leb a b = true) (insertSorted k l).
Proof.
  induction l as [|x l IH]; intros H; simpl.
  - constructor; constructor.
  - destruct (String.leb k x) eqn:E.
    + constructor; [exact H|]. constructor. exact E.
    + inversion H as [|? ? Hl Hhd]; subst. constructor; [apply IH, Hl|].
      assert (String.leb x k = true) as Hxk.
      { destruct (String.leb_total x k) as [T|T]; [exact T|congruence]. }
      destruct l as [|y l]; simpl.
      * constructor. exact Hxk.
      * destruct (String.leb k y); constructor; [exact Hxk|].
        inversion Hhd; subst. assumption.
Qed.

Lemma sort_Strings_Sorted l :
  Sorted (fun a b => String.leb a b = true) (sort_Strings l).
Proof.
  induction l as [|x l IH]; simpl; [constructor|]. apply insertSorted_Sorted, IH.
Qed.

(** Overwriting the reporter of a table leaves the keys as they are. *)
Lemma keys_update (ms : gmap string ProgressReporter) key r r' :
  ms !! key = Some r ->
  map fst (map_to_list (<[key := r']> ms)) = map fst (map_to_list ms).
Proof.
  intros Hk. apply elem_of_map_to_list in Hk.
  apply list_elem_of_lookup in Hk as [j Hj].
  rewrite (map_to_list_update ms j key r r' Hj).
  change (map fst) with (fmap (M := list) (@fst string ProgressReporter)).
  rewrite list_fmap_insert. simpl. apply list_insert_id.
  rewrite list_lookup_fmap, Hj. reflexivity.
Qed.

Lemma tracked_update m key r r' :
  monitors m !! key = Some r -> tracked m ->
  tracked (setMonitors (<[key := r']> (monitors m)) m).
Proof.
  intros Hk [Hp Hs]. unfold tracked, tableKeys. simpl.
  rewrite (keys_update _ _ _ r' Hk). auto.
Qed.

(** The tail of the task-finished and task-error cases on a monitor whose
    rendering order is in step with its reporters. *)
Lemma finishIfIdle_tracked m :
  tracked m ->
  exists o m',
    finishIfIdle m = Returns o m'
    /\ monitors m' = monitors m /\ sortedTableKeys m' = sortedTableKeys m
    /\ ((o = None /\ m' = m /\ anyRunning (monitors m) = true)
        \/ (o = Some None /\ anyRunning (monitors m) = false
            /\ tickerStopped m' = true)).
Proof.
  intros Ht. unfold finishIfIdle, bind, get.
  destruct (anyRunning (monitors m)) eqn:Ha.
  - unfold ret. eexists _, _. split; [reflexivity|].
    split; [reflexivity|]. split; [reflexivity|]. left. auto.
  - unfold modify.
    destruct (render_returns (setTickerStopped true m)) as [m' E].
    { apply (tracked_reported (setTickerStopped true m)).
      apply (tracked_shape m); auto. }
    pose proof (render_shape (setTickerStopped true m)) as Hsh.
    rewrite E in *. simpl in Hsh. apply shape_fields in Hsh as (_ & Hm & Hts & Hk).
    unfold ret. eexists _, _. split; [reflexivity|]. simpl in *.
    split; [exact Hm|]. split; [exact Hk|]. right. auto.
Qed.

(** One event on such a monitor: the switch returns and the rendering
    order stays in step. *)
Lemma handleEvent_tracked event m :
  tracked m ->
  exists o m', handleEvent event m = Returns o m' /\ tracked m'.
Proof.
  intros Ht. unfold handleEvent, bind, get.
  destruct event as [n t|t|t|n t|t e|];
    try (destruct (monitors m !! mssql.TableRef_String t) as [r|] eqn:Hk);
    unfold modify, ret; try (eexists _, _; split; [reflexivity|]; auto; fail).
  - eexists _, _. split; [reflexivity|]. apply (tracked_update _ _ r), Ht. exact Hk.
  - eexists _, _. split; [reflexivity|]. unfold tracked, tableKeys. simpl.
    split; [apply sort_Strings_Permutation|apply sort_Strings_Sorted].
  - destruct (finishIfIdle_tracked
                (setMonitors (<[mssql.TableRef_String t := setDone r]> (monitors m)) m))
      as (o & m' & E & Hm & Hs & _).
    { apply (tracked_update _ _ r), Ht. exact Hk. }
    rewrite E. eexists _, _. split; [reflexivity|].
    eapply tracked_shape; [exact Hm|exact Hs|].
    apply (tracked_update _ _ r), Ht. exact Hk.
  - eexists _, _. split; [reflexivity|]. apply (tracked_update _ _ r), Ht. exact Hk.
  - destruct (finishIfIdle_tracked
                (setMonitors (<[mssql.TableRef_String t := SetError r e]> (monitors m)) m))
      as (o & m' & E & Hm & Hs & _).
    { apply (tracked_update _ _ r), Ht. exact Hk. }
    rewrite E. eexists _, _. split; [reflexivity|].
    eapply tracked_shape; [exact Hm|exact Hs|].
    apply (tracked_update _ _ r), Ht. exact Hk.
Qed.

Lemma render_tracked m :
  tracked m -> exists m', render m = Returns tt m' /\ tracked m'.
Proof.
  intros Ht. destruct (render_returns m (tracked_reported m Ht)) as [m' E].
  pose proof (render_shape m) as Hsh. rewrite E in Hsh. simpl in Hsh.
  apply shape_fields in Hsh as (_ & Hm & _ & Hk).
  exists m'. split; [exact E|]. eapply tracked_shape; eauto.
Qed.

Lemma NewMonitor_tracked c : tracked (NewMonitor c).
Proof.
  unfold tracked, tableKeys. simpl. rewrite map_to_list_empty. simpl.
  split; constructor.
Qed.

Lemma Run_tracked inputs : forall m,
  tracked m ->
  exists res m', Run inputs m = Returns res m' /\ tracked m'.
Proof.
  induction inputs as [|i inputs IH]; intros m Ht; cbn [Run].
  - unfold ret. eauto.
  - destruct i as [|event|]; unfold bind.
    + destruct (render_tracked m Ht) as (m' & -> & Ht'). unfold ret. eauto.
    + destruct (handleEvent_tracked event m Ht) as (o & m' & -> & Ht').
      destruct o as [e|]; [unfold ret; eauto|apply IH, Ht'].
    + destruct (render_tracked m Ht) as (m' & -> & Ht'). apply IH, Ht'.
Qed.

(** X19: the event loop never dereferences a missing reporter.  On a
    monitor whose rendering order lists exactly the tables that have a
    reporter, in ascending order, as a new monitor does, [Run] returns or
    waits for more input whatever events, ticks and cancellations arrive,
    and the rendering order is again in step with the reporters. *)
Theorem Run_keeps_rendering_order inputs : forall m,
  tracked m ->
  exists res m', Run inputs m = Returns res m' /\ tracked m'.
Proof.
  induction inputs as [|i inputs IH]; intros m Ht; cbn [Run].
  - unfold ret. eauto.
  - destruct i as [|event|]; unfold bind.
    + destruct (render_tracked m Ht) as (m' & -> & Ht'). unfold ret. eauto.
    + destruct (handleEvent_tracked event m Ht) as (o & m' & -> & Ht').
      destruct o as [e|]; [unfold ret; eauto|apply IH, Ht'].
    + destruct (render_tracked m Ht) as (m' & -> & Ht'). apply IH, Ht'.
Qed.

Lemma Run_keeps_rendering_order_witness :
  exists res m',
    Run [Receive (CopyTaskStartedEvent exampleTable); Tick;
         Receive (ProgressUpdateEvent 1 exampleTable); CtxDone]
      (NewMonitor false) = Returns res m'
    /\ tracked m'.
Proof.
  apply (Run_keeps_rendering_order _ (NewMonitor false)).
  vm_compute. split; constructor.
Defined.

Lemma finishIfIdle_nil m m' :
  finishIfIdle m = Returns (Some None) m' ->
  anyRunning (monitors m') = false /\ tickerStopped m' = true.
Proof.
  unfold finishIfIdle, bind, get. destruct (anyRunning (monitors m)) eqn:Ha.
  - unfold ret. discriminate.
  - unfold modify. pose proof (render_shape (setTickerStopped true m)) as Hsh.
    destruct (render (setTickerStopped true m)) as [[] m1|m1]; [|discriminate].
    unfold ret. intros E. injection E as <-. simpl in Hsh.
    apply shape_fields in Hsh as (_ & Hm & Hts & _). simpl in *.
    rewrite Hm. auto.
Qed.

Lemma handleEvent_nil event m m' :
  handleEvent event m = Returns (Some None) m' ->
  anyRunning (monitors m') = false /\ tickerStopped m' = true.
Proof.
  unfold handleEvent, bind, get.
  destruct event as [n t|t|t|n t|t e|];
    try (destruct (monitors m !! mssql.TableRef_String t) as [r|]);
    unfold modify, ret; try discriminate; apply finishIfIdle_nil.
Qed.

(** X20: short of a cancellation, [Run] returns nil only when no table is
    left running: every reporter is then done, finished or failed, and the
    ticker has been stopped. *)
Theorem Run_nil_means_all_done inputs : forall m m',
  ~ In CtxDone inputs ->
  Run inputs m = Returns (Returned None) m' ->
  anyRunning (monitors m') = false /\ tickerStopped m' = true.
Proof.
  induction inputs as [|i inputs IH]; intros m m' Hn H; cbn [Run] in H.
  - discriminate H.
  - destruct i as [|event|].
    + exfalso. apply Hn. left. reflexivity.
    + apply bind_Returns in H as (o & m1 & Hh & H). destruct o as [e|].
      * unfold ret in H. injection H as -> <-. apply (handleEvent_nil _ _ _ Hh).
      * apply (IH m1); [|exact H]. intros Hin. apply Hn. right. exact Hin.
    + apply bind_Returns in H as ([] & m1 & _ & H).
      apply (IH m1); [|exact H]. intros Hin. apply Hn. right. exact Hin.
Qed.

Lemma Run_nil_means_all_done_witness :
  anyRunning
    (monitors
       (finalState
          (Run [Receive (CopyTaskStartedEvent exampleTable); Tick;
                Receive (CopyTaskFinishedEvent exampleTable)] (NewMonitor true))))
  = false.
Proof.
  refine (proj1 (Run_nil_means_all_done
                   [Receive (CopyTaskStartedEvent exampleTable); Tick;
                    Receive (CopyTaskFinishedEvent exampleTable)]
                   (NewMonitor true) _ _ _)).
  - simpl. intros [H|[H|[H|[]]]]; discriminate H.
  - vm_compute. reflexivity.
Defined.

Lemma settled_record m key r l :
  monitors m !! key = Some r ->
  settled (recordCopied key (RowsCopied r) (w_Write l m)) key
  /\ forall k, settled m k ->
               settled (recordCopied key (RowsCopied r) (w_Write l m)) k.
Proof.
  intros Hk. unfold settled. simpl. split.
  - intros r0 Hr0. rewrite Hk in Hr0. injection Hr0 as <-. right.
    exists (RowsCopied r). rewrite lookup_insert_eq. split; [reflexivity|lia].
  - intros k Hs r0 Hr0. destruct (decide (key = k)) as [<-|Hne].
    + rewrite Hk in Hr0. injection Hr0 as <-. right.
      exists (RowsCopied r). rewrite lookup_insert_eq. split; [reflexivity|lia].
    + rewrite lookup_insert_ne by exact Hne. apply Hs, Hr0.
Qed.

(** The line-oriented loop brings every key it visits up to date. *)
Lemma renderLines_settles keys : forall m m',
  renderLines keys m = Returns tt m' ->
  (forall k, settled m k -> settled m' k)
  /\ Forall (settled m') keys /\ reported m' keys.
Proof.
  induction keys as [|key keys IH]; intros m m' H.
  - cbn [renderLines] in H. unfold ret in H. injection H as <-.
    split; [auto|]. split; constructor.
  - pose proof (renderLines_monitors (key :: keys) m) as Hmon.
    rewrite H in Hmon. simpl in Hmon.
    cbn [renderLines] in H. unfold bind at 1 in H. unfold get in H.
    destruct (monitors m !! key) as [r|] eqn:Hk; [|discriminate H].
    assert (forall m2, (forall k, settled m k -> settled m2 k) -> settled m2 key ->
                       renderLines keys m2 = Returns tt m' ->
                       (forall k, settled m k -> settled m' k)
                       /\ Forall (settled m') (key :: keys)
                       /\ reported m' (key :: keys)) as Hstep.
    { intros m2 H2 Hkey H'. apply IH in H' as (P & F & R).
      split; [auto|]. split; constructor; auto. rewrite Hmon, Hk. eauto. }
    destruct (Z.eqb_spec (RowTotal r) 0) as [Hz|Hz].
    { apply (Hstep m); auto. intros r0 Hr0. rewrite Hk in Hr0.
      injection Hr0 as <-. auto. }
    destruct (rowsCopied (lastRender m) !! key) as [c|] eqn:Hc.
    + destruct (Z.ltb_spec c (RowsCopied r)) as [Hlt|Hge].
      * unfold bind, modify in H.
        destruct (settled_record m key r
                    (copiedLine key (RowsCopied r) (RowTotal r)) Hk) as [S1 S2].
        eapply Hstep; [exact S2|exact S1|exact H].
      * apply (Hstep m); auto. intros r0 Hr0. rewrite Hk in Hr0.
        injection Hr0 as <-. right. exists c. auto.
    + unfold bind, modify in H.
      destruct (settled_record m key r
                  (copiedLine key (RowsCopied r) (RowTotal r)) Hk) as [S1 S2].
      eapply Hstep; [exact S2|exact S1|exact H].
Qed.

(** On keys that are up to date the line-oriented loop does nothing. *)
Lemma renderLines_settled keys : forall m,
  reported m keys -> Forall (settled m) keys -> renderLines keys m = Returns tt m.
Proof.
  induction keys as [|key keys IH]; intros m R F; cbn [renderLines].
  - reflexivity.
  - inversion R as [|? ? [r Hr] Rrest]; subst.
    inversion F as [|? ? Hs Frest]; subst.
    unfold bind at 1. unfold get. rewrite Hr.
    destruct (Z.eqb_spec (RowTotal r) 0) as [Hz|Hz]; [apply IH; auto|].
    destruct (Hs r Hr) as [Hz'|(c & Hc & Hle)]; [contradiction|].
    rewrite Hc. destruct (Z.ltb_spec c (RowsCopied r)); [lia|apply IH; auto].
Qed.

(** X21: in line-oriented mode a render that follows a render directly
    writes nothing and changes nothing: a progress line is printed only
    when the count of its table has grown since the line last printed. *)
Theorem render_ci_idempotent m m1 :
  ci m = true ->
  render m = Returns tt m1 ->
  render m1 = Returns tt m1.
Proof.
  intros Hci H. pose proof (render_shape m) as Hsh. rewrite H in Hsh.
  simpl in Hsh. apply shape_fields in Hsh as (Hci1 & _ & _ & Hkeys).
  unfold render, bind, get in *. rewrite Hci in H. rewrite Hci1, Hci, Hkeys.
  apply renderLines_settles in H as (_ & F & R).
  apply renderLines_settled; assumption.
Qed.

Lemma render_ci_idempotent_witness :
  render
    (finalState
       (Run [Receive (CopyTaskStartedEvent exampleTable);
             Receive (CountUpdateEvent 10 exampleTable);
             Receive (ProgressUpdateEvent 3 exampleTable); Tick] (NewMonitor true)))
  = Returns tt
      (finalState
         (Run [Receive (CopyTaskStartedEvent exampleTable);
               Receive (CountUpdateEvent 10 exampleTable);
               Receive (ProgressUpdateEvent 3 exampleTable); Tick] (NewMonitor true))).
Proof.
  apply (render_ci_idempotent
           (finalState
              (Run [Receive (CopyTaskStartedEvent exampleTable);
                    Receive (CountUpdateEvent 10 exampleTable);
                    Receive (ProgressUpdateEvent 3 exampleTable)] (NewMonitor true)))).
  - vm_compute. reflexivity.
  - vm_compute. reflexivity.
Defined.

(** X22: the monitor accepts what a writer sends.  On a monitor that has
    a reporter for the table of the task, the events of one writer run,
    progress events followed by a terminal event, never make [Run] return an
    error: it goes on waiting or, when no other table is running, returns
    nil; the reporter of the table is then done and its count has grown by
    the number of rows inserted. *)
Theorem Run_accepts_writer_events ct k term : forall m r,
  tracked m ->
  monitors m !! mssql.TableRef_String (copy.table ct) = Some r ->
  0 <= RowsCopied r -> RowsCopied r + Z.of_nat k < 2 ^ 63 ->
  terminalEvent ct term ->
  exists res m' r',
    Run (map Receive (replicate k (rowCopied ct) ++ [term])) m = Returns res m'
    /\ (res = Waiting \/ res = Returned None)
    /\ monitors m' !! mssql.TableRef_String (copy.table ct) = Some r'
    /\ done r' = true
    /\ RowsCopied r' = RowsCopied r + Z.of_nat k.
Proof.
  induction k as [|k IH]; intros m r Ht Hk H0 Hlt Hterm.
  - cbn [replicate app map Run]. unfold bind at 1.
    assert (forall r1, RowsCopied r1 = RowsCopied r -> done r1 = true ->
              exists res m' r',
                match
                  finishIfIdle
                    (setMonitors
                       (<[mssql.TableRef_String (copy.table ct) := r1]> (monitors m)) m)
                with
                | Returns a s' =>
                    match a with
                    | Some e => ret (Returned e)
                    | None => Run []
                    end s'
                | Panics s' => Panics s'
                end = Returns res m'
                /\ (res = Waiting \/ res = Returned None)
                /\ monitors m' !! mssql.TableRef_String (copy.table ct) = Some r'
                /\ done r' = true
                /\ RowsCopied r' = RowsCopied r + Z.of_nat 0) as Hfin.
    { intros r1 Hr1 Hd1.
      destruct (finishIfIdle_tracked
                  (setMonitors
                     (<[mssql.TableRef_String (copy.table ct) := r1]> (monitors m)) m))
        as (o & m' & E & Hm & _ & Ho).
      { apply (tracked_update _ _ r), Ht. exact Hk. }
      rewrite E. simpl in Hm.
      destruct Ho as [(-> & _ & _)|(-> & _ & _)]; cbn [Run]; unfold ret;
        eexists _, m', r1; (split; [reflexivity|]);
        rewrite Hm, lookup_insert_eq; simpl; (split; [auto|]);
        (split; [reflexivity|]); (split; [exact Hd1|lia]). }
    destruct Hterm as [->|[msg ->]]; unfold handleEvent, bind, get; rewrite Hk;
      unfold modify; apply Hfin; reflexivity.
  - cbn [replicate app map Run]. unfold bind at 1. unfold rowCopied at 1.
    unfold handleEvent, bind, get. rewrite Hk. unfold modify, ret.
    destruct (IH (setMonitors
                    (<[mssql.TableRef_String (copy.table ct) := Update r 1]> (monitors m))
                    m) (Update r 1)) as (res & m' & r' & E & Hres & Hm & Hd & Hc).
    + apply (tracked_update _ _ r), Ht. exact Hk.
    + simpl. apply lookup_insert_eq.
    + simpl. rewrite wrap64_small by lia. lia.
    + simpl. rewrite wrap64_small by lia. lia.
    + exact Hterm.
    + exists res, m', r'. split; [exact E|]. split; [exact Hres|].
      split; [exact Hm|]. split; [exact Hd|].
      rewrite Hc. simpl. rewrite wrap64_small by lia. lia.
Qed.

Lemma Run_accepts_writer_events_witness :
  exists res m' r',
    Run (map Receive
           (replicate 2
              (rowCopied {| copy.table := exampleTable;
                            copy.queryFilter := EmptyString; copy.errs := [] |})
            ++ [CopyTaskFinishedEvent exampleTable]))
      (finalState (Run [Receive (CopyTaskStartedEvent exampleTable)] (NewMonitor true)))
    = Returns res m'
    /\ (res = Waiting \/ res = Returned None)
    /\ monitors m' !! mssql.TableRef_String exampleTable = Some r'
    /\ done r' = true
    /\ RowsCopied r' = 0 + Z.of_nat 2.
Proof.
  apply (Run_accepts_writer_events
           {| copy.table := exampleTable; copy.queryFilter := EmptyString;
              copy.errs := [] |} 2 (CopyTaskFinishedEvent exampleTable)
           (finalState (Run [Receive (CopyTaskStartedEvent exampleTable)]
                          (NewMonitor true)))
           (NewProgressReporter exampleTable)).
  - vm_compute. split; [apply Permutation_refl|repeat constructor].
  - vm_compute. reflexivity.
  - simpl. lia.
  - simpl. lia.
  - left. reflexivity.
Defined.

End MonitorMore.

(** ** Foreign keys: dropping and re-creating *)

Section ForeignKeysMore.
Import mssql.


Lemma sameConstraint_refl fk : sameConstraint fk fk = true.
Proof. unfold sameConstraint. rewrite !String.eqb_refl. reflexivity. Qed.

(** A run of drops that all succeed removes every constraint it names and
    adds none. *)
Lemma dropLoop_success l : forall d d',
  dropLoop l d = Returns None d' ->
  forall fk, In fk (foreignKeys d') ->
    In fk (foreignKeys d) /\ Forall (fun x => sameConstraint x fk = false) l.
Proof.
  induction l as [|x l IH]; intros d d' H fk Hin; cbn [dropLoop] in H.
  - unfold ret in H. injection H as <-. auto.
  - apply bind_Returns in H as (e & d1 & H1 & H). unfold DropForeignKey in H1.
    apply bind_Returns in H1 as (e0 & d0 & H0 & H1).
    assert (foreignKeys d0 = foreignKeys d) as Hfk.
    { unfold driverCall in H0. destruct (script d); injection H0 as <- <-; reflexivity. }
    destruct e0 as [e0|].
    + unfold ret in H1. injection H1 as <- <-. discriminate H.
    + unfold bind, modify, ret in H1. injection H1 as <- <-.
      destruct (IH _ _ H fk Hin) as [Hin1 Hrest]. simpl in Hin1.
      apply filter_In in Hin1 as [Hin0 Hx]. rewrite Hfk in Hin0.
      split; [exact Hin0|]. constructor; [|exact Hrest].
      apply negb_true_iff, Hx.
Qed.

(** X27: when [DropReferencedForeignKeys] reports success, the store
    holds no foreign key that references the table, and every key it
    still holds was there before. *)
Theorem DropReferencedForeignKeys_leaves_none t d d' :
  DropReferencedForeignKeys t d = Returns None d' ->
  Forall (fun fk => references t fk = false /\ In fk (foreignKeys d))
    (foreignKeys d').
Proof.
  unfold DropReferencedForeignKeys, GetReferencedForeignKeys. intros H.
  apply bind_Returns in H as ([l e] & d1 & H1 & H).
  apply bind_Returns in H1 as (e0 & d0 & H0 & H1).
  assert (foreignKeys d0 = foreignKeys d) as Hfk.
  { unfold driverCall in H0. destruct (script d); injection H0 as <- <-; reflexivity. }
  destruct e0 as [e0|].
  { unfold ret in H1. injection H1 as <- <- <-. discriminate H. }
  unfold bind, get, ret in H1. injection H1 as <- <- <-. simpl in H.
  apply Forall_forall. intros fk Hin. apply list_elem_of_In in Hin.
  destruct (dropLoop_success _ _ _ H fk Hin) as [Hin0 Hall].
  rewrite Hfk in *. split; [|exact Hin0].
  destruct (references t fk) eqn:Hr; [|reflexivity]. exfalso.
  assert (In fk (List.filter (references t) (foreignKeys d))) as Hl.
  { apply filter_In. auto. }
  rewrite Forall_forall in Hall. apply list_elem_of_In in Hl.
  apply Hall in Hl. rewrite sameConstraint_refl in Hl. discriminate Hl.
Qed.

Lemma DropReferencedForeignKeys_leaves_none_witness :
  foreignKeys (finalState (DropReferencedForeignKeys exampleTable keyedStore))
  = [otherKey]
  /\ Forall (fun fk => references exampleTable fk = false
                       /\ In fk (foreignKeys keyedStore))
       (foreignKeys (finalState (DropReferencedForeignKeys exampleTable keyedStore))).
Proof.
  split; [vm_compute; reflexivity|].
  apply (DropReferencedForeignKeys_leaves_none exampleTable keyedStore).
  vm_compute. reflexivity.
Defined.

End ForeignKeysMore.
